(** * Correlation-aware trajectory sanitisation: a shallow embedding

    The development follows the two Python modules of the repository:
    [data.py] (trajectories and individual trajectory databases) and
    [algo.py] (risk, relation graph, the CIDP bound solver, the IDFA
    budget optimiser and the sanitiser).  Later sections add the loop of
    [load_ITDs], the driver [main.py] and the layout of a log record in
    [log.py].

    Conventions of the embedding.
    - Python [int] is [Z].  Python [float] is idealised as an exact
      rational [Q], compared with [==]; rounding is not modelled.
    - A Python [dict] is an association list in insertion order; a
      well-formed one ([dict_wf]) has pairwise distinct keys.  Lookup of a
      missing key raises [KeyError].  A [defaultdict(list)] is read with
      [dd_get], which returns the empty list on a missing key.
    - A Python [set] of UIDs is a duplicate-free list, iterated in
      insertion order.
    - Exceptions are values of [exn]; fallible code returns [result].
    - [while True] loops take fuel: a loop that is still running when the
      fuel is used up yields [None], and [OutOfFuel] in the monad [M].
    - Of the logging only the [log.info] lines are kept, as a trace of
      events; the [log.debug] dumps are dropped.
    - The generator behind [np.random.laplace] is a table of samples
      together with a counter of the draws made so far. *)

From Stdlib Require Import List ZArith QArith Qround Bool Lia Lqa Permutation Sorted.
Import ListNotations.


(* ================================================================== *)
(** * Python runtime: exceptions, dictionaries, sets                   *)
(* ================================================================== *)

Inductive exn : Type :=
| Exception_          (* a bare [raise Exception] *)
| KeyError
| IndexError
| ValueError
| ZeroDivisionError.

Inductive result (A : Type) : Type :=
| Ok (a : A)
| Raise (e : exn).

Arguments Ok {A} a.
Arguments Raise {A} e.

Definition bind {A B : Type} (m : result A) (k : A -> result B) : result B :=
  match m with
  | Ok a => k a
  | Raise e => Raise e
  end.

Declare Scope py_scope.
Delimit Scope py_scope with py.
Notation "x <- m ;; k" := (bind m (fun x => k))
  (at level 61, m at next level, right associativity) : py_scope.
Notation "' pat <- m ;; k" := (bind m (fun x => match x with pat => k end))
  (at level 61, pat pattern, m at next level, right associativity) : py_scope.
Open Scope py_scope.

(** [for x in xs: s = body(x, s)] where the body may raise. *)
Fixpoint for_each {A S : Type} (xs : list A) (body : A -> S -> result S)
    (s : S) : result S :=
  match xs with
  | [] => Ok s
  | x :: xs' => s' <- body x s ;; for_each xs' body s'
  end.

(** Keys of dictionaries: types with a decidable equality ([__eq__]). *)
Class Key (K : Type) := key_eq_dec : forall x y : K, {x = y} + {x <> y}.

Definition keyb {K} `{Key K} (x y : K) : bool :=
  if key_eq_dec x y then true else false.

#[export] Instance Key_Z : Key Z := Z.eq_dec.

Definition dict (K V : Type) := list (K * V).

Section Dict.
Context {K V : Type} `{Key K}.

Definition dict_keys (d : dict K V) : list K := map fst d.

Fixpoint dict_get (d : dict K V) (k : K) : option V :=
  match d with
  | [] => None
  | (k', v) :: d' => if key_eq_dec k k' then Some v else dict_get d' k
  end.

(** [k in d] *)
Definition dict_contains (d : dict K V) (k : K) : bool :=
  match dict_get d k with Some _ => true | None => false end.

(** [d[k]] as an expression. *)
Definition dict_getitem (d : dict K V) (k : K) : result V :=
  match dict_get d k with Some v => Ok v | None => Raise KeyError end.

(** [d[k] = v]: an existing key keeps its place, a new one goes last. *)
Fixpoint dict_set (d : dict K V) (k : K) (v : V) : dict K V :=
  match d with
  | [] => [(k, v)]
  | (k', v') :: d' =>
      if key_eq_dec k k' then (k', v) :: d' else (k', v') :: dict_set d' k v
  end.

(** A well-formed dictionary has pairwise distinct keys. *)
Definition dict_wf (d : dict K V) : Prop := NoDup (dict_keys d).
End Dict.

(** Reading a [defaultdict(list)]. *)
Definition dd_get {K V : Type} `{Key K} (d : dict K (list V)) (k : K) : list V :=
  match dict_get d k with Some l => l | None => [] end.

(** Membership in a list of UIDs ([x in l], [x in s]). *)
Definition mem {K} `{Key K} (x : K) (l : list K) : bool :=
  existsb (keyb x) l.

(** [s.add(x)] on a set kept as a duplicate-free list. *)
Definition set_add {K} `{Key K} (s : list K) (x : K) : list K :=
  if mem x s then s else s ++ [x].

(** [s - set([x])] *)
Definition set_remove {K} `{Key K} (s : list K) (x : K) : list K :=
  filter (fun y => negb (keyb y x)) s.

(* ================================================================== *)
(** * data.py                                                          *)
(* ================================================================== *)

(** User identifiers are Python integers. *)
Abbreviation UID := Z (only parsing).

(** [class Trajectory]: the tuple of locations; equality and hash are
    those of the tuple. *)
Record Trajectory : Type := mkTrajectory { locations : list Z }.

#[export] Instance Key_Trajectory : Key Trajectory.
Proof.
  intros [l1] [l2]. destruct (list_eq_dec Z.eq_dec l1 l2) as [e | n].
  - left. now rewrite e.
  - right. intros E. apply n. now inversion E.
Defined.

(** [class ITDBuilder]: [trajs] is a [collections.Counter]. *)
Record ITDBuilder : Type := mkITDBuilder {
  builder_uid : UID;
  trajs : dict Trajectory Z
}.

Definition ITDBuilder_init (uid : UID) : ITDBuilder := mkITDBuilder uid [].

(** [self.trajs[trajectory] += 1]; a Counter reads a missing key as 0. *)
Definition ITDBuilder_add (self : ITDBuilder) (trajectory : Trajectory) : ITDBuilder :=
  let old := match dict_get (trajs self) trajectory with Some c => c | None => 0%Z end in
  mkITDBuilder (builder_uid self) (dict_set (trajs self) trajectory (old + 1)%Z).

(** [class ITD] *)
Record ITD : Type := mkITD {
  _uid : UID;
  _ts : list Trajectory;
  _t2idx : dict Trajectory Z;
  _t2cnt : dict Trajectory Z
}.

(** The loop of [ITD.__init__] over [enumerate(builder.trajs.items())].
    The second argument of the constructor, [traj_freq], is never read and
    is left out. *)
Fixpoint ITD_fill (items : list (Trajectory * Z)) (idx : Z) (self : ITD) : ITD :=
  match items with
  | [] => self
  | (traj, cnt) :: rest =>
      ITD_fill rest (idx + 1)%Z
        (mkITD (_uid self)
               (_ts self ++ [traj])
               (dict_set (_t2idx self) traj idx)
               (dict_set (_t2cnt self) traj cnt))
  end.

Definition ITD_init (builder : ITDBuilder) : ITD :=
  ITD_fill (trajs builder) 0%Z (mkITD (builder_uid builder) [] [] []).

Definition ITD_uid (self : ITD) : UID := _uid self.

Definition trajectories (self : ITD) : list Trajectory := _ts self.

(** [ITD.id] *)
Definition ITD_id (self : ITD) (t : Trajectory) : result Z :=
  if negb (dict_contains (_t2idx self) t) then Raise Exception_
  else dict_getitem (_t2idx self) t.

(** [ITD.count], as written: a guarded dictionary read. *)
Definition ITD_count_py (self : ITD) (t : Trajectory) : result Z :=
  if dict_contains (_t2cnt self) t then dict_getitem (_t2cnt self) t else Ok 0%Z.

(** The value of [ITD.count]; [ITD_count_py_total] shows that the guarded
    read never raises and returns this number. *)
Definition ITD_count (self : ITD) (t : Trajectory) : Z :=
  match dict_get (_t2cnt self) t with Some c => c | None => 0%Z end.

(** [ITD.contains] *)
Definition ITD_contains (self : ITD) (t : Trajectory) : bool := mem t (_ts self).

(** A population: [Dict[int, ITD]]. *)
Definition Population := dict UID ITD.

(* ================================================================== *)
(** * algo.py                                                          *)
(* ================================================================== *)

(** True division [a / b] of Python numbers. *)
Definition py_div (a b : Q) : result Q :=
  if Qeq_bool b 0 then Raise ZeroDivisionError else Ok (a / b).

(** [sum(...)] over integers: a left fold from 0. *)
Definition py_sum_Z (l : list Z) : Z := fold_left Z.add l 0%Z.

(** [sum(...)] over floats. *)
Definition py_sum (l : list Q) : Q := fold_left Qplus l 0.

(** [sum(itd.count(traj) for _, itd in itds.items())] *)
Definition total_count (traj : Trajectory) (itds : Population) : Z :=
  py_sum_Z (map (fun '(_, itd) => ITD_count itd traj) itds).

(** [_risk] *)
Definition _risk (cnt : Z) (traj : Trajectory) (itds : Population) : result Q :=
  py_div (inject_Z cnt) (inject_Z (total_count traj itds)).

(** [max(l, key=...)]: the first element with the largest key. *)
Fixpoint py_max_by {A} (best : A * Q) (l : list (A * Q)) : A * Q :=
  match l with
  | [] => best
  | x :: l' => py_max_by (if Qlt_le_dec (snd best) (snd x) then x else best) l'
  end.

(** [[f(x) for x in xs]] where [f] may raise. *)
Fixpoint map_result {A B} (f : A -> result B) (xs : list A) : result (list B) :=
  match xs with
  | [] => Ok []
  | x :: xs' => y <- f x ;; ys <- map_result f xs' ;; Ok (y :: ys)
  end.

(** [_find_riskest] *)
Definition _find_riskest (uid : UID) (itds : Population) : result Trajectory :=
  itd <- dict_getitem itds uid ;;
  tv <- map_result (fun t => v <- _risk (ITD_count itd t) t itds ;; Ok (t, v))
                   (trajectories itd) ;;
  match tv with
  | [] => Raise ValueError
  | x :: tv' => Ok (fst (py_max_by x tv'))
  end.

(** The first loop of [_find_strong_relations]: UIDs grouped by their
    riskiest trajectory. *)
Definition group_by_riskest (riskest : dict UID Trajectory) : dict Trajectory (list UID) :=
  fold_left (fun t2uid '(uid, t) => dict_set t2uid t (set_add (dd_get t2uid t) uid))
            riskest [].

(** [_find_strong_relations] *)
Definition _find_strong_relations (riskest : dict UID Trajectory) : dict UID (list UID) :=
  fold_left
    (fun relations '(_, uids) =>
       if (1 <? length uids)%nat
       then fold_left (fun rel uid => dict_set rel uid (set_remove uids uid)) uids relations
       else relations)
    (group_by_riskest riskest) [].

(** The condition of the inner loop of [_find_weak_relations];
    [itds[uid2]] is the value [itd2] the loop is at. *)
Definition weak_cond (riskest : dict UID Trajectory) (strong_relations : dict UID (list UID))
    (uid1 uid2 : UID) (itd2 : ITD) : bool :=
  negb (keyb uid1 uid2)
  && match dict_get riskest uid1 with
     | Some t => mem t (trajectories itd2)
     | None => false
     end
  && negb (mem uid2 (dd_get strong_relations uid1)).

(** [_find_weak_relations] *)
Definition _find_weak_relations (riskest : dict UID Trajectory) (itds : Population)
    (strong_relations : dict UID (list UID)) : dict UID (list UID) :=
  let strong_relations :=
    match strong_relations with
    | [] => _find_strong_relations riskest
    | _ => strong_relations
    end in
  fold_left
    (fun weak '(uid1, _) =>
       fold_left
         (fun weak '(uid2, itd2) =>
            if weak_cond riskest strong_relations uid1 uid2 itd2
            then dict_set weak uid1 (dd_get weak uid1 ++ [uid2])
            else weak)
         itds weak)
    itds [].

(** [affected[v] += k,] on a plain dictionary. *)
Definition dict_append {K V} `{Key K} (d : dict K (list V)) (v : K) (k : V)
    : result (dict K (list V)) :=
  l <- dict_getitem d v ;; Ok (dict_set d v (l ++ [k])).

(** The two loops of [_affected_by] over the items of a relation map. *)
Definition add_affected (relations : dict UID (list UID)) (affected : dict UID (list UID))
    : result (dict UID (list UID)) :=
  for_each relations
    (fun '(k, v_list) affected =>
       for_each v_list (fun v affected => dict_append affected v k) affected)
    affected.

(** [_affected_by] *)
Definition _affected_by (riskest : dict UID Trajectory) (itds : Population)
    : result (dict UID (list UID)) :=
  let affected := map (fun '(uid, _) => (uid, [uid])) itds in
  let strong_relations := _find_strong_relations riskest in
  affected <- add_affected strong_relations affected ;;
  let weak_relations := _find_weak_relations riskest itds strong_relations in
  add_affected weak_relations affected.

(** ** The bound solver *)

(** [sorted(...)] on integers. *)
Fixpoint insert_sorted (x : Z) (l : list Z) : list Z :=
  match l with
  | [] => [x]
  | y :: l' => if (x <=? y)%Z then x :: l else y :: insert_sorted x l'
  end.

Definition sorted (l : list Z) : list Z := fold_right insert_sorted [] l.

#[export] Instance Key_nat : Key nat := Nat.eq_dec.

(** [enumerate(l)] *)
Definition enumerate {A} (l : list A) : list (nat * A) := combine (seq 0 (length l)) l.

(** A matrix is a list of rows; reading or writing outside raises
    [IndexError] (indices are never negative here). *)
Definition matrix := list (list Q).

Fixpoint list_set {A} (l : list A) (i : nat) (v : A) : result (list A) :=
  match l, i with
  | [], _ => Raise IndexError
  | _ :: l', O => Ok (v :: l')
  | x :: l', S i' => r <- list_set l' i' v ;; Ok (x :: r)
  end.

Definition list_getitem {A} (l : list A) (i : nat) : result A :=
  match nth_error l i with Some v => Ok v | None => Raise IndexError end.

(** [m[i][j]] *)
Definition mat_get (m : matrix) (i j : nat) : result Q :=
  row <- list_getitem m i ;; list_getitem row j.

(** [m[i][j] = v] *)
Definition mat_set (m : matrix) (i j : nat) (v : Q) : result matrix :=
  row <- list_getitem m i ;; row' <- list_set row j v ;; list_set m i row'.

(** [m[i][j] += v] *)
Definition mat_add (m : matrix) (i j : nat) (v : Q) : result matrix :=
  old <- mat_get m i j ;; mat_set m i j (old + v).

(** Truth value of a number: [if x:]. *)
Definition truthy (x : Q) : bool := negb (Qeq_bool x 0).

Section CIDP.
Variable itds : Population.
Variable riskest : dict UID Trajectory.
Variable epsl : dict UID Q.
Variable theta : Q.

Definition idx2uid : dict nat UID := enumerate (sorted (dict_keys itds)).
Definition uid2idx : dict UID nat :=
  map (fun '(i, uid) => (uid, i)) (enumerate (sorted (dict_keys itds))).

(** [epsl[idx2uid[i]]] *)
Definition epsl_at (i : nat) : result Q :=
  uid <- dict_getitem idx2uid i ;; dict_getitem epsl uid.

(** Body of the loop over [strong_relations[idx2uid[i]]]. *)
Definition strong_step (i : nat) (uid_j : UID) (LR : matrix * matrix)
    : result (matrix * matrix) :=
  let '(mat_L, mat_R) := LR in
  j <- dict_getitem uid2idx uid_j ;;
  mat_L <- mat_add mat_L i i (1 # 2) ;;
  mat_L <- mat_add mat_L j j (1 # 2) ;;
  mat_L <- mat_set mat_L i j (- (1)) ;;
  mat_L <- mat_set mat_L j i (- (1)) ;;
  ei <- epsl_at i ;;
  mat_R <- mat_set mat_R i j (- ei) ;;
  ej <- epsl_at j ;;
  mat_R <- mat_set mat_R j i (- ej) ;;
  Ok (mat_L, mat_R).

(** Body of the loop over [weak_relations[idx2uid[i]]]. *)
Definition weak_step (i : nat) (uid_j : UID) (LR : matrix * matrix)
    : result (matrix * matrix) :=
  let '(mat_L, mat_R) := LR in
  j <- dict_getitem uid2idx uid_j ;;
  mat_L <- mat_add mat_L i i 1 ;;
  mat_L <- mat_add mat_L j j 1 ;;
  mat_L <- mat_set mat_L i j (- (1)) ;;
  mat_L <- mat_set mat_L j i (- (1)) ;;
  ei <- epsl_at i ;;
  mat_R <- mat_set mat_R i j (- ei * theta) ;;
  mat_R <- mat_set mat_R j i 0 ;;
  Ok (mat_L, mat_R).

(** Body of the loop that fills the diagonal of [mat_R]. *)
Definition diag_step (i : nat) (LR : matrix * matrix) : result (matrix * matrix) :=
  let '(mat_L, mat_R) := LR in
  d <- mat_get mat_L i i ;;
  if truthy d
  then ei <- epsl_at i ;;
       q <- py_div ei d ;;
       mat_R <- mat_set mat_R i i q ;;
       Ok (mat_L, mat_R)
  else Ok (mat_L, mat_R).

(** [sum(mat_L[i][j] * mat_R[j][i] for j in range(n))] *)
Definition cidp_row (mat_L mat_R : matrix) (i : nat) : result Q :=
  terms <- map_result (fun j => l <- mat_get mat_L i j ;;
                                r <- mat_get mat_R j i ;;
                                Ok (l * r))
                      (seq 0 (length itds)) ;;
  Ok (py_sum terms).

(** [compute_CIDP]; [n = len(itds)] is written [length itds]. *)
Definition compute_CIDP : result (dict UID Q) :=
  let strong_relations := _find_strong_relations riskest in
  let weak_relations := _find_weak_relations riskest itds strong_relations in
  let mat_L : matrix := map (fun _ => repeat 0 (length itds)) (seq 0 (length itds)) in
  mat_R <- map_result (fun i => e <- epsl_at i ;; Ok (repeat (- e) (length itds)))
                      (seq 0 (length itds)) ;;
  LR <- for_each (seq 0 (length itds))
          (fun i LR =>
             uid_i <- dict_getitem idx2uid i ;;
             LR <- for_each (dd_get strong_relations uid_i) (strong_step i) LR ;;
             for_each (dd_get weak_relations uid_i) (weak_step i) LR)
          (mat_L, mat_R) ;;
  LR <- for_each (seq 0 (length itds)) diag_step LR ;;
  let '(mat_L, mat_R) := LR in
  map_result (fun i => uid_i <- dict_getitem idx2uid i ;;
                       c <- cidp_row mat_L mat_R i ;;
                       Ok (uid_i, c))
             (seq 0 (length itds)).
End CIDP.

(** ** Effects of the optimiser and the sanitiser

    The [log.info] lines are kept as a trace; the generator behind
    [np.random.laplace] is a counter into a table of samples. *)

Inductive event : Type :=
| LogIDFA (epsl_init beta : Q)                   (* "Computing IDFA(...)" *)
| LogOptimizing (uid : UID)                      (* "Optimizing user ..." *)
| LogIteration (round_ : Z)                      (* "Senitization iteration ..." *)
| LogNoiseScale (noise_scale : dict UID (list Q)).  (* "noise_scale = ..." *)

Record world : Type := mkWorld {
  log_info : list event;   (* oldest first *)
  draws : nat              (* samples taken so far *)
}.

Inductive outcome (A : Type) : Type :=
| Done (a : A) (w : world)
| Raised (e : exn) (w : world)
| OutOfFuel.

Arguments Done {A} a w.
Arguments Raised {A} e w.
Arguments OutOfFuel {A}.

Definition M (A : Type) : Type := world -> outcome A.

Definition ret {A} (a : A) : M A := fun w => Done a w.

Definition mbind {A B} (m : M A) (k : A -> M B) : M B :=
  fun w => match m w with
           | Done a w' => k a w'
           | Raised e w' => Raised e w'
           | OutOfFuel => OutOfFuel
           end.

Notation "x <~ m ;; k" := (mbind m (fun x => k))
  (at level 61, m at next level, right associativity) : py_scope.
Notation "' pat <~ m ;; k" := (mbind m (fun x => match x with pat => k end))
  (at level 61, pat pattern, m at next level, right associativity) : py_scope.

Definition lift {A} (r : result A) : M A :=
  fun w => match r with Ok a => Done a w | Raise e => Raised e w end.

(** A fuelled loop: [None] is a loop that is still running. *)
Definition run_loop {A} (r : option (result A)) : M A :=
  fun w => match r with
           | Some (Ok a) => Done a w
           | Some (Raise e) => Raised e w
           | None => OutOfFuel
           end.

Definition emit (e : event) : M unit :=
  fun w => Done tt (mkWorld (log_info w ++ [e]) (draws w)).

Fixpoint for_each_M {A S : Type} (xs : list A) (body : A -> S -> M S) (s : S) : M S :=
  match xs with
  | [] => ret s
  | x :: xs' => s' <~ body x s ;; for_each_M xs' body s'
  end.

Definition Qltb (x y : Q) : bool := negb (Qle_bool y x).

(** ** The budget optimiser *)

(** [for uid_ in affected[uid]: epsl[uid_] += delta]; the second loop of
    the optimiser, with [-= beta], shifts by [- beta]. *)
Definition shift_budgets (affected : dict UID (list UID)) (uid : UID) (delta : Q)
    (epsl : dict UID Q) : result (dict UID Q) :=
  uids <- dict_getitem affected uid ;;
  for_each uids
    (fun uid_ epsl => e <- dict_getitem epsl uid_ ;; Ok (dict_set epsl uid_ (e + delta)))
    epsl.

(** [theta] is left at its default in the calls from [compute_IDFA]. *)
Definition theta_default : Q := 1 # 4.

(** The first [while True] of [compute_IDFA]. *)
Fixpoint increase_loop (fuel : nat) (itds : Population) (riskest : dict UID Trajectory)
    (affected : dict UID (list UID)) (uid : UID) (beta : Q) (epsl : dict UID Q)
    : option (result (dict UID Q * dict UID Q)) :=
  match fuel with
  | O => None
  | S fuel' =>
      match (epsl <- shift_budgets affected uid beta epsl ;;
             cidp <- compute_CIDP itds riskest epsl theta_default ;;
             c <- dict_getitem cidp uid ;;
             Ok (epsl, cidp, c)) with
      | Raise e => Some (Raise e)
      | Ok (epsl, cidp, c) =>
          if Qltb 1 c then Some (Ok (epsl, cidp))
          else increase_loop fuel' itds riskest affected uid beta epsl
      end
  end.

(** The second [while True] of [compute_IDFA]. *)
Fixpoint decrease_loop (fuel : nat) (itds : Population) (riskest : dict UID Trajectory)
    (affected : dict UID (list UID)) (uid : UID) (beta : Q) (epsl : dict UID Q)
    : option (result (dict UID Q * dict UID Q)) :=
  match fuel with
  | O => None
  | S fuel' =>
      match (epsl <- shift_budgets affected uid (- beta) epsl ;;
             cidp <- compute_CIDP itds riskest epsl theta_default ;;
             c <- dict_getitem cidp uid ;;
             Ok (epsl, cidp, c)) with
      | Raise e => Some (Raise e)
      | Ok (epsl, cidp, c) =>
          if Qle_bool c 1 then Some (Ok (epsl, cidp))
          else decrease_loop fuel' itds riskest affected uid beta epsl
      end
  end.

(** Body of [for uid in itds] in [compute_IDFA]; the state is
    [(epsl, cidp)]. *)
Definition optimize_user (fuel : nat) (itds : Population) (riskest : dict UID Trajectory)
    (affected : dict UID (list UID)) (beta : Q) (uid : UID)
    (st : dict UID Q * dict UID Q) : M (dict UID Q * dict UID Q) :=
  let '(epsl, cidp) := st in
  _ <~ emit (LogOptimizing uid) ;;
  if negb (dict_contains riskest uid) then ret st
  else
    e <~ lift (dict_getitem epsl uid) ;;
    c <~ lift (dict_getitem cidp uid) ;;
    if Qltb e c && Qle_bool c 1
    then run_loop (increase_loop fuel itds riskest affected uid beta epsl)
    else
      c <~ lift (dict_getitem cidp uid) ;;
      if Qltb 1 c
      then run_loop (decrease_loop fuel itds riskest affected uid beta epsl)
      else ret st.

(** [compute_IDFA] *)
Definition compute_IDFA (fuel : nat) (itds : Population) (riskest : dict UID Trajectory)
    (epsl_init beta : Q) : M (dict UID Q) :=
  _ <~ emit (LogIDFA epsl_init beta) ;;
  let epsl := map (fun '(uid, _) => (uid, epsl_init)) itds in
  cidp <~ lift (compute_CIDP itds riskest epsl theta_default) ;;
  affected <~ lift (_affected_by riskest itds) ;;
  st <~ for_each_M (dict_keys itds) (optimize_user fuel itds riskest affected beta)
                   (epsl, cidp) ;;
  ret (fst st).

(** ** The sanitiser *)

(** [sorted(tv, key=lambda x: x[1])]: stable, ascending in the risk. *)
Fixpoint insert_by_risk {A} (x : A * Q) (l : list (A * Q)) : list (A * Q) :=
  match l with
  | [] => [x]
  | y :: l' => if Qle_bool (snd x) (snd y) then x :: l else y :: insert_by_risk x l'
  end.

Definition sorted_by_risk {A} (l : list (A * Q)) : list (A * Q) :=
  fold_right insert_by_risk [] l.

(** The loop that fills [risky]. *)
Definition find_risky (itds : Population) (p : Q) : result (dict UID (list Trajectory)) :=
  for_each itds
    (fun '(uid, itd) risky =>
       tv <- map_result (fun t => v <- _risk (ITD_count itd t) t itds ;; Ok (t, v))
                        (trajectories itd) ;;
       Ok (dict_set risky uid
             (map fst (filter (fun tv => Qle_bool p (snd tv)) (sorted_by_risk tv)))))
    [].

(** [{uid: risky[uid].pop() for uid in itds if risky[uid]}]: the new
    assignment together with the shortened queues. *)
Definition pop_riskest (itds : Population) (risky : dict UID (list Trajectory))
    : result (dict UID Trajectory * dict UID (list Trajectory)) :=
  for_each (dict_keys itds)
    (fun uid '(riskest, risky) =>
       queue <- dict_getitem risky uid ;;
       match rev queue with
       | [] => Ok (riskest, risky)
       | t :: rest => Ok (dict_set riskest uid t, dict_set risky uid (rev rest))
       end)
    ([], risky).

(** The [while True] that lowers [cnt] until the risk is below [p]. *)
Fixpoint reduce_count (fuel : nat) (cnt : Z) (t : Trajectory) (itds : Population) (p : Q)
    : option (result Z) :=
  match fuel with
  | O => None
  | S fuel' =>
      match _risk cnt t itds with
      | Raise e => Some (Raise e)
      | Ok v => if Qltb v p then Some (Ok cnt)
                else reduce_count fuel' (cnt - 1)%Z t itds p
      end
  end.

(** [range(a, b)] *)
Definition py_range (a b : Z) : list Z :=
  map (fun k => (a + Z.of_nat k)%Z) (seq 0 (Z.to_nat (b - a))).

Section Sanitize.
(** [laplace k scale]: the [k]-th sample the generator hands out when
    asked for a Laplace variate of the given scale. *)
Variable laplace : nat -> Q -> Q.

(** [np.random.laplace(0, scale, 1)]; numpy rejects a negative scale. *)
Definition draw_laplace (scale : Q) : M Q :=
  fun w => if Qltb scale 0 then Raised ValueError w
           else Done (laplace (draws w) scale) (mkWorld (log_info w) (S (draws w))).

(** The loop that extends [noise_scale] after the optimiser ran. *)
Definition update_noise_scale (fuel : nat) (itds : Population) (p : Q)
    (riskest : dict UID Trajectory) (epsl_opt : dict UID Q)
    (noise_scale : dict UID (list Q)) : M (dict UID (list Q)) :=
  for_each_M itds
    (fun '(uid, itd) noise_scale =>
       if dict_contains riskest uid
       then
         t <~ lift (dict_getitem riskest uid) ;;
         cnt <~ run_loop (reduce_count fuel (ITD_count itd t) t itds p) ;;
         let loops := (ITD_count itd t - cnt)%Z in
         e <~ lift (dict_getitem epsl_opt uid) ;;
         scale <~ lift (py_div (inject_Z loops) e) ;;
         lift (dict_append noise_scale uid scale)
       else ret noise_scale)
    noise_scale.

(** The loop that fills [noise_count]. *)
Definition add_noise (itds : Population) (noise_scale : dict UID (list Q))
    : M (dict UID (dict Trajectory Q)) :=
  for_each_M itds
    (fun '(uid, itd) noise_count =>
       for_each_M (trajectories itd)
         (fun t noise_count =>
            row <~ lift (dict_getitem noise_count uid) ;;
            let noise_count := dict_set noise_count uid
                                 (dict_set row t (inject_Z (ITD_count itd t))) in
            scales <~ lift (dict_getitem noise_scale uid) ;;
            for_each_M scales
              (fun scale noise_count =>
                 x <~ draw_laplace scale ;;
                 row <~ lift (dict_getitem noise_count uid) ;;
                 old <~ lift (dict_getitem row t) ;;
                 ret (dict_set noise_count uid (dict_set row t (old + x))))
              noise_count)
         noise_count)
    (map (fun '(uid, _) => (uid, [])) itds).

(** [sanitize].  Every path through the body of
    [for round_ in range(1, max_round)] ends in [break] or in [return],
    so only the first element of the range is ever visited; falling out
    of the function returns Python's [None], here [None]. *)
Definition sanitize (fuel : nat) (itds : Population) (p : Q) (max_round : Z)
    : M (option (dict UID (dict Trajectory Q))) :=
  let noise_scale : dict UID (list Q) := map (fun '(uid, _) => (uid, [])) itds in
  risky <~ lift (find_risky itds p) ;;
  match py_range 1 max_round with
  | [] => ret None
  | round_ :: _ =>
      _ <~ emit (LogIteration round_) ;;
      popped <~ lift (pop_riskest itds risky) ;;
      let riskest := fst popped in
      match riskest with
      | [] => ret None                                        (* break *)
      | _ :: _ =>
          epsl_opt <~ compute_IDFA fuel itds riskest (1 # 10) (1 # 20) ;;
          noise_scale <~ update_noise_scale fuel itds p riskest epsl_opt noise_scale ;;
          _ <~ emit (LogNoiseScale noise_scale) ;;
          noise_count <~ add_noise itds noise_scale ;;
          ret (Some noise_count)                              (* return *)
      end
  end.
End Sanitize.

(** Default arguments of [sanitize]. *)
Definition p_default : Q := 1 # 2.
Definition max_round_default : Z := 1000.

(* ================================================================== *)
(** * Well-formed inputs                                               *)
(* ================================================================== *)

(** What [ITDBuilder.add] guarantees of a builder: distinct keys, every
    stored count at least 1. *)
Definition builder_wf (b : ITDBuilder) : Prop :=
  dict_wf (trajs b) /\ forall t c, In (t, c) (trajs b) -> (1 <= c)%Z.

(** What the constructor guarantees of an ITD: its trajectories are
    distinct, each has a count of at least 1, every other trajectory has
    count 0. *)
Definition ITD_wf (itd : ITD) : Prop :=
  NoDup (_ts itd)
  /\ (forall t, In t (_ts itd) -> (1 <= ITD_count itd t)%Z)
  /\ (forall t, ~ In t (_ts itd) -> ITD_count itd t = 0%Z).

Definition population_wf (itds : Population) : Prop :=
  dict_wf itds /\ forall uid itd, In (uid, itd) itds -> ITD_wf itd.

(** A riskiest-trajectory assignment of a population: a dictionary whose
    keys are users of the population. *)
Definition riskest_wf (itds : Population) (riskest : dict UID Trajectory) : Prop :=
  dict_wf riskest /\ forall uid, In uid (dict_keys riskest) -> In uid (dict_keys itds).


(** [strong[u]] and [weak[u]] as the solver and the closure read them. *)
Definition strong_of (riskest : dict UID Trajectory) (u : UID) : list UID :=
  dd_get (_find_strong_relations riskest) u.

Definition weak_of (riskest : dict UID Trajectory) (itds : Population) (u : UID) : list UID :=
  dd_get (_find_weak_relations riskest itds (_find_strong_relations riskest)) u.

(** The users whose riskiest trajectory is [t]. *)
Definition sharers (riskest : dict UID Trajectory) (t : Trajectory) : list UID :=
  dict_keys (filter (fun '(_, t') => keyb t' t) riskest).

(* ================================================================== *)
(** * The matrices of the solver as functions                          *)
(* ================================================================== *)

(** The proofs about [compute_CIDP] read the two matrices as functions of
    a row and a column and replay the loops on them. *)

(** The UID at an index and the index of a UID, as total functions. *)
Definition uid_at (itds : Population) (i : nat) : UID :=
  nth i (sorted (dict_keys itds)) 0%Z.

Definition idx_of (itds : Population) (u : UID) : nat :=
  match dict_get (uid2idx itds) u with Some j => j | None => O end.

(** The budget at an index. *)
Definition eps_at (itds : Population) (epsl : dict UID Q) (i : nat) : Q :=
  match dict_get epsl (uid_at itds i) with Some e => e | None => 0 end.

Definition fmat := nat -> nat -> Q.

(** [m[i][j] = v] *)
Definition upd (f : fmat) (i j : nat) (v : Q) : fmat :=
  fun a b => if (a =? i)%nat && (b =? j)%nat then v else f a b.

(** A matrix stores a function on the square of side [n]. *)
Definition mat_repr (n : nat) (m : matrix) (f : fmat) : Prop :=
  forall a b, (a < n)%nat -> (b < n)%nat -> mat_get m a b = Ok (f a b).

(** One pass of an inner loop of the solver: [(true, i, j)] for a strong
    relation of [i], [(false, i, j)] for a weak one. *)
Definition edge := (bool * nat * nat)%type.

Definition L_step (Lf : fmat) (op : edge) : fmat :=
  let '(strong, i, j) := op in
  let w := if strong then 1 # 2 else 1 in
  let L1 := upd Lf i i (Lf i i + w) in
  let L2 := upd L1 j j (L1 j j + w) in
  upd (upd L2 i j (- (1))) j i (- (1)).

Definition R_step (e : nat -> Q) (theta : Q) (Rf : fmat) (op : edge) : fmat :=
  let '(strong, i, j) := op in
  if strong then upd (upd Rf i j (- e i)) j i (- e j)
  else upd (upd Rf i j (- e i * theta)) j i 0.

(** The factor that [mat_R[a][b]] puts on [- epsl[a]]. *)
Definition K_step (theta : Q) (Kf : fmat) (op : edge) : fmat :=
  let '(strong, i, j) := op in
  if strong then upd (upd Kf i j 1) j i 1
  else upd (upd Kf i j theta) j i 0.

(** The passes that the solver makes for index [i], and for all indices,
    in the order in which it makes them. *)
Definition edges_of (itds : Population) (riskest : dict UID Trajectory) (i : nat)
    : list edge :=
  map (fun u => (true, i, idx_of itds u)) (strong_of riskest (uid_at itds i))
  ++ map (fun u => (false, i, idx_of itds u)) (weak_of riskest itds (uid_at itds i)).

Definition all_edges (itds : Population) (riskest : dict UID Trajectory) : list edge :=
  flat_map (edges_of itds riskest) (seq 0 (length itds)).

(** [mat_L] and [mat_R] after the loop over the relations. *)
Definition L_final (itds : Population) (riskest : dict UID Trajectory) : fmat :=
  fold_left L_step (all_edges itds riskest) (fun _ _ => 0).

Definition R_edges (itds : Population) (riskest : dict UID Trajectory)
    (epsl : dict UID Q) (theta : Q) : fmat :=
  fold_left (R_step (eps_at itds epsl) theta) (all_edges itds riskest)
            (fun a _ => - eps_at itds epsl a).

Definition K_final (itds : Population) (riskest : dict UID Trajectory) (theta : Q) : fmat :=
  fold_left (K_step theta) (all_edges itds riskest) (fun _ _ => 1).

(** [mat_R] after the loop over the diagonal. *)
Definition R_final (itds : Population) (riskest : dict UID Trajectory)
    (epsl : dict UID Q) (theta : Q) : fmat :=
  fun a b =>
    if (a =? b)%nat && truthy (L_final itds riskest a a)
    then eps_at itds epsl a / L_final itds riskest a a
    else R_edges itds riskest epsl theta a b.

(** The disclosure value of the user at index [i]. *)
Definition cidp_at (itds : Population) (riskest : dict UID Trajectory)
    (epsl : dict UID Q) (theta : Q) (i : nat) : Q :=
  py_sum (map (fun j => L_final itds riskest i j * R_final itds riskest epsl theta j i)
              (seq 0 (length itds))).

(** A budget vector of a population has a budget for every user. *)
Definition epsl_covers (itds : Population) (epsl : dict UID Q) : Prop :=
  forall u, In u (dict_keys itds) -> exists e, dict_get epsl u = Some e.

(** Whether some pass touches index [a], and whether some pass joins the
    indices [a] and [b]. *)
Definition touchesb (a : nat) (op : edge) : bool :=
  let '(_, i, j) := op in (a =? i)%nat || (a =? j)%nat.

Definition joinsb (a b : nat) (op : edge) : bool :=
  let '(_, i, j) := op in
  (a =? i)%nat && (b =? j)%nat || (a =? j)%nat && (b =? i)%nat.

(** The weight that [CIDP[i]] puts on the budget of the user at index
    [j]. *)
Definition coef (itds : Population) (riskest : dict UID Trajectory) (theta : Q)
    (i j : nat) : Q :=
  if (i =? j)%nat
  then (if truthy (L_final itds riskest i i) then 1 else 0)
  else - L_final itds riskest i j * K_final itds riskest theta j i.

(** A user without relations: no strong and no weak relation of its own,
    and no user of the population has it as a strong or weak relation. *)
Definition unrelated (itds : Population) (riskest : dict UID Trajectory) (u : UID) : Prop :=
  strong_of riskest u = [] /\ weak_of riskest itds u = []
  /\ forall v, In v (dict_keys itds) ->
                ~ In u (strong_of riskest v) /\ ~ In u (weak_of riskest itds v).

(** Natural numbers as rationals, to count steps of size [beta]. *)
Definition Qn (m : nat) : Q := inject_Z (Z.of_nat m).


(* ================================================================== *)
(** * Concrete populations                                             *)
(* ================================================================== *)

Definition t123 : Trajectory := mkTrajectory [1; 2; 3]%Z.
Definition t456 : Trajectory := mkTrajectory [4; 5; 6]%Z.
Definition t789 : Trajectory := mkTrajectory [7; 8; 9]%Z.

(** [k] records of the same trajectory. *)
Fixpoint add_times (b : ITDBuilder) (t : Trajectory) (k : nat) : ITDBuilder :=
  match k with
  | O => b
  | S k' => add_times (ITDBuilder_add b t) t k'
  end.

(** The scenario of the specification: A has (1,2,3) five times and
    (4,5,6) once, B has (1,2,3) five times. *)
Definition builder_A : ITDBuilder :=
  ITDBuilder_add (add_times (ITDBuilder_init 1) t123 5) t456.
Definition builder_B : ITDBuilder := add_times (ITDBuilder_init 2) t123 5.
Definition scenario : Population := [(1%Z, ITD_init builder_A); (2%Z, ITD_init builder_B)].

(** The scenario with a third user C who has (7,8,9) once; A and B have
    (1,2,3) as riskiest trajectory and C has (7,8,9). *)
Definition builder_C : ITDBuilder := ITDBuilder_add (ITDBuilder_init 3) t789.
Definition scenario3 : Population := scenario ++ [(3%Z, ITD_init builder_C)].
Definition riskest3 : dict UID Trajectory := [(1%Z, t123); (2%Z, t123); (3%Z, t789)].
Definition epsl3 : dict UID Q := [(1%Z, 1 # 10); (2%Z, 1 # 10); (3%Z, 1 # 10)].

(** One user with two trajectories that nobody else has. *)
Definition builder_D : ITDBuilder :=
  ITDBuilder_add (ITDBuilder_add (ITDBuilder_init 1) t123) t456.
Definition loner : Population := [(1%Z, ITD_init builder_D)].

Definition is_iteration (e : event) : bool :=
  match e with LogIteration _ => true | _ => false end.

(* ================================================================== *)
(** * The disclosure value in closed form                              *)
(* ================================================================== *)

(** Whether [u] has a relation with a user of the population, in either
    direction. *)
Definition has_relation (itds : Population) (riskest : dict UID Trajectory) (u : UID) : bool :=
  existsb (fun v => mem v (strong_of riskest u) || mem v (weak_of riskest itds u)
                    || mem u (strong_of riskest v) || mem u (weak_of riskest itds v))
          (dict_keys itds).

(** The weight of the budget of the user at index [j] in the disclosure
    value of the user at index [i]: 1 on the diagonal if the user has a
    relation; 1 for a strong relation; theta if [i] is a weak relation of
    [j], unless [j] is also a weak relation of [i] and comes before [i] in
    UID order; 0 otherwise. *)
Definition weight (itds : Population) (riskest : dict UID Trajectory) (theta : Q)
    (i j : nat) : Q :=
  let u := uid_at itds i in
  let v := uid_at itds j in
  if (i =? j)%nat then (if has_relation itds riskest u then 1 else 0)
  else if mem v (strong_of riskest u) then 1
  else if mem u (weak_of riskest itds v)
          && (negb (mem v (weak_of riskest itds u)) || (i <? j)%nat)
       then theta
  else 0.

(** What a pass writes into the cell [(x, y)] of the factor matrix. *)
Definition writes (theta : Q) (x y : nat) (op : edge) : option Q :=
  let '(strong, i, j) := op in
  if (x =? j)%nat && (y =? i)%nat then Some (if strong then 1 else 0)
  else if (x =? i)%nat && (y =? j)%nat then Some (if strong then 1 else theta)
  else None.

(** The last pass that writes a cell decides its value. *)
Definition cell_step (theta : Q) (x y : nat) (v : Q) (op : edge) : Q :=
  match writes theta x y op with Some v' => v' | None => v end.

Definition is_writer (theta : Q) (x y : nat) (op : edge) : bool :=
  match writes theta x y op with Some _ => true | None => false end.

(** Two dictionaries with the same items, in any order. *)
Definition same_items {K V} (d d' : dict K V) : Prop := Permutation d d'.

(* ================================================================== *)
(** * Further definitions: building the population                     *)
(* ================================================================== *)

(** A builder after the records [ts] were added to it, in order. *)
Definition builder_of (uid : UID) (ts : list Trajectory) : ITDBuilder :=
  fold_left ITDBuilder_add ts (ITDBuilder_init uid).

(** A [Counter] read: a missing key counts 0. *)
Definition counter_get (d : dict Trajectory Z) (t : Trajectory) : Z :=
  match dict_get d t with Some c => c | None => 0%Z end.

(** The loop of [load_ITDs] over the rows of the table, each row reduced
    to its user and its list of area codes; reading and parsing the file
    are not part of the model. *)
Definition add_row (itd_bdlrs : dict UID ITDBuilder) (row : UID * list Z)
    : dict UID ITDBuilder :=
  let '(uid, areas) := row in
  let traj := mkTrajectory areas in
  let itd_bdlrs :=
    if negb (dict_contains itd_bdlrs uid)
    then dict_set itd_bdlrs uid (ITDBuilder_init uid)
    else itd_bdlrs in
  match dict_get itd_bdlrs uid with
  | Some bdlr => dict_set itd_bdlrs uid (ITDBuilder_add bdlr traj)
  | None => itd_bdlrs
  end.

(** [{bdlr.uid: ITD(bdlr, traj_freq) for bdlr in itd_bdlrs.values()}] *)
Definition build_ITDs (itd_bdlrs : dict UID ITDBuilder) : Population :=
  fold_left (fun ITDs '(_, bdlr) => dict_set ITDs (builder_uid bdlr) (ITD_init bdlr))
            itd_bdlrs [].

Definition load_rows (rows : list (UID * list Z)) : Population :=
  build_ITDs (fold_left add_row rows []).

(** The records of a user among the rows. *)
Definition records_of (rows : list (UID * list Z)) (uid : UID) : list Trajectory :=
  map (fun row => mkTrajectory (snd row)) (filter (fun row => keyb (fst row) uid) rows).

(** The risk of a trajectory for the user of [itd]: the share of the
    user in the population's count of it. *)
Definition risk_of (itds : Population) (itd : ITD) (t : Trajectory) : Q :=
  inject_Z (ITD_count itd t) / inject_Z (total_count t itds).

(** Whether every user that occurs in a strong relation is a user of the
    population. *)
Definition strong_partners_inside (riskest : dict UID Trajectory) (itds : Population) : bool :=
  forallb (fun '(_, l) => forallb (fun v => mem v (dict_keys itds)) l)
          (_find_strong_relations riskest).

(** The two matrices of the solver are [n] by [n]. *)
Definition represented (n : nat) (LR : matrix * matrix) : Prop :=
  exists Lf Rf, mat_repr n (fst LR) Lf /\ mat_repr n (snd LR) Rf.

(** One pass of the body of a search loop of [compute_IDFA]: the shift of
    the budgets, the solver, and the read of the user's value. *)
Definition search_step (itds : Population) (riskest : dict UID Trajectory)
    (affected : dict UID (list UID)) (uid : UID) (delta : Q) (epsl : dict UID Q)
    : result (dict UID Q * dict UID Q * Q) :=
  epsl <- shift_budgets affected uid delta epsl ;;
  cidp <- compute_CIDP itds riskest epsl theta_default ;;
  c <- dict_getitem cidp uid ;;
  Ok (epsl, cidp, c).

(** What the optimiser keeps true of the budgets of the users that no
    relation touches. *)
Definition untouched_keep (itds : Population) (riskest : dict UID Trajectory)
    (epsl_init : Q) (epsl : dict UID Q) : Prop :=
  dict_keys epsl = dict_keys itds
  /\ forall i, (i < length itds)%nat ->
               existsb (touchesb i) (all_edges itds riskest) = false ->
               dict_get epsl (uid_at itds i) = Some epsl_init.

(** The queue of risky trajectories that [sanitize] makes for a user:
    the trajectories of risk at least [p], ascending in the risk. *)
Definition queue_of (itds : Population) (p : Q) (itd : ITD) : list Trajectory :=
  map fst (filter (fun tv => Qle_bool p (snd tv))
                  (sorted_by_risk (map (fun t => (t, risk_of itds itd t))
                                       (trajectories itd)))).

(** What [pop()] returns from a list, if anything. *)
Definition last_opt {A} (q : list A) : option A :=
  match rev q with
  | [] => None
  | t :: _ => Some t
  end.

(** How the counts of a user are released, by the scales that
    [noise_scale] holds for the user: exactly when there is none, with
    one sample of the scale added when there is one. *)
Definition row_released (laplace : nat -> Q -> Q) (scales : option (list Q)) (itd : ITD)
    (row : dict Trajectory Q) (ts : list Trajectory) : Prop :=
  match scales with
  | Some [] =>
      forall t, In t ts -> dict_get row t = Some (inject_Z (ITD_count itd t))
  | Some [s] =>
      forall t, In t ts ->
        0 <= s /\ exists k, dict_get row t = Some (inject_Z (ITD_count itd t) + laplace k s)
  | _ => True
  end.

(* ================================================================== *)
(** * main.py                                                          *)
(* ================================================================== *)

(** What [main] prints: the line of a user, and the line of a trajectory
    with its true count [tc] and its noisy count [nc]. *)
Inductive printed : Type :=
| PrintUser (uid : UID)
| PrintCounts (t : Trajectory) (tc : Z) (nc : Q).

(** Subscripting [None] raises [TypeError]; the other exceptions are
    those of the library. *)
Inductive main_exn : Type :=
| TypeError
| Other (e : exn).

(** [noise[uid][t]] where [noise] is what [sanitize] returned. *)
Definition noise_getitem (noise : option (dict UID (dict Trajectory Q)))
    (uid : UID) (t : Trajectory) : main_exn + Q :=
  match noise with
  | None => inl TypeError
  | Some table =>
      match dict_get table uid with
      | None => inl (Other KeyError)
      | Some row =>
          match dict_get row t with
          | None => inl (Other KeyError)
          | Some nc => inr nc
          end
      end
  end.

(** [for t in itd.trajectories]: the lines printed so far and the
    exception that ended the loop, if any. *)
Fixpoint print_counts (noise : option (dict UID (dict Trajectory Q)))
    (uid : UID) (itd : ITD) (ts : list Trajectory) (out : list printed)
    : list printed * option main_exn :=
  match ts with
  | [] => (out, None)
  | t :: ts' =>
      let tc := ITD_count itd t in
      match noise_getitem noise uid t with
      | inl e => (out, Some e)
      | inr nc => print_counts noise uid itd ts' (out ++ [PrintCounts t tc nc])
      end
  end.

(** [for uid, itd in itds.items()] *)
Fixpoint print_users (noise : option (dict UID (dict Trajectory Q)))
    (users : Population) (out : list printed) : list printed * option main_exn :=
  match users with
  | [] => (out, None)
  | (uid, itd) :: users' =>
      match print_counts noise uid itd (trajectories itd) (out ++ [PrintUser uid]) with
      | (out', None) => print_users noise users' out'
      | (out', Some e) => (out', Some e)
      end
  end.

Inductive main_outcome : Type :=
| MainDone (out : list printed) (w : world)
| MainRaised (e : main_exn) (out : list printed) (w : world)
| MainOutOfFuel.

(** [main], from the population that [load_ITDs] returned. *)
Definition main (laplace : nat -> Q -> Q) (fuel : nat) (itds : Population) (w : world)
    : main_outcome :=
  match sanitize laplace fuel itds p_default max_round_default w with
  | Done noise w' =>
      match print_users noise itds [] with
      | (out, None) => MainDone out w'
      | (out, Some e) => MainRaised e out w'
      end
  | Raised e w' => MainRaised (Other e) [] w'
  | OutOfFuel => MainOutOfFuel
  end.

(** The entry of a table, read as a number. *)
Definition noise_at (table : dict UID (dict Trajectory Q)) (uid : UID) (t : Trajectory) : Q :=
  match dict_get table uid with
  | Some row => match dict_get row t with Some nc => nc | None => 0 end
  | None => 0
  end.

(** The lines of a user in the output of [main]. *)
Definition lines_of (table : dict UID (dict Trajectory Q)) (uid : UID) (itd : ITD)
    : list printed :=
  PrintUser uid
  :: map (fun t => PrintCounts t (ITD_count itd t) (noise_at table uid t)) (trajectories itd).

(** Three users who have the same single trajectory once each. *)
Definition trio : Population :=
  [(1%Z, ITD_init (ITDBuilder_add (ITDBuilder_init 1) t123));
   (2%Z, ITD_init (ITDBuilder_add (ITDBuilder_init 2) t123));
   (3%Z, ITD_init (ITDBuilder_add (ITDBuilder_init 3) t123))].

(* ================================================================== *)
(** * log.py                                                           *)
(* ================================================================== *)

From Stdlib Require Ascii.

(** Strings are lists of characters. *)
Abbreviation pystr := (list Ascii.ascii) (only parsing).

Definition newline : Ascii.ascii := Ascii.ascii_of_nat 10.
Definition space : Ascii.ascii := Ascii.ascii_of_nat 32.
Definition colon : Ascii.ascii := Ascii.ascii_of_nat 58.
Definition lbracket : Ascii.ascii := Ascii.ascii_of_nat 91.
Definition rbracket : Ascii.ascii := Ascii.ascii_of_nat 93.

(** [s.split('\n')] *)
Fixpoint split_lines (s : pystr) : list pystr :=
  match s with
  | [] => [[]]
  | c :: s' =>
      if Ascii.eqb c newline then [] :: split_lines s'
      else match split_lines s' with
           | l :: ls => (c :: l) :: ls
           | [] => [[c]]
           end
  end.

(** [sep.join(parts)] *)
Fixpoint join (sep : pystr) (parts : list pystr) : pystr :=
  match parts with
  | [] => []
  | [p] => p
  | p :: ps => p ++ sep ++ join sep ps
  end.

(** The message of [LogFormatter.format]:
    [('\n' + ' ' * indent).join(record.getMessage().split('\n'))] with
    [indent = len(record.module) + 8]. *)
Definition indent_message (module_name message : pystr) : pystr :=
  let indent := (length module_name + 8)%nat in
  join (newline :: repeat space indent) (split_lines message).

(** [str(n)] for a line number. *)
Fixpoint uint_chars (d : Decimal.uint) : pystr :=
  match d with
  | Decimal.Nil => []
  | Decimal.D0 d => Ascii.ascii_of_nat 48 :: uint_chars d
  | Decimal.D1 d => Ascii.ascii_of_nat 49 :: uint_chars d
  | Decimal.D2 d => Ascii.ascii_of_nat 50 :: uint_chars d
  | Decimal.D3 d => Ascii.ascii_of_nat 51 :: uint_chars d
  | Decimal.D4 d => Ascii.ascii_of_nat 52 :: uint_chars d
  | Decimal.D5 d => Ascii.ascii_of_nat 53 :: uint_chars d
  | Decimal.D6 d => Ascii.ascii_of_nat 54 :: uint_chars d
  | Decimal.D7 d => Ascii.ascii_of_nat 55 :: uint_chars d
  | Decimal.D8 d => Ascii.ascii_of_nat 56 :: uint_chars d
  | Decimal.D9 d => Ascii.ascii_of_nat 57 :: uint_chars d
  end.

Definition str_nat (n : N) : pystr := uint_chars (N.to_uint n).

(** ["%4d"]: right-justified in a field of at least four characters. *)
Definition pad4 (s : pystr) : pystr := repeat space (4 - length s) ++ s.

(** [LogFormatter.format]: the indented message put into
    ['%(color)s[%(module)s:%(lineno)4d]%(end_color)s %(message)s']; the
    two colour strings are what the formatter found for the level of the
    record, empty without colour. *)
Definition format_record (color end_color module_name : pystr) (lineno : N)
    (message : pystr) : pystr :=
  color ++ [lbracket] ++ module_name ++ [colon] ++ pad4 (str_nat lineno) ++ [rbracket]
  ++ end_color ++ [space] ++ indent_message module_name message.

(* ================================================================== *)
(** * Theorems                                                         *)
(* ================================================================== *)

(* ================================================================== *)
(** * Properties of the runtime                                        *)
(* ================================================================== *)

Section DictFacts.
Context {K V : Type} `{Key K}.

Lemma keyb_true (x y : K) : keyb x y = true <-> x = y.
Proof. unfold keyb. destruct (key_eq_dec x y); split; congruence. Qed.

Lemma keyb_false (x y : K) : keyb x y = false <-> x <> y.
Proof. unfold keyb. destruct (key_eq_dec x y); split; congruence. Qed.

Lemma keyb_refl (x : K) : keyb x x = true.
Proof. now apply keyb_true. Qed.

Lemma mem_In (x : K) (l : list K) : mem x l = true <-> In x l.
Proof.
  unfold mem. rewrite existsb_exists. split.
  - intros [y [Hy E]]. apply keyb_true in E. now subst.
  - intros Hx. exists x. split; [assumption | apply keyb_refl].
Qed.

Lemma mem_false (x : K) (l : list K) : mem x l = false <-> ~ In x l.
Proof.
  rewrite <- mem_In. destruct (mem x l); split; congruence.
Qed.

Lemma mem_app (x : K) (l1 l2 : list K) : mem x (l1 ++ l2) = mem x l1 || mem x l2.
Proof. unfold mem. apply existsb_app. Qed.

Lemma dict_get_set_eq (d : dict K V) k v : dict_get (dict_set d k v) k = Some v.
Proof.
  induction d as [| [k' v'] d IH]; simpl.
  - destruct (key_eq_dec k k); congruence.
  - destruct (key_eq_dec k k') as [E | N]; simpl.
    + destruct (key_eq_dec k k'); congruence.
    + destruct (key_eq_dec k k'); congruence.
Qed.

Lemma dict_get_set_neq (d : dict K V) k k' v :
  k <> k' -> dict_get (dict_set d k v) k' = dict_get d k'.
Proof.
  intros N. induction d as [| [k0 v0] d IH]; simpl.
  - destruct (key_eq_dec k' k); congruence.
  - destruct (key_eq_dec k k0) as [E | N0]; simpl.
    + subst. destruct (key_eq_dec k' k0); congruence.
    + destruct (key_eq_dec k' k0); congruence.
Qed.

Lemma dict_get_set (d : dict K V) k k' v :
  dict_get (dict_set d k v) k' = if key_eq_dec k k' then Some v else dict_get d k'.
Proof.
  destruct (key_eq_dec k k') as [E | N].
  - subst. apply dict_get_set_eq.
  - now apply dict_get_set_neq.
Qed.

Lemma dict_get_Some_In (d : dict K V) k v : dict_get d k = Some v -> In (k, v) d.
Proof.
  induction d as [| [k' v'] d IH]; simpl; [discriminate |].
  destruct (key_eq_dec k k') as [E | N].
  - intros [= ->]. left. now subst.
  - intros Hg. right. now apply IH.
Qed.

Lemma dict_get_None (d : dict K V) k : dict_get d k = None <-> ~ In k (dict_keys d).
Proof.
  induction d as [| [k' v'] d IH]; simpl; [tauto |].
  destruct (key_eq_dec k k') as [E | N].
  - split; [discriminate | intros Hn; exfalso; apply Hn; left; now subst].
  - rewrite IH. split; [intros Hn [E | Hi]; [congruence | tauto] | tauto].
Qed.

Lemma dict_get_In_keys (d : dict K V) k v : dict_get d k = Some v -> In k (dict_keys d).
Proof.
  intros Hg. apply dict_get_Some_In in Hg. unfold dict_keys.
  change k with (fst (k, v)). now apply in_map.
Qed.

Lemma dict_In_get (d : dict K V) k v : dict_wf d -> In (k, v) d -> dict_get d k = Some v.
Proof.
  unfold dict_wf. induction d as [| [k' v'] d IH]; simpl; [tauto |].
  intros Hnd [E | Hi].
  - inversion E; subst. destruct (key_eq_dec k k); congruence.
  - inversion Hnd as [| ? ? Hni Hnd']; subst.
    destruct (key_eq_dec k k') as [E | N].
    + subst. exfalso. apply Hni. change k' with (fst (k', v)). now apply in_map.
    + now apply IH.
Qed.

Lemma dict_keys_In (d : dict K V) k : In k (dict_keys d) -> exists v, dict_get d k = Some v.
Proof.
  intros Hi. destruct (dict_get d k) as [v |] eqn:E; [now exists v |].
  apply dict_get_None in E. contradiction.
Qed.

Lemma dict_contains_true (d : dict K V) k : dict_contains d k = true <-> In k (dict_keys d).
Proof.
  unfold dict_contains. split.
  - destruct (dict_get d k) eqn:E; [intros _; eapply dict_get_In_keys; eauto | discriminate].
  - intros Hi. apply dict_keys_In in Hi as [v ->]. reflexivity.
Qed.

Lemma dict_contains_set (d : dict K V) k k' v :
  dict_contains (dict_set d k v) k' = keyb k k' || dict_contains d k'.
Proof.
  unfold dict_contains, keyb. rewrite dict_get_set.
  destruct (key_eq_dec k k'); reflexivity.
Qed.

Lemma dict_keys_set (d : dict K V) k v :
  dict_keys (dict_set d k v) = if dict_contains d k then dict_keys d else dict_keys d ++ [k].
Proof.
  unfold dict_contains. induction d as [| [k' v'] d IH]; simpl; [reflexivity |].
  destruct (key_eq_dec k k') as [E | N]; simpl; [reflexivity |].
  rewrite IH. destruct (dict_get d k); reflexivity.
Qed.

Lemma dict_set_wf (d : dict K V) k v : dict_wf d -> dict_wf (dict_set d k v).
Proof.
  unfold dict_wf. intros Hnd. rewrite dict_keys_set.
  destruct (dict_contains d k) eqn:E; [assumption |].
  apply NoDup_app; [assumption | repeat constructor; simpl; tauto |].
  intros x Hx [<- | []].
  apply dict_contains_true in Hx. congruence.
Qed.

Lemma In_dict_keys (d : dict K V) k v : In (k, v) d -> In k (dict_keys d).
Proof. intros Hi. unfold dict_keys. change k with (fst (k, v)). now apply in_map. Qed.
End DictFacts.

Lemma dd_get_set {K V} `{Key K} (d : dict K (list V)) k k' l :
  dd_get (dict_set d k l) k' = if key_eq_dec k k' then l else dd_get d k'.
Proof. unfold dd_get. rewrite dict_get_set. destruct (key_eq_dec k k'); reflexivity. Qed.

Lemma set_remove_In {K} `{Key K} (s : list K) x y : In y (set_remove s x) <-> In y s /\ y <> x.
Proof.
  unfold set_remove. rewrite filter_In, negb_true_iff, keyb_false. tauto.
Qed.

Lemma set_add_In {K} `{Key K} (s : list K) x y : In y (set_add s x) <-> In y s \/ y = x.
Proof.
  unfold set_add. destruct (mem x s) eqn:E.
  - apply mem_In in E. split; [tauto | intros [Hy | ->]; assumption].
  - rewrite in_app_iff. simpl. intuition congruence.
Qed.

Lemma set_add_NoDup {K} `{Key K} (s : list K) x : NoDup s -> NoDup (set_add s x).
Proof.
  unfold set_add. intros Hnd. destruct (mem x s) eqn:E; [assumption |].
  apply mem_false in E. apply NoDup_app; [assumption | repeat constructor; simpl; tauto |].
  intros y Hy [<- | []]. contradiction.
Qed.

(** Inversion of a successful bind. *)
Lemma bind_Ok {A B} (m : result A) (k : A -> result B) b :
  bind m k = Ok b <-> exists a, m = Ok a /\ k a = Ok b.
Proof.
  destruct m as [a | e]; simpl.
  - split; [intros Hk; now exists a | intros [a' [[= <-] Hk]]; assumption].
  - split; [discriminate | intros [a [Hd _]]; discriminate].
Qed.

(** The loop rule: an invariant indexed by the part of the list already
    visited. *)
Lemma for_each_inv {A S} (I : list A -> S -> Prop) (body : A -> S -> result S) :
  forall xs pre s,
    I pre s ->
    (forall done x s, (exists rest, pre ++ xs = done ++ x :: rest) (* x is visited after done *) ->
                      I done s -> exists s', body x s = Ok s' /\ I (done ++ [x]) s') ->
    exists s', for_each xs body s = Ok s' /\ I (pre ++ xs) s'.
Proof.
  induction xs as [| x xs IH]; intros pre s HI Hstep; simpl.
  - exists s. rewrite app_nil_r. auto.
  - destruct (Hstep pre x s) as [s1 [E1 HI1]]; [now exists xs | assumption |].
    rewrite E1. simpl.
    destruct (IH (pre ++ [x]) s1) as [s2 [E2 HI2]]; [assumption | |].
    + intros done y s0 [rest Hr] HI0. apply Hstep; [| assumption].
      exists rest. rewrite <- Hr, <- app_assoc. reflexivity.
    + exists s2. rewrite <- app_assoc in HI2. auto.
Qed.

(** The same rule for a pure left fold. *)
Lemma fold_left_inv {A S} (I : list A -> S -> Prop) (f : S -> A -> S) :
  forall xs pre s,
    I pre s ->
    (forall done x s, (exists rest, pre ++ xs = done ++ x :: rest) ->
                      I done s -> I (done ++ [x]) (f s x)) ->
    I (pre ++ xs) (fold_left f xs s).
Proof.
  induction xs as [| x xs IH]; intros pre s HI Hstep; simpl.
  - now rewrite app_nil_r.
  - replace (pre ++ x :: xs) with ((pre ++ [x]) ++ xs) by now rewrite <- app_assoc.
    apply IH.
    + apply Hstep; [now exists xs | assumption].
    + intros done y s0 [rest Hr] HI0. apply Hstep; [| assumption].
      exists rest. rewrite <- Hr, <- app_assoc. reflexivity.
Qed.

Lemma map_result_Ok {A B} (f : A -> result B) (g : A -> B) (xs : list A) :
  (forall x, In x xs -> f x = Ok (g x)) -> map_result f xs = Ok (map g xs).
Proof.
  induction xs as [| x xs IH]; intros Hf; simpl; [reflexivity |].
  rewrite (Hf x) by now left. simpl. rewrite IH; [reflexivity |].
  intros y Hy. apply Hf. now right.
Qed.

(* ================================================================== *)
(** * data.py: the tables of an ITD                                    *)
(* ================================================================== *)

(** The three tables of an ITD are filled together. *)
Lemma ITD_fill_tables (items : list (Trajectory * Z)) :
  forall idx self,
    (forall t, dict_contains (_t2idx self) t = mem t (_ts self)) ->
    (forall t, dict_contains (_t2cnt self) t = mem t (_ts self)) ->
    let itd := ITD_fill items idx self in
    (forall t, dict_contains (_t2idx itd) t = mem t (_ts itd)) /\
    (forall t, dict_contains (_t2cnt itd) t = mem t (_ts itd)).
Proof.
  induction items as [| [traj cnt] rest IH]; intros idx self H1 H2; simpl.
  - auto.
  - apply IH; simpl; intros t; rewrite dict_contains_set, mem_app; simpl;
      rewrite orb_false_r, ?H1, ?H2, orb_comm; f_equal;
      unfold keyb; destruct (key_eq_dec traj t), (key_eq_dec t traj); congruence.
Qed.

Lemma ITD_init_tables (builder : ITDBuilder) (t : Trajectory) :
  dict_contains (_t2idx (ITD_init builder)) t = ITD_contains (ITD_init builder) t /\
  dict_contains (_t2cnt (ITD_init builder)) t = ITD_contains (ITD_init builder) t.
Proof.
  unfold ITD_init, ITD_contains.
  destruct (ITD_fill_tables (trajs builder) 0%Z (mkITD (builder_uid builder) [] [] []))
    as [H1 H2]; simpl; auto.
Qed.

(** The guarded read of [ITD.count] never raises. *)
Lemma ITD_count_py_total (itd : ITD) (t : Trajectory) :
  ITD_count_py itd t = Ok (ITD_count itd t).
Proof.
  unfold ITD_count_py, ITD_count, dict_contains, dict_getitem.
  now destruct (dict_get (_t2cnt itd) t).
Qed.

(** C9. For an ITD made by the constructor and any trajectory [t]: when
    [t] is not in the ITD, [ITD.id] raises and [ITD.count] returns 0
    without raising; when [t] is in the ITD, [ITD.id] returns the local id
    stored for [t] and [ITD.count] returns a number. *)
Theorem ITD_id_raises_count_defaults (builder : ITDBuilder) (t : Trajectory) :
  let itd := ITD_init builder in
  if ITD_contains itd t
  then (exists i, dict_get (_t2idx itd) t = Some i /\ ITD_id itd t = Ok i)
       /\ (exists c, ITD_count_py itd t = Ok c)
  else ITD_id itd t = Raise Exception_ /\ ITD_count_py itd t = Ok 0%Z.
Proof.
  intros itd. subst itd.
  destruct (ITD_init_tables builder t) as [H1 H2].
  rewrite ITD_count_py_total.
  unfold ITD_id, ITD_count, dict_getitem.
  rewrite H1. revert H1 H2. unfold dict_contains.
  destruct (ITD_contains (ITD_init builder) t);
    destruct (dict_get (_t2idx (ITD_init builder)) t);
    destruct (dict_get (_t2cnt (ITD_init builder)) t); simpl; try discriminate;
    intros _ _; repeat split; eauto.
Qed.

(** ** Built ITDs are well formed *)

Lemma dict_set_fresh {K V} `{Key K} (d : dict K V) k v :
  ~ In k (dict_keys d) -> dict_set d k v = d ++ [(k, v)].
Proof.
  induction d as [| [k' v'] d IH]; simpl; intros Hn; [reflexivity |].
  destruct (key_eq_dec k k') as [E | N]; [exfalso; apply Hn; left; now subst |].
  rewrite IH; [reflexivity | tauto].
Qed.

Lemma ITDBuilder_init_wf (uid : UID) : builder_wf (ITDBuilder_init uid).
Proof. split; simpl; [constructor | tauto]. Qed.

Lemma dict_set_In {K V} `{Key K} (d : dict K V) k v k' v' :
  In (k', v') (dict_set d k v) -> (k' = k /\ v' = v) \/ In (k', v') d.
Proof.
  induction d as [| [k0 v0] d IH]; simpl.
  - intros [[= <- <-] | []]. now left.
  - destruct (key_eq_dec k k0) as [E | N]; simpl.
    + intros [[= <- <-] | Hi]; [left; split; congruence | right; now right].
    + intros [E | Hi]; [right; now left |].
      destruct (IH Hi); [now left | right; now right].
Qed.

Lemma ITDBuilder_add_wf (b : ITDBuilder) (t : Trajectory) :
  builder_wf b -> builder_wf (ITDBuilder_add b t).
Proof.
  intros [Hnd Hc]. split; simpl.
  - now apply dict_set_wf.
  - intros t' c Hi. apply dict_set_In in Hi as [[E1 E2] | Hi]; [subst | eauto].
    destruct (dict_get (trajs b) t) as [c0 |] eqn:E; [| lia].
    apply dict_get_Some_In, Hc in E. lia.
Qed.

Lemma ITD_fill_shape (items : list (Trajectory * Z)) :
  forall idx self,
    _ts self = dict_keys (_t2cnt self) ->
    NoDup (dict_keys (_t2cnt self ++ items)) ->
    _ts (ITD_fill items idx self) = dict_keys (_t2cnt self ++ items)
    /\ _t2cnt (ITD_fill items idx self) = _t2cnt self ++ items.
Proof.
  induction items as [| [traj cnt] rest IH]; intros idx self Hts Hnd; simpl.
  - rewrite app_nil_r. auto.
  - assert (Hfresh : ~ In traj (dict_keys (_t2cnt self))).
    { unfold dict_keys in *. rewrite map_app in Hnd. simpl in Hnd.
      apply NoDup_remove_2 in Hnd. intros Hi. apply Hnd. apply in_or_app. now left. }
    replace (_t2cnt self ++ (traj, cnt) :: rest)
      with ((_t2cnt self ++ [(traj, cnt)]) ++ rest) in * by now rewrite <- app_assoc.
    specialize (IH (idx + 1)%Z
      (mkITD (_uid self) (_ts self ++ [traj]) (dict_set (_t2idx self) traj idx)
             (dict_set (_t2cnt self) traj cnt))).
    simpl in IH. rewrite (dict_set_fresh (_t2cnt self)) in * by assumption.
    apply IH; [| assumption].
    unfold dict_keys. rewrite map_app. simpl. now rewrite Hts.
Qed.

Lemma ITD_init_wf (b : ITDBuilder) : builder_wf b -> ITD_wf (ITD_init b).
Proof.
  intros [Hnd Hc]. unfold ITD_init.
  destruct (ITD_fill_shape (trajs b) 0%Z (mkITD (builder_uid b) [] [] [])) as [Hts Hcnt];
    simpl; [reflexivity | assumption |]. simpl in Hts, Hcnt.
  unfold ITD_wf, ITD_count. rewrite Hts, Hcnt. repeat split.
  - assumption.
  - intros t Hi. apply dict_keys_In in Hi as [c E]. rewrite E.
    apply dict_get_Some_In in E. eauto.
  - intros t Hn. apply dict_get_None in Hn. now rewrite Hn.
Qed.

(* ================================================================== *)
(** * Risk                                                             *)
(* ================================================================== *)

Lemma fold_left_Zadd (l : list Z) (a : Z) :
  fold_left Z.add l a = (a + fold_left Z.add l 0)%Z.
Proof.
  revert a. induction l as [| x l IH]; intros a; simpl; [lia |].
  rewrite (IH (a + x)%Z), (IH x). lia.
Qed.

Lemma py_sum_Z_cons (x : Z) (l : list Z) : py_sum_Z (x :: l) = (x + py_sum_Z l)%Z.
Proof. unfold py_sum_Z. simpl. now rewrite fold_left_Zadd. Qed.

Lemma fold_left_Qplus (l : list Q) (a : Q) :
  fold_left Qplus l a == a + fold_left Qplus l 0.
Proof.
  revert a. induction l as [| x l IH]; intros a; simpl; [lra |].
  rewrite (IH (a + x)), (IH (0 + x)). lra.
Qed.

Lemma py_sum_cons (x : Q) (l : list Q) : py_sum (x :: l) == x + py_sum l.
Proof. unfold py_sum. simpl. rewrite fold_left_Qplus. lra. Qed.

Lemma py_sum_nil : py_sum [] == 0.
Proof. reflexivity. Qed.

Lemma total_count_cons uid itd (itds : Population) t :
  total_count t ((uid, itd) :: itds) = (ITD_count itd t + total_count t itds)%Z.
Proof. unfold total_count. simpl. apply py_sum_Z_cons. Qed.

Lemma ITD_wf_count_nonneg (itd : ITD) (t : Trajectory) :
  ITD_wf itd -> (0 <= ITD_count itd t)%Z.
Proof.
  intros (_ & H1 & H0). destruct (in_dec key_eq_dec t (_ts itd)) as [Hi | Hn].
  - specialize (H1 t Hi). lia.
  - rewrite (H0 t Hn). lia.
Qed.

Lemma total_count_bounds (itds : Population) (t : Trajectory) :
  (forall uid itd, In (uid, itd) itds -> ITD_wf itd) ->
  (0 <= total_count t itds)%Z
  /\ forall uid itd, In (uid, itd) itds -> (ITD_count itd t <= total_count t itds)%Z.
Proof.
  induction itds as [| [u i] itds IH]; intros Hwf.
  - split; [unfold total_count, py_sum_Z; simpl; lia | intros ? ? []].
  - destruct IH as [IH0 IHc]; [intros; eapply Hwf; right; eauto |].
    assert (H0 : (0 <= ITD_count i t)%Z).
    { apply ITD_wf_count_nonneg. eapply Hwf. left. reflexivity. }
    rewrite total_count_cons. split; [lia |].
    intros uid itd [[= <- <-] | Hi]; [lia |]. specialize (IHc _ _ Hi). lia.
Qed.

Lemma py_div_Ok (a b : Q) : ~ b == 0 -> py_div a b = Ok (a / b).
Proof.
  intros Hb. unfold py_div. destruct (Qeq_bool b 0) eqn:E; [| reflexivity].
  apply Qeq_bool_iff in E. contradiction.
Qed.

Lemma inject_Z_pos (z : Z) : (0 < z)%Z -> 0 < inject_Z z.
Proof. intros Hz. change 0 with (inject_Z 0). now rewrite <- Zlt_Qlt. Qed.

Lemma risk_value (itds : Population) (t : Trajectory) (cnt : Z) :
  (0 < total_count t itds)%Z ->
  _risk cnt t itds = Ok (inject_Z cnt / inject_Z (total_count t itds)).
Proof.
  intros Hpos. unfold _risk. apply py_div_Ok.
  apply inject_Z_pos in Hpos. lra.
Qed.



(* ================================================================== *)
(** * The relation graph                                               *)
(* ================================================================== *)

Lemma group_by_riskest_spec (riskest : dict UID Trajectory) :
  let g := group_by_riskest riskest in
  dict_wf g
  /\ (forall t u, In u (dd_get g t) <-> In (u, t) riskest)
  /\ (forall t, NoDup (dd_get g t)).
Proof.
  unfold group_by_riskest.
  apply (fold_left_inv
           (fun pre g => dict_wf g
                         /\ (forall t u, In u (dd_get g t) <-> In (u, t) pre)
                         /\ (forall t, NoDup (dd_get g t)))
           _ riskest []).
  - repeat split; try constructor; simpl; tauto.
  - intros done [uid t] g _ (Hwf & Hin & Hnd). repeat split.
    + now apply dict_set_wf.
    + rewrite dd_get_set. destruct (key_eq_dec t t0) as [<- | N].
      * rewrite set_add_In, Hin, in_app_iff. simpl. intuition congruence.
      * rewrite Hin, in_app_iff. simpl. intuition congruence.
    + rewrite dd_get_set, in_app_iff. destruct (key_eq_dec t t0) as [<- | N].
      * rewrite set_add_In, Hin. simpl. intuition congruence.
      * rewrite Hin. simpl. intuition congruence.
    + intros t0. rewrite dd_get_set. destruct (key_eq_dec t t0) as [<- | N].
      * apply set_add_NoDup, Hnd.
      * apply Hnd.
Qed.

Lemma strong_inner_spec (uids : list UID) :
  forall us rel u,
    dd_get (fold_left (fun rel uid => dict_set rel uid (set_remove uids uid)) us rel) u
    = if mem u us then set_remove uids u else dd_get rel u.
Proof.
  induction us as [| x us IH]; intros rel u; simpl; [reflexivity |].
  rewrite IH, dd_get_set. unfold keyb.
  destruct (key_eq_dec u x) as [-> | N]; simpl.
  - destruct (key_eq_dec x x); [| congruence]. now destruct (mem x us).
  - destruct (key_eq_dec x u); [congruence | reflexivity].
Qed.

Lemma strong_inner_wf (uids : list UID) :
  forall us (rel : dict UID (list UID)),
    dict_wf rel ->
    dict_wf (fold_left (fun rel uid => dict_set rel uid (set_remove uids uid)) us rel).
Proof.
  induction us as [| x us IH]; intros rel Hwf; simpl; [assumption |].
  apply IH. now apply dict_set_wf.
Qed.

Lemma two_members {A} (l : list A) (x y : A) :
  In x l -> In y l -> x <> y -> (1 < length l)%nat.
Proof.
  destruct l as [| a [| b l]]; simpl; intros Hx Hy N; try lia.
  destruct Hx as [<- | []], Hy as [<- | []]. congruence.
Qed.

Lemma strong_wf (riskest : dict UID Trajectory) : dict_wf (_find_strong_relations riskest).
Proof.
  unfold _find_strong_relations.
  apply (fold_left_inv (fun _ rel => dict_wf rel) _ (group_by_riskest riskest) []).
  - constructor.
  - intros done [t uids] rel _ Hwf.
    destruct (1 <? length uids)%nat; [now apply strong_inner_wf | assumption].
Qed.

(** The strong relations, read off the assignment. *)
Lemma strong_spec (riskest : dict UID Trajectory) (u v : UID) :
  dict_wf riskest ->
  (In v (strong_of riskest u) <->
   u <> v /\ exists t, dict_get riskest u = Some t /\ dict_get riskest v = Some t).
Proof.
  intros Hwf.
  destruct (group_by_riskest_spec riskest) as (Gwf & Gin & Gnd).
  assert (Hitem : forall t uids, In (t, uids) (group_by_riskest riskest) ->
                                 forall x, In x uids <-> In (x, t) riskest).
  { intros t uids Hi x. rewrite <- Gin. unfold dd_get.
    now rewrite (dict_In_get _ _ _ Gwf Hi). }
  assert (Hdisj : forall t uids t' uids' x,
             In (t, uids) (group_by_riskest riskest) ->
             In (t', uids') (group_by_riskest riskest) ->
             In x uids -> In x uids' -> uids = uids').
  { intros t uids t' uids' x Hi Hi' Hx Hx'.
    apply (Hitem _ _ Hi) in Hx. apply (Hitem _ _ Hi') in Hx'.
    apply (dict_In_get _ _ _ Hwf) in Hx, Hx'. assert (t = t') by congruence. subst t'.
    apply (dict_In_get _ _ _ Gwf) in Hi, Hi'. congruence. }
  assert (Hfold : forall u v,
             In v (strong_of riskest u) <->
             exists t uids, In (t, uids) (group_by_riskest riskest)
                            /\ (1 < length uids)%nat /\ In u uids
                            /\ In v (set_remove uids u)).
  { unfold strong_of, _find_strong_relations.
    apply (fold_left_inv
             (fun pre rel => forall u v,
                  In v (dd_get rel u) <->
                  exists t uids, In (t, uids) pre /\ (1 < length uids)%nat /\ In u uids
                                 /\ In v (set_remove uids u))
             _ (group_by_riskest riskest) []).
    - intros u0 v0. unfold dd_get. simpl. split; [tauto | intros (? & ? & [] & _)].
    - intros done [t uids] rel [rest Hrest] IH u0 v0. simpl in Hrest.
      assert (Hx : In (t, uids) (group_by_riskest riskest)).
      { rewrite Hrest. apply in_or_app. right. now left. }
      assert (Hdone : forall y, In y done -> In y (group_by_riskest riskest)).
      { intros y Hy. rewrite Hrest. apply in_or_app. now left. }
      destruct (1 <? length uids)%nat eqn:Elen.
      + apply Nat.ltb_lt in Elen. rewrite strong_inner_spec.
        destruct (mem u0 uids) eqn:Emem.
        * apply mem_In in Emem. split.
          -- intros Hv. exists t, uids. repeat split; try assumption.
             apply in_or_app. right. now left.
          -- intros (t' & uids' & Hi' & _ & Hu' & Hv').
             assert (uids' = uids); [| now subst].
             apply in_app_or in Hi' as [Hi' | [[= <- <-] | []]]; [| reflexivity].
             eapply Hdisj; eauto.
        * apply mem_false in Emem. rewrite IH. split.
          -- intros (t' & uids' & Hi' & Hrest'). exists t', uids'.
             split; [apply in_or_app; now left | assumption].
          -- intros (t' & uids' & Hi' & Hl' & Hu' & Hv').
             apply in_app_or in Hi' as [Hi' | [[= <- <-] | []]]; [| contradiction].
             exists t', uids'. auto.
      + apply Nat.ltb_ge in Elen. rewrite IH. split.
        * intros (t' & uids' & Hi' & Hrest'). exists t', uids'.
          split; [apply in_or_app; now left | assumption].
        * intros (t' & uids' & Hi' & Hl' & Hu' & Hv').
          apply in_app_or in Hi' as [Hi' | [[= <- <-] | []]]; [| lia].
          exists t', uids'. auto. }
  rewrite Hfold. split.
  - intros (t & uids & Hi & _ & Hu & Hv). apply set_remove_In in Hv as [Hv N].
    split; [congruence |]. exists t.
    apply (Hitem _ _ Hi) in Hu, Hv. split; now apply dict_In_get.
  - intros (N & t & Hu & Hv). apply dict_get_Some_In in Hu, Hv.
    apply Gin in Hu, Hv. unfold dd_get in Hu, Hv.
    destruct (dict_get (group_by_riskest riskest) t) as [uids |] eqn:E; [| destruct Hu].
    exists t, uids. split; [now apply dict_get_Some_In |].
    split; [now apply (two_members uids u v) |]. split; [assumption |].
    apply set_remove_In. split; [assumption | congruence].
Qed.

Lemma sharers_In (riskest : dict UID Trajectory) (t : Trajectory) (u : UID) :
  In u (sharers riskest t) <-> In (u, t) riskest.
Proof.
  unfold sharers, dict_keys. rewrite in_map_iff. split.
  - intros [[u' t'] [E Hi]]. simpl in E. subst u'.
    apply filter_In in Hi as [Hi Hk]. apply keyb_true in Hk. now subst.
  - intros Hi. exists (u, t). split; [reflexivity |].
    apply filter_In. split; [assumption | apply keyb_refl].
Qed.

(** C6. The strong relations of an assignment are symmetric, and two
    different users are strongly related exactly when they have the same
    riskiest trajectory, which at least two users then share. *)
Theorem strong_relations_symmetric_cliques
    (riskest : dict UID Trajectory) (u v : UID)
    (Hwf : dict_wf riskest) (Huv : u <> v) :
  (In v (strong_of riskest u) <-> In u (strong_of riskest v))
  /\ (In v (strong_of riskest u) <->
      exists t, dict_get riskest u = Some t /\ dict_get riskest v = Some t
                /\ (2 <= length (sharers riskest t))%nat).
Proof.
  rewrite !strong_spec by assumption. split.
  - split; intros (N & t & H1 & H2); (split; [congruence | exists t; auto]).
  - split.
    + intros (_ & t & H1 & H2). exists t. repeat split; try assumption.
      apply (two_members _ u v); [| | assumption];
        apply sharers_In; now apply dict_get_Some_In.
    + intros (t & H1 & H2 & _). split; [assumption | exists t; auto].
Qed.

Lemma find_weak_relations_unfold (riskest : dict UID Trajectory) (itds : Population) :
  _find_weak_relations riskest itds (_find_strong_relations riskest)
  = fold_left
      (fun weak '(uid1, _) =>
         fold_left
           (fun weak '(uid2, itd2) =>
              if weak_cond riskest (_find_strong_relations riskest) uid1 uid2 itd2
              then dict_set weak uid1 (dd_get weak uid1 ++ [uid2])
              else weak)
           itds weak)
      itds [].
Proof.
  unfold _find_weak_relations.
  destruct (_find_strong_relations riskest) eqn:E; reflexivity.
Qed.

Lemma weak_wf (riskest : dict UID Trajectory) (itds : Population) :
  dict_wf (_find_weak_relations riskest itds (_find_strong_relations riskest)).
Proof.
  rewrite find_weak_relations_unfold.
  apply (fold_left_inv (fun _ weak => dict_wf weak) _ itds []); [constructor |].
  intros _ [uid1 itd1] weak _ Hwf.
  apply (fold_left_inv (fun _ weak => dict_wf weak) _ itds []); [assumption |].
  intros _ [uid2 itd2] weak' _ Hwf'.
  destruct (weak_cond _ _ _ _ _); [now apply dict_set_wf | assumption].
Qed.

(** The weak relations, read off the assignment and the population. *)
Lemma weak_fold_spec (riskest : dict UID Trajectory) (itds : Population) (u v : UID) :
  In v (weak_of riskest itds u) <->
  exists itd_u itd_v,
    In (u, itd_u) itds /\ In (v, itd_v) itds
    /\ weak_cond riskest (_find_strong_relations riskest) u v itd_v = true.
Proof.
  unfold weak_of. rewrite find_weak_relations_unfold. revert u v.
  apply (fold_left_inv
           (fun pre weak => forall u v,
                In v (dd_get weak u) <->
                exists itd_u itd_v,
                  In (u, itd_u) pre /\ In (v, itd_v) itds
                  /\ weak_cond riskest (_find_strong_relations riskest) u v itd_v = true)
           _ itds []).
  - intros u v. unfold dd_get. simpl. split; [tauto | intros (? & ? & [] & _)].
  - intros done [uid1 itd1] weak _ IH.
    assert (Hin : forall u v,
               In v (dd_get (fold_left
                               (fun weak '(uid2, itd2) =>
                                  if weak_cond riskest (_find_strong_relations riskest)
                                       uid1 uid2 itd2
                                  then dict_set weak uid1 (dd_get weak uid1 ++ [uid2])
                                  else weak) itds weak) u) <->
               In v (dd_get weak u)
               \/ (u = uid1 /\ exists itd_v,
                      In (v, itd_v) itds
                      /\ weak_cond riskest (_find_strong_relations riskest)
                           uid1 v itd_v = true)).
    { apply (fold_left_inv
               (fun pre2 weak' => forall u v,
                    In v (dd_get weak' u) <->
                    In v (dd_get weak u)
                    \/ (u = uid1 /\ exists itd_v,
                           In (v, itd_v) pre2
                           /\ weak_cond riskest (_find_strong_relations riskest)
                                uid1 v itd_v = true))
               _ itds []).
      - intros u v. split; [tauto | intros [Hi | (_ & ? & [] & _)]; assumption].
      - intros done2 [uid2 itd2] weak' _ IH2 u v.
        destruct (weak_cond riskest (_find_strong_relations riskest) uid1 uid2 itd2) eqn:Ec.
        + rewrite dd_get_set. destruct (key_eq_dec uid1 u) as [<- | N].
          * rewrite in_app_iff, IH2. simpl. split.
            -- intros [[Hi | (_ & itd_v & Hi & Hc)] | [<- | []]].
               ++ now left.
               ++ right. split; [reflexivity |]. exists itd_v.
                  split; [apply in_or_app; now left | assumption].
               ++ right. split; [reflexivity |]. exists itd2.
                  split; [apply in_or_app; right; now left | assumption].
            -- intros [Hi | (_ & itd_v & Hi & Hc)]; [left; now left |].
               apply in_app_or in Hi as [Hi | [[= <- <-] | []]].
               ++ left. right. split; [reflexivity |]. now exists itd_v.
               ++ right. now left.
          * rewrite IH2. split.
            -- intros [Hi | (E & _)]; [now left | congruence].
            -- intros [Hi | (E & _)]; [now left | congruence].
        + rewrite IH2. split.
          * intros [Hi | (E & itd_v & Hi & Hc)]; [now left |].
            right. split; [assumption |]. exists itd_v.
            split; [apply in_or_app; now left | assumption].
          * intros [Hi | (E & itd_v & Hi & Hc)]; [now left |].
            apply in_app_or in Hi as [Hi | [[= <- <-] | []]]; [| congruence].
            right. split; [assumption |]. now exists itd_v. }
    intros u v. rewrite Hin, IH. split.
    + intros [(itd_u & itd_v & Hu & Hv & Hc) | (-> & itd_v & Hv & Hc)].
      * exists itd_u, itd_v. split; [apply in_or_app; now left | auto].
      * exists itd1, itd_v. split; [apply in_or_app; right; now left | auto].
    + intros (itd_u & itd_v & Hu & Hv & Hc).
      apply in_app_or in Hu as [Hu | [[= <- <-] | []]].
      * left. exists itd_u, itd_v. auto.
      * right. split; [reflexivity |]. now exists itd_v.
Qed.

Lemma weak_cond_true (riskest : dict UID Trajectory) (u v : UID) (itd_v : ITD) :
  weak_cond riskest (_find_strong_relations riskest) u v itd_v = true <->
  u <> v
  /\ (exists t, dict_get riskest u = Some t /\ In t (trajectories itd_v))
  /\ ~ In v (strong_of riskest u).
Proof.
  unfold weak_cond, strong_of.
  rewrite !andb_true_iff, !negb_true_iff, keyb_false, mem_false.
  destruct (dict_get riskest u) as [t |].
  - rewrite mem_In. split.
    + intros [[N Ht] Hs]. repeat split; try assumption. now exists t.
    + intros (N & (t' & [= <-] & Ht) & Hs). auto.
  - split; [intros [[_ Hf] _]; discriminate | intros (_ & (t & Hf & _) & _); discriminate].
Qed.

Lemma weak_spec (riskest : dict UID Trajectory) (itds : Population) (u v : UID) :
  In v (weak_of riskest itds u) <->
  u <> v /\ In u (dict_keys itds)
  /\ (exists itd_v t, In (v, itd_v) itds /\ dict_get riskest u = Some t
                      /\ In t (trajectories itd_v))
  /\ ~ In v (strong_of riskest u).
Proof.
  rewrite weak_fold_spec. split.
  - intros (itd_u & itd_v & Hu & Hv & Hc). apply weak_cond_true in Hc as (N & (t & Ht & Hi) & Hs).
    repeat split; try assumption.
    + eapply In_dict_keys; eauto.
    + exists itd_v, t. auto.
  - intros (N & Hu & (itd_v & t & Hv & Ht & Hi) & Hs).
    apply dict_keys_In in Hu as [itd_u Hu]. apply dict_get_Some_In in Hu.
    exists itd_u, itd_v. repeat split; try assumption.
    apply weak_cond_true. repeat split; try assumption. now exists t.
Qed.

(** ** The affected-by closure *)

Lemma dict_append_spec (affected : dict UID (list UID)) (x k : UID) :
  In x (dict_keys affected) ->
  exists affected',
    dict_append affected x k = Ok affected'
    /\ dict_keys affected' = dict_keys affected
    /\ forall u, dd_get affected' u = if key_eq_dec x u then dd_get affected u ++ [k]
                                      else dd_get affected u.
Proof.
  intros Hx. unfold dict_append, dict_getitem.
  destruct (dict_keys_In _ _ Hx) as [l E]. rewrite E. simpl.
  eexists. split; [reflexivity |]. split.
  - rewrite dict_keys_set. apply dict_contains_true in Hx. now rewrite Hx.
  - intros u. rewrite dd_get_set. destruct (key_eq_dec x u) as [<- | N]; [| reflexivity].
    unfold dd_get. now rewrite E.
Qed.

Lemma add_affected_spec (relations affected : dict UID (list UID)) :
  (forall k l v, In (k, l) relations -> In v l -> In v (dict_keys affected)) ->
  exists affected',
    add_affected relations affected = Ok affected'
    /\ dict_keys affected' = dict_keys affected
    /\ forall u v, In v (dd_get affected' u) <->
                   In v (dd_get affected u) \/ exists l, In (v, l) relations /\ In u l.
Proof.
  intros Hkeys. unfold add_affected.
  destruct (for_each_inv
              (fun pre aff =>
                 dict_keys aff = dict_keys affected
                 /\ forall u v, In v (dd_get aff u) <->
                                In v (dd_get affected u)
                                \/ exists l, In (v, l) pre /\ In u l)
              (fun '(k, v_list) affected =>
                 for_each v_list (fun v affected => dict_append affected v k) affected)
              relations [] affected) as [aff' [E HI]].
  - split; [reflexivity |]. intros u v. split; [tauto | intros [Hi | (? & [] & _)]; assumption].
  - intros done [k v_list] aff [rest Hrest] [Hk IH]. simpl in Hrest.
    destruct (for_each_inv
                (fun pre2 aff2 =>
                   dict_keys aff2 = dict_keys affected
                   /\ forall u v, In v (dd_get aff2 u) <->
                                  In v (dd_get aff u) \/ (v = k /\ In u pre2))
                (fun v affected => dict_append affected v k)
                v_list [] aff) as [aff2 [E2 [Hk2 HI2]]].
    + split; [assumption |]. intros u v. simpl. tauto.
    + intros done2 x aff2 [rest2 Hrest2] [Hk2 IH2]. simpl in Hrest2.
      destruct (dict_append_spec aff2 x k) as [aff3 (E3 & Hk3 & Hg3)].
      { rewrite Hk2. apply (Hkeys k v_list).
        - rewrite Hrest. apply in_or_app. right. now left.
        - rewrite Hrest2. apply in_or_app. right. now left. }
      exists aff3. split; [assumption |]. split; [congruence |].
      intros u v. rewrite Hg3. destruct (key_eq_dec x u) as [<- | N].
      * rewrite !in_app_iff, IH2. simpl. intuition congruence.
      * rewrite IH2, in_app_iff. simpl. intuition congruence.
    + exists aff2. split; [exact E2 |]. split; [assumption |].
      intros u v. simpl in HI2. rewrite HI2, IH. split.
      * intros [[Hi | (l & Hl & Hu)] | [-> Hu]]; [now left | |].
        -- right. exists l. split; [apply in_or_app; now left | assumption].
        -- right. exists v_list. split; [apply in_or_app; right; now left | assumption].
      * intros [Hi | (l & Hl & Hu)]; [left; now left |].
        apply in_app_or in Hl as [Hl | [[= <- <-] | []]].
        -- left. right. now exists l.
        -- now right.
  - exists aff'. split; [exact E |]. exact HI.
Qed.

Lemma dd_get_items (d : dict UID (list UID)) (k v : UID) :
  dict_wf d -> ((exists l, In (k, l) d /\ In v l) <-> In v (dd_get d k)).
Proof.
  intros Hwf. unfold dd_get. split.
  - intros (l & Hl & Hv). now rewrite (dict_In_get _ _ _ Hwf Hl).
  - destruct (dict_get d k) as [l |] eqn:E; [| intros []].
    intros Hv. exists l. split; [now apply dict_get_Some_In | assumption].
Qed.

Lemma strong_in_riskest (riskest : dict UID Trajectory) (u v : UID) :
  dict_wf riskest -> In v (strong_of riskest u) ->
  In u (dict_keys riskest) /\ In v (dict_keys riskest).
Proof.
  intros Hwf Hv. apply strong_spec in Hv as (_ & t & Hu & Hv); [| assumption].
  split; eapply dict_get_In_keys; eauto.
Qed.

Lemma weak_in_population (riskest : dict UID Trajectory) (itds : Population) (u v : UID) :
  In v (weak_of riskest itds u) -> In u (dict_keys itds) /\ In v (dict_keys itds).
Proof.
  intros Hv. apply weak_spec in Hv as (_ & Hu & (itd_v & _ & Hv & _) & _).
  split; [assumption | eapply In_dict_keys; eauto].
Qed.

Lemma initial_affected (itds : Population) (u : UID) :
  dict_keys (map (fun '(uid, _) => (uid, [uid])) itds) = dict_keys itds
  /\ (In u (dict_keys itds) ->
      dd_get (map (fun '(uid, _) => (uid, [uid])) itds) u = [u])
  /\ (~ In u (dict_keys itds) ->
      dd_get (map (fun '(uid, _) => (uid, [uid])) itds) u = []).
Proof.
  unfold dd_get. induction itds as [| [uid itd] itds (IHk & IHi & IHn)]; simpl.
  - repeat split; tauto.
  - rewrite IHk. repeat split.
    + intros Hi. destruct (key_eq_dec u uid) as [-> | N]; [reflexivity |].
      apply IHi. destruct Hi; [congruence | assumption].
    + intros Hn. destruct (key_eq_dec u uid) as [-> | N]; [tauto |].
      apply IHn. tauto.
Qed.

(** The closure, read off the relations. *)
Lemma affected_by_spec (riskest : dict UID Trajectory) (itds : Population) :
  riskest_wf itds riskest ->
  exists affected,
    _affected_by riskest itds = Ok affected
    /\ dict_keys affected = dict_keys itds
    /\ forall u v, In u (dict_keys itds) ->
                   (In v (dd_get affected u) <->
                    v = u \/ In u (strong_of riskest v) \/ In u (weak_of riskest itds v)).
Proof.
  intros [Hwf Hsub]. unfold _affected_by.
  destruct (add_affected_spec (_find_strong_relations riskest)
              (map (fun '(uid, _) => (uid, [uid])) itds)) as [aff1 (E1 & K1 & H1)].
  { intros k l v Hl Hv. rewrite (proj1 (initial_affected itds v)).
    apply Hsub. apply (strong_in_riskest riskest k v Hwf).
    apply dd_get_items; [apply strong_wf | eauto]. }
  rewrite E1. simpl.
  destruct (add_affected_spec
              (_find_weak_relations riskest itds (_find_strong_relations riskest)) aff1)
    as [aff2 (E2 & K2 & H2)].
  { intros k l v Hl Hv. rewrite K1, (proj1 (initial_affected itds v)).
    apply (weak_in_population riskest itds k v).
    apply dd_get_items; [apply weak_wf | eauto]. }
  exists aff2. split; [exact E2 |].
  split; [rewrite K2, K1; apply (initial_affected itds 0%Z) |].
  intros u v Hu. rewrite H2, H1.
  rewrite (proj1 (proj2 (initial_affected itds u)) Hu).
  rewrite (dd_get_items _ v u (strong_wf riskest)).
  rewrite (dd_get_items _ v u (weak_wf riskest itds)).
  fold (strong_of riskest v). fold (weak_of riskest itds v). simpl.
  intuition congruence.
Qed.

(** C7. For a population and an assignment over its users, the closure is
    computed without error; every user [u] of the population has an entry
    in it that contains [u]; and that entry contains [v] exactly when [v]
    is [u] or [u] is a strong or a weak relation of [v]: one hop, nothing
    further. *)
Theorem affected_by_is_one_hop
    (riskest : dict UID Trajectory) (itds : Population)
    (Hwf : riskest_wf itds riskest) :
  exists affected,
    _affected_by riskest itds = Ok affected
    /\ forall u, In u (dict_keys itds) ->
         exists l, dict_getitem affected u = Ok l
                   /\ In u l
                   /\ forall v, In v l <->
                                v = u \/ In u (strong_of riskest v)
                                \/ In u (weak_of riskest itds v).
Proof.
  destruct (affected_by_spec riskest itds Hwf) as [affected (E & Hk & Hin)].
  exists affected. split; [exact E |].
  intros u Hu. assert (Hu' := Hu). rewrite <- Hk in Hu'.
  apply dict_keys_In in Hu' as [l El].
  exists l. unfold dict_getitem. rewrite El. split; [reflexivity |].
  assert (Hl : l = dd_get affected u) by (unfold dd_get; now rewrite El).
  rewrite Hl. split.
  - apply Hin; [assumption | now left].
  - intros v. now apply Hin.
Qed.

(* ================================================================== *)
(** * The bound solver: indices                                        *)
(* ================================================================== *)

Lemma insert_sorted_perm (x : Z) (l : list Z) : Permutation (insert_sorted x l) (x :: l).
Proof.
  induction l as [| y l IH]; simpl; [reflexivity |].
  destruct (x <=? y)%Z; [reflexivity |].
  rewrite IH. apply perm_swap.
Qed.

Lemma sorted_perm (l : list Z) : Permutation (sorted l) l.
Proof.
  unfold sorted. induction l as [| x l IH]; simpl; [constructor |].
  rewrite insert_sorted_perm. now constructor.
Qed.

Lemma sorted_keys_length (itds : Population) :
  length (sorted (dict_keys itds)) = length itds.
Proof.
  rewrite (Permutation_length (sorted_perm _)). unfold dict_keys. apply length_map.
Qed.

Lemma sorted_keys_In (itds : Population) (u : UID) :
  In u (sorted (dict_keys itds)) <-> In u (dict_keys itds).
Proof.
  split; apply Permutation_in; [| symmetry]; apply sorted_perm.
Qed.

Lemma sorted_keys_NoDup (itds : Population) :
  dict_wf itds -> NoDup (sorted (dict_keys itds)).
Proof.
  intros Hwf. eapply Permutation_NoDup; [symmetry; apply sorted_perm | exact Hwf].
Qed.

Lemma enumerate_get {A} (l : list A) :
  forall s i, dict_get (combine (seq s (length l)) l) i
              = if (i <? s)%nat then None else nth_error l (i - s).
Proof.
  induction l as [| a l IH]; intros s i; simpl.
  - destruct (i <? s)%nat; [reflexivity | now destruct (i - s)%nat].
  - destruct (key_eq_dec i s) as [-> | N].
    + rewrite Nat.ltb_irrefl, Nat.sub_diag. reflexivity.
    + rewrite IH. destruct (Nat.ltb_spec i s), (Nat.ltb_spec i (S s)); try lia;
        [reflexivity |].
      replace (i - s)%nat with (S (i - S s)) by lia. reflexivity.
Qed.

Lemma idx2uid_get (itds : Population) (i : nat) :
  dict_get (idx2uid itds) i = nth_error (sorted (dict_keys itds)) i.
Proof.
  unfold idx2uid, enumerate. rewrite enumerate_get. simpl. now rewrite Nat.sub_0_r.
Qed.

Lemma swapped_get_sound (l : list UID) :
  forall s u j,
    dict_get (map (fun '(i, uid) => (uid, i)) (combine (seq s (length l)) l)) u = Some j ->
    (s <= j)%nat /\ nth_error l (j - s) = Some u.
Proof.
  induction l as [| a l IH]; intros s u j; simpl; [discriminate |].
  destruct (key_eq_dec u a) as [-> | N].
  - intros [= <-]. rewrite Nat.sub_diag. auto.
  - intros Hg. apply IH in Hg as [H1 H2]. split; [lia |].
    replace (j - s)%nat with (S (j - S s)) by lia. exact H2.
Qed.

Lemma swapped_get_complete (l : list UID) :
  forall s k u,
    NoDup l -> nth_error l k = Some u ->
    dict_get (map (fun '(i, uid) => (uid, i)) (combine (seq s (length l)) l)) u
    = Some (s + k)%nat.
Proof.
  induction l as [| a l IH]; intros s k u Hnd Hk; [destruct k; discriminate |].
  inversion Hnd as [| ? ? Hni Hnd']; subst. simpl.
  destruct k as [| k]; simpl in Hk.
  - injection Hk as ->. destruct (key_eq_dec u u); [f_equal; lia | congruence].
  - destruct (key_eq_dec u a) as [-> | N].
    + exfalso. apply Hni. eapply nth_error_In; eauto.
    + rewrite (IH (S s) k u Hnd' Hk). f_equal. lia.
Qed.

Section Indices.
Variable itds : Population.
Hypothesis Hwf : dict_wf itds.

Lemma uid_at_nth (i : nat) :
  (i < length itds)%nat -> nth_error (sorted (dict_keys itds)) i = Some (uid_at itds i).
Proof.
  intros Hi. unfold uid_at. apply nth_error_nth'. now rewrite sorted_keys_length.
Qed.

Lemma uid_at_In (i : nat) : (i < length itds)%nat -> In (uid_at itds i) (dict_keys itds).
Proof.
  intros Hi. apply sorted_keys_In. eapply nth_error_In. now apply uid_at_nth.
Qed.

Lemma idx2uid_getitem (i : nat) :
  (i < length itds)%nat -> dict_getitem (idx2uid itds) i = Ok (uid_at itds i).
Proof.
  intros Hi. unfold dict_getitem. now rewrite idx2uid_get, uid_at_nth.
Qed.

Lemma uid2idx_of_uid_at (i : nat) :
  (i < length itds)%nat -> dict_get (uid2idx itds) (uid_at itds i) = Some i.
Proof.
  intros Hi. unfold uid2idx, enumerate.
  rewrite (swapped_get_complete _ 0 i (uid_at itds i));
    [reflexivity | now apply sorted_keys_NoDup | now apply uid_at_nth].
Qed.

Lemma idx_of_uid_at (i : nat) : (i < length itds)%nat -> idx_of itds (uid_at itds i) = i.
Proof. intros Hi. unfold idx_of. now rewrite uid2idx_of_uid_at. Qed.

Lemma uid2idx_In (u : UID) :
  In u (dict_keys itds) ->
  dict_get (uid2idx itds) u = Some (idx_of itds u)
  /\ (idx_of itds u < length itds)%nat
  /\ uid_at itds (idx_of itds u) = u.
Proof.
  intros Hu. apply sorted_keys_In in Hu. apply In_nth_error in Hu as [k Hk].
  assert (Hlt : (k < length itds)%nat).
  { rewrite <- sorted_keys_length.
    apply (proj1 (nth_error_Some (sorted (dict_keys itds)) k)). congruence. }
  assert (Hu : uid_at itds k = u).
  { rewrite uid_at_nth in Hk by assumption. congruence. }
  subst u. rewrite idx_of_uid_at by assumption.
  split; [now apply uid2idx_of_uid_at | auto].
Qed.

Lemma uid2idx_getitem (u : UID) :
  In u (dict_keys itds) -> dict_getitem (uid2idx itds) u = Ok (idx_of itds u).
Proof.
  intros Hu. unfold dict_getitem. now rewrite (proj1 (uid2idx_In u Hu)).
Qed.

Lemma idx_of_inj (u v : UID) :
  In u (dict_keys itds) -> In v (dict_keys itds) ->
  idx_of itds u = idx_of itds v -> u = v.
Proof.
  intros Hu Hv E. rewrite <- (proj2 (proj2 (uid2idx_In u Hu))).
  rewrite <- (proj2 (proj2 (uid2idx_In v Hv))). now rewrite E.
Qed.

Lemma epsl_at_eps_at (epsl : dict UID Q) (i : nat) :
  epsl_covers itds epsl -> (i < length itds)%nat ->
  epsl_at itds epsl i = Ok (eps_at itds epsl i).
Proof.
  intros Hc Hi. unfold epsl_at, eps_at. rewrite idx2uid_getitem by assumption. simpl.
  destruct (Hc _ (uid_at_In i Hi)) as [e E]. unfold dict_getitem. now rewrite E.
Qed.
End Indices.

(* ================================================================== *)
(** * The bound solver: matrices                                       *)
(* ================================================================== *)

Lemma list_set_spec {A} (l : list A) :
  forall i v, (i < length l)%nat ->
    exists l', list_set l i v = Ok l'
               /\ forall k, nth_error l' k = if (k =? i)%nat then Some v else nth_error l k.
Proof.
  induction l as [| x l IH]; intros i v Hi; simpl in Hi; [lia |].
  destruct i as [| i]; simpl.
  - eexists. split; [reflexivity |]. intros [| k]; reflexivity.
  - destruct (IH i v) as [l' [E Hn]]; [lia |]. rewrite E. simpl.
    eexists. split; [reflexivity |]. intros [| k]; simpl; [reflexivity | apply Hn].
Qed.

Lemma mat_get_rows (m : matrix) (a b : nat) (v : Q) :
  mat_get m a b = Ok v <->
  exists row, nth_error m a = Some row /\ nth_error row b = Some v.
Proof.
  unfold mat_get, list_getitem. split.
  - destruct (nth_error m a) as [row |]; simpl; [| discriminate].
    destruct (nth_error row b) as [x |] eqn:E; [| discriminate].
    intros [= ->]. eauto.
  - intros (row & H1 & H2). rewrite H1. simpl. now rewrite H2.
Qed.

Lemma mat_set_spec (n : nat) (m : matrix) (f : fmat) (i j : nat) (v : Q) :
  mat_repr n m f -> (i < n)%nat -> (j < n)%nat ->
  exists m', mat_set m i j v = Ok m' /\ mat_repr n m' (upd f i j v).
Proof.
  intros Hr Hi Hj.
  destruct (proj1 (mat_get_rows m i j _) (Hr i j Hi Hj)) as (row & Hrow & Hcell).
  assert (Hlen_m : (i < length m)%nat)
    by (apply (proj1 (nth_error_Some m i)); congruence).
  assert (Hlen_r : (j < length row)%nat)
    by (apply (proj1 (nth_error_Some row j)); congruence).
  destruct (list_set_spec row j v Hlen_r) as [row' [Er Hr']].
  destruct (list_set_spec m i row' Hlen_m) as [m' [Em Hm']].
  exists m'. split.
  - unfold mat_set, list_getitem. rewrite Hrow. simpl. rewrite Er. simpl. exact Em.
  - intros a b Ha Hb. apply mat_get_rows. unfold upd. rewrite Hm'.
    destruct (Nat.eqb_spec a i) as [-> | N]; simpl.
    + exists row'. split; [reflexivity |]. rewrite Hr'.
      destruct (b =? j)%nat eqn:Eb; [reflexivity |].
      destruct (proj1 (mat_get_rows m i b _) (Hr i b Hi Hb)) as (row0 & Hrow0 & Hcell0).
      congruence.
    + apply mat_get_rows. now apply Hr.
Qed.

Lemma mat_add_spec (n : nat) (m : matrix) (f : fmat) (i j : nat) (v : Q) :
  mat_repr n m f -> (i < n)%nat -> (j < n)%nat ->
  exists m', mat_add m i j v = Ok m' /\ mat_repr n m' (upd f i j (f i j + v)).
Proof.
  intros Hr Hi Hj. unfold mat_add. rewrite (Hr i j Hi Hj). simpl.
  now apply mat_set_spec.
Qed.

Lemma nth_error_repeat_lt {A} (x : A) (n b : nat) :
  (b < n)%nat -> nth_error (repeat x n) b = Some x.
Proof.
  revert b. induction n as [| n IH]; intros b Hb; [lia |].
  destruct b as [| b]; simpl; [reflexivity | apply IH; lia].
Qed.

Lemma mat_repr_rows (n : nat) (row : nat -> Q) :
  mat_repr n (map (fun i => repeat (row i) n) (seq 0 n)) (fun a _ => row a).
Proof.
  intros a b Ha Hb. apply mat_get_rows. exists (repeat (row a) n). split.
  - rewrite nth_error_map, nth_error_seq.
    destruct (Nat.ltb_spec a n); [reflexivity | lia].
  - now apply nth_error_repeat_lt.
Qed.

(* ================================================================== *)
(** * The bound solver computes [cidp_at]                              *)
(* ================================================================== *)

Section Refinement.
Variable itds : Population.
Variable riskest : dict UID Trajectory.
Variable epsl : dict UID Q.
Variable theta : Q.
Hypothesis Hwf : dict_wf itds.
Hypothesis Hcov : epsl_covers itds epsl.

Local Abbreviation n := (length itds).
Local Abbreviation e := (eps_at itds epsl).

Lemma strong_step_refines (i : nat) (uid_j : UID) (mL mR : matrix) (Lf Rf : fmat) :
  (i < n)%nat -> In uid_j (dict_keys itds) ->
  mat_repr n mL Lf -> mat_repr n mR Rf ->
  exists mL' mR',
    strong_step itds epsl i uid_j (mL, mR) = Ok (mL', mR')
    /\ mat_repr n mL' (L_step Lf (true, i, idx_of itds uid_j))
    /\ mat_repr n mR' (R_step e theta Rf (true, i, idx_of itds uid_j)).
Proof.
  intros Hi Hu HL HR.
  destruct (uid2idx_In itds Hwf uid_j Hu) as (_ & Hj & _).
  unfold strong_step. rewrite (uid2idx_getitem itds Hwf uid_j Hu). simpl.
  destruct (mat_add_spec n mL Lf i i (1 # 2) HL Hi Hi) as [m1 [E1 H1]].
  rewrite E1. simpl.
  destruct (mat_add_spec n m1 _ (idx_of itds uid_j) (idx_of itds uid_j) (1 # 2) H1 Hj Hj)
    as [m2 [E2 H2]].
  rewrite E2. simpl.
  destruct (mat_set_spec n m2 _ i (idx_of itds uid_j) (- (1)) H2 Hi Hj) as [m3 [E3 H3]].
  rewrite E3. simpl.
  destruct (mat_set_spec n m3 _ (idx_of itds uid_j) i (- (1)) H3 Hj Hi) as [m4 [E4 H4]].
  rewrite E4. simpl.
  rewrite (epsl_at_eps_at itds epsl i Hcov Hi). simpl.
  destruct (mat_set_spec n mR Rf i (idx_of itds uid_j) (- e i) HR Hi Hj) as [r1 [F1 G1]].
  rewrite F1. simpl.
  rewrite (epsl_at_eps_at itds epsl _ Hcov Hj). simpl.
  destruct (mat_set_spec n r1 _ (idx_of itds uid_j) i (- e (idx_of itds uid_j)) G1 Hj Hi)
    as [r2 [F2 G2]].
  rewrite F2. simpl.
  exists m4, r2. auto.
Qed.

Lemma weak_step_refines (i : nat) (uid_j : UID) (mL mR : matrix) (Lf Rf : fmat) :
  (i < n)%nat -> In uid_j (dict_keys itds) ->
  mat_repr n mL Lf -> mat_repr n mR Rf ->
  exists mL' mR',
    weak_step itds epsl theta i uid_j (mL, mR) = Ok (mL', mR')
    /\ mat_repr n mL' (L_step Lf (false, i, idx_of itds uid_j))
    /\ mat_repr n mR' (R_step e theta Rf (false, i, idx_of itds uid_j)).
Proof.
  intros Hi Hu HL HR.
  destruct (uid2idx_In itds Hwf uid_j Hu) as (_ & Hj & _).
  unfold weak_step. rewrite (uid2idx_getitem itds Hwf uid_j Hu). simpl.
  destruct (mat_add_spec n mL Lf i i 1 HL Hi Hi) as [m1 [E1 H1]].
  rewrite E1. simpl.
  destruct (mat_add_spec n m1 _ (idx_of itds uid_j) (idx_of itds uid_j) 1 H1 Hj Hj)
    as [m2 [E2 H2]].
  rewrite E2. simpl.
  destruct (mat_set_spec n m2 _ i (idx_of itds uid_j) (- (1)) H2 Hi Hj) as [m3 [E3 H3]].
  rewrite E3. simpl.
  destruct (mat_set_spec n m3 _ (idx_of itds uid_j) i (- (1)) H3 Hj Hi) as [m4 [E4 H4]].
  rewrite E4. simpl.
  rewrite (epsl_at_eps_at itds epsl i Hcov Hi). simpl.
  destruct (mat_set_spec n mR Rf i (idx_of itds uid_j) (- e i * theta) HR Hi Hj)
    as [r1 [F1 G1]].
  rewrite F1. simpl.
  destruct (mat_set_spec n r1 _ (idx_of itds uid_j) i 0 G1 Hj Hi) as [r2 [F2 G2]].
  rewrite F2. simpl.
  exists m4, r2. auto.
Qed.

(** An inner loop, over the strong or over the weak relations of [i]. *)
Lemma inner_loop_refines (strong : bool) (i : nat) (uids : list UID) :
  (i < n)%nat -> (forall u, In u uids -> In u (dict_keys itds)) ->
  forall mL mR Lf Rf,
    mat_repr n mL Lf -> mat_repr n mR Rf ->
    exists mL' mR',
      for_each uids
        (if strong then strong_step itds epsl i else weak_step itds epsl theta i)
        (mL, mR) = Ok (mL', mR')
      /\ mat_repr n mL'
           (fold_left L_step (map (fun u => (strong, i, idx_of itds u)) uids) Lf)
      /\ mat_repr n mR'
           (fold_left (R_step e theta) (map (fun u => (strong, i, idx_of itds u)) uids) Rf).
Proof.
  intros Hi. induction uids as [| u uids IH]; intros Hin mL mR Lf Rf HL HR; simpl.
  - exists mL, mR. auto.
  - assert (Hu : In u (dict_keys itds)) by (apply Hin; now left).
    assert (Hstep : exists mL1 mR1,
               (if strong then strong_step itds epsl i else weak_step itds epsl theta i)
                 u (mL, mR) = Ok (mL1, mR1)
               /\ mat_repr n mL1 (L_step Lf (strong, i, idx_of itds u))
               /\ mat_repr n mR1 (R_step e theta Rf (strong, i, idx_of itds u))).
    { destruct strong; [now apply strong_step_refines | now apply weak_step_refines]. }
    destruct Hstep as (mL1 & mR1 & E1 & HL1 & HR1). rewrite E1. simpl.
    apply IH; [intros v Hv; apply Hin; now right | assumption | assumption].
Qed.

Hypothesis Hrisk : riskest_wf itds riskest.

Lemma strong_partner_in_population (u v : UID) :
  In v (strong_of riskest u) -> In v (dict_keys itds).
Proof.
  intros Hv. destruct Hrisk as [Hr Hsub]. apply Hsub.
  now apply (strong_in_riskest riskest u v Hr).
Qed.

Lemma weak_partner_in_population (u v : UID) :
  In v (weak_of riskest itds u) -> In v (dict_keys itds).
Proof. intros Hv. now apply (weak_in_population riskest itds u v). Qed.

(** The loop over the relations. *)
Lemma relation_loop_refines (idxs : list nat) :
  (forall i, In i idxs -> (i < n)%nat) ->
  forall mL mR Lf Rf,
    mat_repr n mL Lf -> mat_repr n mR Rf ->
    exists mL' mR',
      for_each idxs
        (fun i LR =>
           uid_i <- dict_getitem (idx2uid itds) i ;;
           LR <- for_each (dd_get (_find_strong_relations riskest) uid_i)
                          (strong_step itds epsl i) LR ;;
           for_each (dd_get (_find_weak_relations riskest itds
                               (_find_strong_relations riskest)) uid_i)
                    (weak_step itds epsl theta i) LR)
        (mL, mR) = Ok (mL', mR')
      /\ mat_repr n mL' (fold_left L_step (flat_map (edges_of itds riskest) idxs) Lf)
      /\ mat_repr n mR'
           (fold_left (R_step e theta) (flat_map (edges_of itds riskest) idxs) Rf).
Proof.
  induction idxs as [| i idxs IH]; intros Hlt mL mR Lf Rf HL HR; simpl.
  - exists mL, mR. auto.
  - assert (Hi : (i < n)%nat) by (apply Hlt; now left).
    rewrite (idx2uid_getitem itds i Hi). simpl.
    destruct (inner_loop_refines true i (strong_of riskest (uid_at itds i)) Hi
                (strong_partner_in_population (uid_at itds i)) mL mR Lf Rf HL HR)
      as (mL1 & mR1 & E1 & HL1 & HR1).
    simpl in E1. unfold strong_of in E1 at 1. rewrite E1. simpl.
    destruct (inner_loop_refines false i (weak_of riskest itds (uid_at itds i)) Hi
                (weak_partner_in_population (uid_at itds i)) mL1 mR1 _ _ HL1 HR1)
      as (mL2 & mR2 & E2 & HL2 & HR2).
    simpl in E2. unfold weak_of in E2 at 1. rewrite E2. simpl.
    unfold edges_of at 1 3. rewrite !fold_left_app.
    apply IH; [intros j Hj; apply Hlt; now right | assumption | assumption].
Qed.

Lemma truthy_div (x d : Q) : truthy d = true -> py_div x d = Ok (x / d).
Proof.
  unfold truthy, py_div. now destruct (Qeq_bool d 0).
Qed.

(** The loop over the diagonal. *)
Lemma diagonal_loop_refines (mL : matrix) (Lf : fmat) (idxs : list nat) :
  mat_repr n mL Lf ->
  (forall i, In i idxs -> (i < n)%nat) ->
  forall mR Rf,
    mat_repr n mR Rf ->
    exists mR',
      for_each idxs (diag_step itds epsl) (mL, mR) = Ok (mL, mR')
      /\ mat_repr n mR'
           (fun a b => if (a =? b)%nat && existsb (Nat.eqb a) idxs && truthy (Lf a a)
                       then e a / Lf a a else Rf a b).
Proof.
  intros HL. induction idxs as [| i idxs IH]; intros Hlt mR Rf HR; simpl.
  - exists mR. split; [reflexivity |]. intros a b Ha Hb.
    rewrite andb_false_r. simpl. now apply HR.
  - assert (Hi : (i < n)%nat) by (apply Hlt; now left).
    assert (Hlt' : forall j, In j idxs -> (j < n)%nat) by (intros j Hj; apply Hlt; now right).
    rewrite (HL i i Hi Hi). simpl. destruct (truthy (Lf i i)) eqn:Et.
    + rewrite (epsl_at_eps_at itds epsl i Hcov Hi). simpl.
      rewrite truthy_div by assumption. simpl.
      destruct (mat_set_spec n mR Rf i i (e i / Lf i i) HR Hi Hi) as [r1 [F1 G1]].
      rewrite F1. simpl.
      destruct (IH Hlt' r1 _ G1) as [mR' [E' H']].
      exists mR'. split; [exact E' |].
      intros a b Ha Hb. rewrite (H' a b Ha Hb). unfold upd.
      destruct (Nat.eqb_spec a b) as [<- | Nab]; simpl.
      * destruct (Nat.eqb_spec a i) as [-> | Nai]; simpl.
        -- rewrite Et. now destruct (existsb (Nat.eqb i) idxs).
        -- reflexivity.
      * destruct (Nat.eqb_spec a i) as [-> | Nai]; simpl; [| reflexivity].
        destruct (Nat.eqb_spec b i) as [-> | Nbi]; [congruence | reflexivity].
    + destruct (IH Hlt' mR Rf HR) as [mR' [E' H']].
      exists mR'. split; [exact E' |].
      intros a b Ha Hb. rewrite (H' a b Ha Hb).
      destruct (Nat.eqb_spec a b) as [<- | Nab]; simpl; [| reflexivity].
      destruct (Nat.eqb_spec a i) as [-> | Nai]; simpl; [| reflexivity].
      rewrite Et, andb_false_r. now destruct (existsb (Nat.eqb i) idxs).
Qed.

Lemma existsb_seq (a : nat) : (a < n)%nat -> existsb (Nat.eqb a) (seq 0 n) = true.
Proof.
  intros Ha. apply existsb_exists. exists a. split; [| apply Nat.eqb_refl].
  apply in_seq. lia.
Qed.

(** The solver returns, for the user at each index, the value [cidp_at]. *)
Lemma compute_CIDP_refines :
  compute_CIDP itds riskest epsl theta
  = Ok (map (fun i => (uid_at itds i, cidp_at itds riskest epsl theta i)) (seq 0 n)).
Proof.
  assert (Hseq : forall i, In i (seq 0 n) -> (i < n)%nat) by (intros i Hi; apply in_seq in Hi; lia).
  unfold compute_CIDP. cbv zeta.
  rewrite (map_result_Ok _ (fun i => repeat (- e i) n)).
  2:{ intros i Hi. now rewrite (epsl_at_eps_at itds epsl i Hcov (Hseq i Hi)). }
  simpl.
  destruct (relation_loop_refines (seq 0 n) Hseq
              (map (fun _ => repeat 0 n) (seq 0 n))
              (map (fun i => repeat (- e i) n) (seq 0 n))
              (fun _ _ => 0) (fun a _ => - e a)
              (mat_repr_rows n (fun _ => 0)) (mat_repr_rows n (fun a => - e a)))
    as (mL & mR & E1 & HL & HR).
  unfold matrix in E1 |- *. rewrite E1. simpl.
  destruct (diagonal_loop_refines mL _ (seq 0 n) HL Hseq mR _ HR) as [mR' [E2 HR']].
  unfold matrix in E2 |- *. rewrite E2. simpl.
  apply map_result_Ok. intros i Hi. apply Hseq in Hi.
  rewrite (idx2uid_getitem itds i Hi). simpl.
  unfold cidp_row.
  rewrite (map_result_Ok _ (fun j => L_final itds riskest i j
                                     * R_final itds riskest epsl theta j i)).
  - reflexivity.
  - intros j Hj. apply Hseq in Hj.
    rewrite (HL i j Hi Hj). simpl. rewrite (HR' j i Hj Hi). simpl.
    unfold R_final, L_final, R_edges, all_edges.
    now rewrite (existsb_seq j Hj), andb_true_r.
Qed.
End Refinement.

(* ================================================================== *)
(** * The bound solver: what the matrices hold                         *)
(* ================================================================== *)

Lemma fold_left_rel {A S1 S2} (I : S1 -> S2 -> Prop) (f : S1 -> A -> S1) (g : S2 -> A -> S2) :
  forall xs s1 s2,
    I s1 s2 ->
    (forall x s1 s2, In x xs -> I s1 s2 -> I (f s1 x) (g s2 x)) ->
    I (fold_left f xs s1) (fold_left g xs s2).
Proof.
  induction xs as [| x xs IH]; intros s1 s2 HI Hstep; simpl; [assumption |].
  apply IH.
  - apply Hstep; [now left | assumption].
  - intros y t1 t2 Hy. apply Hstep. now right.
Qed.

Lemma fold_left_pres {A S} (I : S -> Prop) (f : S -> A -> S) :
  forall xs s,
    I s -> (forall x s, In x xs -> I s -> I (f s x)) -> I (fold_left f xs s).
Proof.
  induction xs as [| x xs IH]; intros s HI Hstep; simpl; [assumption |].
  apply IH.
  - apply Hstep; [now left | assumption].
  - intros y t Hy. apply Hstep. now right.
Qed.

Lemma truthy_true (x : Q) : truthy x = true <-> ~ x == 0.
Proof.
  unfold truthy. rewrite negb_true_iff. split.
  - intros E H. apply Qeq_bool_iff in H. congruence.
  - intros H. destruct (Qeq_bool x 0) eqn:E; [| reflexivity].
    apply Qeq_bool_iff in E. contradiction.
Qed.

Lemma truthy_false (x : Q) : truthy x = false <-> x == 0.
Proof.
  unfold truthy. rewrite negb_false_iff. apply Qeq_bool_iff.
Qed.

Section Folds.
Variable ops : list edge.
Hypothesis Hirr : forall s i j, In (s, i, j) ops -> i <> j.

Lemma existsb_snoc {A} (f : A -> bool) (l : list A) (x : A) :
  existsb f (l ++ [x]) = existsb f l || f x.
Proof. rewrite existsb_app. simpl. now rewrite orb_false_r. Qed.

(** Off the diagonal [mat_L] is -1 where a pass joined the two
    indices and 0 elsewhere. *)
Lemma L_fold_off_diagonal (a b : nat) :
  a <> b ->
  fold_left L_step ops (fun _ _ => 0) a b
  == if existsb (joinsb a b) ops then - (1) else 0.
Proof.
  intros Nab.
  apply (fold_left_inv
           (fun pre Lf => Lf a b == if existsb (joinsb a b) pre then - (1) else 0)
           L_step ops []); [reflexivity |].
  intros done [[s i] j] Lf [rest Hrest] IH. simpl in Hrest.
  assert (Nij : i <> j).
  { apply (Hirr s). rewrite Hrest. apply in_or_app. right. now left. }
  rewrite existsb_snoc. unfold L_step, upd, joinsb.
  destruct (Nat.eqb_spec a i), (Nat.eqb_spec b j), (Nat.eqb_spec a j), (Nat.eqb_spec b i);
    simpl; subst; try congruence; try reflexivity;
    rewrite ?orb_true_r, ?orb_false_r; try reflexivity; exact IH.
Qed.

Lemma L_step_diagonal (Lf : fmat) (s : bool) (i j a : nat) :
  i <> j ->
  L_step Lf (s, i, j) a a
  = if touchesb a (s, i, j) then Lf a a + (if s then 1 # 2 else 1) else Lf a a.
Proof.
  intros Nij. unfold L_step, upd, touchesb.
  destruct (Nat.eqb_spec a i) as [-> | Nai]; simpl.
  - destruct (Nat.eqb_spec i j) as [E | _]; [congruence |]. simpl.
    now rewrite ?Nat.eqb_refl.
  - destruct (Nat.eqb_spec a j) as [-> | Naj]; simpl; [| reflexivity].
    destruct (Nat.eqb_spec j i) as [E | _]; [congruence | reflexivity].
Qed.

(** On the diagonal [mat_L] is positive where a pass touched the index
    and 0 elsewhere. *)
Lemma L_fold_diagonal (a : nat) :
  let d := fold_left L_step ops (fun _ _ => 0) a a in
  if existsb (touchesb a) ops then 0 < d else d == 0.
Proof.
  apply (fold_left_inv
           (fun pre Lf => 0 <= Lf a a
                          /\ if existsb (touchesb a) pre then 0 < Lf a a else Lf a a == 0)
           L_step ops []); [split; [lra | reflexivity] |].
  intros done [[s i] j] Lf [rest Hrest] [H0 IH]. simpl in Hrest.
  assert (Nij : i <> j).
  { apply (Hirr s). rewrite Hrest. apply in_or_app. right. now left. }
  rewrite existsb_snoc, L_step_diagonal by assumption.
  assert (Hw : 0 < (if s then 1 # 2 else 1)) by (destruct s; reflexivity).
  destruct (existsb (touchesb a) done), (touchesb a (s, i, j)); simpl; split; lra.
Qed.

Variable theta : Q.
Hypothesis Htheta : 0 <= theta.

Lemma K_fold_nonneg (a b : nat) : 0 <= fold_left (K_step theta) ops (fun _ _ => 1) a b.
Proof.
  revert a b.
  apply (fold_left_pres (fun Kf : fmat => forall a b, 0 <= Kf a b)); [intros; lra |].
  intros [[s i] j] Kf _ IH a b. unfold K_step, upd.
  destruct s; destruct ((a =? j)%nat && (b =? i)%nat), ((a =? i)%nat && (b =? j)%nat);
    try lra; apply IH.
Qed.

Variable e : nat -> Q.

(** [mat_R[a][b]] is [- epsl[a]] times a factor that does not depend on
    the budgets. *)
Lemma R_fold_factor (a b : nat) :
  fold_left (R_step e theta) ops (fun a _ => - e a) a b
  == - e a * fold_left (K_step theta) ops (fun _ _ => 1) a b.
Proof.
  revert a b.
  apply (fold_left_rel (fun Rf Kf : fmat => forall a b, Rf a b == - e a * Kf a b));
    [intros; lra |].
  intros [[s i] j] Rf Kf _ IH a b. unfold R_step, K_step, upd.
  destruct s; destruct (Nat.eqb_spec a j), (Nat.eqb_spec b i),
    (Nat.eqb_spec a i), (Nat.eqb_spec b j); simpl; subst; try lra; apply IH.
Qed.
End Folds.

(** ** The passes of the solver *)

Lemma all_edges_In (itds : Population) (riskest : dict UID Trajectory)
    (s : bool) (i j : nat) :
  In (s, i, j) (all_edges itds riskest) <->
  (i < length itds)%nat
  /\ exists u, j = idx_of itds u
               /\ In u (if s then strong_of riskest (uid_at itds i)
                        else weak_of riskest itds (uid_at itds i)).
Proof.
  unfold all_edges, edges_of. rewrite in_flat_map. split.
  - intros (i' & Hi' & Hin). apply in_seq in Hi'.
    apply in_app_or in Hin as [Hin | Hin]; apply in_map_iff in Hin as (u & [= <- <- <-] & Hu);
      (split; [lia | exists u; auto]).
  - intros (Hi & u & -> & Hu). exists i. split; [apply in_seq; lia |].
    apply in_or_app. destruct s; [left | right]; apply in_map_iff; exists u; auto.
Qed.

Section Edges.
Variable itds : Population.
Variable riskest : dict UID Trajectory.
Hypothesis Hwf : dict_wf itds.
Hypothesis Hrisk : riskest_wf itds riskest.

Lemma partner_facts (s : bool) (u v : UID) :
  In v (if s then strong_of riskest u else weak_of riskest itds u) ->
  u <> v /\ In v (dict_keys itds).
Proof.
  destruct s; intros Hv.
  - split; [| now apply (strong_partner_in_population itds riskest Hrisk u v)].
    apply strong_spec in Hv; [tauto | apply Hrisk].
  - split; [| now apply (weak_in_population riskest itds u v)].
    apply weak_spec in Hv. tauto.
Qed.

Lemma all_edges_irreflexive (s : bool) (i j : nat) :
  In (s, i, j) (all_edges itds riskest) -> i <> j.
Proof.
  intros Hin E. apply all_edges_In in Hin as (Hi & u & -> & Hu).
  apply partner_facts in Hu as [N Hk]. apply N.
  apply (idx_of_inj itds Hwf); [now apply uid_at_In | assumption |].
  now rewrite idx_of_uid_at.
Qed.

Lemma all_edges_bounds (s : bool) (i j : nat) :
  In (s, i, j) (all_edges itds riskest) -> (i < length itds)%nat /\ (j < length itds)%nat.
Proof.
  intros Hin. apply all_edges_In in Hin as (Hi & u & -> & Hu).
  apply partner_facts in Hu as [_ Hk]. split; [assumption |].
  apply (uid2idx_In itds Hwf u Hk).
Qed.

(** An index is touched exactly when its user has a relation or is the
    relation of another user. *)
Lemma touched_iff (u : UID) :
  In u (dict_keys itds) ->
  (existsb (touchesb (idx_of itds u)) (all_edges itds riskest) = true <->
   exists (s : bool) (v : UID),
     In v (if s then strong_of riskest u else weak_of riskest itds u)
               \/ In u (if s then strong_of riskest v else weak_of riskest itds v)).
Proof.
  intros Hu. destruct (uid2idx_In itds Hwf u Hu) as (_ & Hlt & Hat).
  rewrite existsb_exists. split.
  - intros ([[s i] j] & Hin & Ht). unfold touchesb in Ht.
    apply all_edges_In in Hin as (Hi & w & -> & Hw).
    apply orb_true_iff in Ht as [Ht | Ht]; apply Nat.eqb_eq in Ht.
    + exists s, w. left. subst i. now rewrite Hat in Hw.
    + exists s, (uid_at itds i). right.
      apply partner_facts in Hw as Hw'. destruct Hw' as [_ Hk].
      apply (idx_of_inj itds Hwf u w Hu Hk) in Ht. now subst w.
  - intros (s & v & [Hv | Hv]).
    + exists (s, idx_of itds u, idx_of itds v). split.
      * apply all_edges_In. split; [assumption |]. exists v. rewrite Hat. auto.
      * unfold touchesb. now rewrite Nat.eqb_refl.
    + assert (Hvk : In v (dict_keys itds)).
      { destruct s.
        - apply Hrisk. now apply (strong_in_riskest riskest v u (proj1 Hrisk)).
        - now apply (weak_in_population riskest itds v u). }
      destruct (uid2idx_In itds Hwf v Hvk) as (_ & Hltv & Hatv).
      exists (s, idx_of itds v, idx_of itds u). split.
      * apply all_edges_In. split; [assumption |]. exists u. rewrite Hatv. auto.
      * unfold touchesb. now rewrite Nat.eqb_refl, orb_true_r.
Qed.

Lemma unrelated_untouched (u : UID) :
  In u (dict_keys itds) -> unrelated itds riskest u ->
  existsb (touchesb (idx_of itds u)) (all_edges itds riskest) = false.
Proof.
  intros Hu (Hs & Hw & Hrev).
  destruct (existsb (touchesb (idx_of itds u)) (all_edges itds riskest)) eqn:E;
    [| reflexivity].
  apply touched_iff in E as (s & v & [Hv | Hv]); [| | assumption].
  - destruct s; [rewrite Hs in Hv | rewrite Hw in Hv]; destruct Hv.
  - assert (Hvk : In v (dict_keys itds)).
    { destruct s.
      - apply Hrisk. now apply (strong_in_riskest riskest v u (proj1 Hrisk)).
      - now apply (weak_in_population riskest itds v u). }
    destruct (Hrev v Hvk) as [H1 H2]. destruct s; contradiction.
Qed.

Lemma joined_touched (a b : nat) (ops : list edge) :
  existsb (joinsb a b) ops = true -> existsb (touchesb a) ops = true.
Proof.
  rewrite !existsb_exists. intros ([[s i] j] & Hin & Hj).
  exists (s, i, j). split; [assumption |]. unfold joinsb in Hj. unfold touchesb.
  destruct (a =? i)%nat, (a =? j)%nat; simpl in *; try reflexivity.
  discriminate.
Qed.

(** ** The disclosure value is a weighted sum of budgets *)

Variable theta : Q.

Lemma truthy_L_final (i : nat) :
  truthy (L_final itds riskest i i) = existsb (touchesb i) (all_edges itds riskest).
Proof.
  assert (H := L_fold_diagonal (all_edges itds riskest) all_edges_irreflexive i).
  simpl in H. fold (L_final itds riskest) in H.
  destruct (existsb (touchesb i) (all_edges itds riskest)).
  - apply truthy_true. lra.
  - now apply truthy_false.
Qed.

Lemma L_final_off_diagonal (i j : nat) :
  i <> j ->
  L_final itds riskest i j
  == if existsb (joinsb i j) (all_edges itds riskest) then - (1) else 0.
Proof. apply L_fold_off_diagonal. exact all_edges_irreflexive. Qed.

Lemma term_linear (epsl : dict UID Q) (i j : nat) :
  L_final itds riskest i j * R_final itds riskest epsl theta j i
  == coef itds riskest theta i j * eps_at itds epsl j.
Proof.
  unfold coef, R_final. destruct (Nat.eqb_spec i j) as [<- | N].
  - rewrite Nat.eqb_refl. simpl. destruct (truthy (L_final itds riskest i i)) eqn:Et.
    + apply truthy_true in Et. field. exact Et.
    + apply truthy_false in Et. rewrite Et. ring.
  - destruct (Nat.eqb_spec j i) as [E | _]; [congruence |]. simpl.
    unfold R_edges. rewrite R_fold_factor. fold (K_final itds riskest theta). ring.
Qed.

Lemma coef_nonneg (i j : nat) : 0 <= theta -> 0 <= coef itds riskest theta i j.
Proof.
  intros Ht. unfold coef. destruct (Nat.eqb_spec i j) as [<- | N].
  - destruct (truthy _); lra.
  - assert (HK := K_fold_nonneg (all_edges itds riskest) theta Ht j i).
    fold (K_final itds riskest theta) in HK.
    rewrite (L_final_off_diagonal i j N).
    destruct (existsb (joinsb i j) (all_edges itds riskest)); lra.
Qed.

Lemma coef_untouched (i j : nat) :
  existsb (touchesb i) (all_edges itds riskest) = false ->
  coef itds riskest theta i j == 0.
Proof.
  intros Hu. unfold coef. destruct (Nat.eqb_spec i j) as [<- | N].
  - now rewrite truthy_L_final, Hu.
  - rewrite (L_final_off_diagonal i j N).
    destruct (existsb (joinsb i j) (all_edges itds riskest)) eqn:E; [| ring].
    apply joined_touched in E. congruence.
Qed.

Lemma coef_diagonal (i : nat) :
  coef itds riskest theta i i
  = if existsb (touchesb i) (all_edges itds riskest) then 1 else 0.
Proof. unfold coef. now rewrite Nat.eqb_refl, truthy_L_final. Qed.

Lemma py_sum_ext {A} (f g : A -> Q) (l : list A) :
  (forall x, In x l -> f x == g x) -> py_sum (map f l) == py_sum (map g l).
Proof.
  induction l as [| x l IH]; intros Hfg; simpl; [reflexivity |].
  rewrite !py_sum_cons, IH, (Hfg x); [reflexivity | now left |].
  intros y Hy. apply Hfg. now right.
Qed.

Lemma cidp_at_linear (epsl : dict UID Q) (i : nat) :
  cidp_at itds riskest epsl theta i
  == py_sum (map (fun j => coef itds riskest theta i j * eps_at itds epsl j)
                 (seq 0 (length itds))).
Proof.
  unfold cidp_at. apply py_sum_ext. intros j _. apply term_linear.
Qed.
End Edges.

(** ** Reading the result of the solver *)

Lemma uid_at_inj (itds : Population) (i k : nat) :
  dict_wf itds -> (i < length itds)%nat -> (k < length itds)%nat ->
  uid_at itds i = uid_at itds k -> i = k.
Proof.
  intros Hwf Hi Hk E.
  rewrite <- (idx_of_uid_at itds Hwf i Hi), <- (idx_of_uid_at itds Hwf k Hk).
  now rewrite E.
Qed.

Lemma tabulate_get (itds : Population) (f : nat -> Q) (l : list nat) (k : nat) :
  dict_wf itds -> (forall i, In i l -> (i < length itds)%nat) -> In k l ->
  dict_get (map (fun i => (uid_at itds i, f i)) l) (uid_at itds k) = Some (f k).
Proof.
  intros Hwf. induction l as [| i l IH]; intros Hlt Hk; [destruct Hk |]. simpl.
  destruct (key_eq_dec (uid_at itds k) (uid_at itds i)) as [E | N].
  - apply uid_at_inj in E; [now subst | assumption | | apply Hlt; now left].
    apply Hlt. exact Hk.
  - apply IH; [intros j Hj; apply Hlt; now right |].
    destruct Hk as [-> | Hk]; [congruence | assumption].
Qed.

Lemma tabulate_nth {A} (l : list A) (d : A) :
  map (fun i => nth i l d) (seq 0 (length l)) = l.
Proof.
  induction l as [| x l IH]; simpl; [reflexivity |].
  f_equal. rewrite <- seq_shift, map_map. exact IH.
Qed.

Lemma tabulate_keys (itds : Population) (f : nat -> Q) :
  dict_keys (map (fun i => (uid_at itds i, f i)) (seq 0 (length itds)))
  = sorted (dict_keys itds).
Proof.
  unfold dict_keys at 1. rewrite map_map. simpl.
  rewrite <- (sorted_keys_length itds). apply tabulate_nth.
Qed.

(** With well-formed inputs the solver returns a value for every user of
    the population, and that value is [cidp_at] at the user's index. *)
Lemma compute_CIDP_value
    (itds : Population) (riskest : dict UID Trajectory) (epsl : dict UID Q) (theta : Q) :
  dict_wf itds -> riskest_wf itds riskest -> epsl_covers itds epsl ->
  exists cidp,
    compute_CIDP itds riskest epsl theta = Ok cidp
    /\ dict_keys cidp = sorted (dict_keys itds)
    /\ forall u, In u (dict_keys itds) ->
                 dict_get cidp u = Some (cidp_at itds riskest epsl theta (idx_of itds u)).
Proof.
  intros Hwf Hrisk Hcov. eexists. split; [now apply compute_CIDP_refines |].
  split; [apply tabulate_keys |].
  intros u Hu. destruct (uid2idx_In itds Hwf u Hu) as (_ & Hlt & Hat).
  rewrite <- Hat at 1. apply tabulate_get; [assumption | |].
  - intros i Hi. apply in_seq in Hi. lia.
  - apply in_seq. lia.
Qed.

(** ** Shifting budgets *)

Lemma shift_loop_spec (delta : Q) (uids : list UID) :
  forall epsl,
    (forall u, In u uids -> In u (dict_keys epsl)) ->
    exists epsl',
      for_each uids
        (fun uid_ epsl => e <- dict_getitem epsl uid_ ;; Ok (dict_set epsl uid_ (e + delta)))
        epsl = Ok epsl'
      /\ dict_keys epsl' = dict_keys epsl
      /\ forall u e, dict_get epsl u = Some e ->
           exists e', dict_get epsl' u = Some e'
                      /\ e' == e + inject_Z (Z.of_nat (count_occ Z.eq_dec uids u)) * delta.
Proof.
  induction uids as [| x uids IH]; intros epsl Hin; simpl.
  - exists epsl. repeat split. intros u e E. exists e. split; [assumption | ring].
  - destruct (dict_keys_In epsl x (Hin x (or_introl eq_refl))) as [ex Ex].
    unfold dict_getitem at 1. rewrite Ex. simpl.
    assert (Hk : dict_keys (dict_set epsl x (ex + delta)) = dict_keys epsl).
    { rewrite dict_keys_set.
      replace (dict_contains epsl x) with true; [reflexivity |].
      unfold dict_contains. now rewrite Ex. }
    destruct (IH (dict_set epsl x (ex + delta))) as [epsl' (E' & K' & G')].
    { intros u Hu. rewrite Hk. apply Hin. now right. }
    exists epsl'. split; [exact E' |]. split; [congruence |].
    intros u e Eu. destruct (Z.eq_dec x u) as [-> | N].
    + destruct (G' u (ex + delta)) as [e' [Ee' He']]; [apply dict_get_set_eq |].
      exists e'. split; [assumption |]. rewrite He'.
      assert (e = ex) by congruence. subst e.
      rewrite Nat2Z.inj_succ, <- Z.add_1_r, inject_Z_plus. simpl (inject_Z 1). ring.
    + destruct (G' u e) as [e' [Ee' He']]; [now rewrite dict_get_set_neq |].
      exists e'. split; [assumption | exact He'].
Qed.

Lemma epsl_covers_keys (itds : Population) (epsl epsl' : dict UID Q) :
  dict_keys epsl' = dict_keys epsl -> epsl_covers itds epsl -> epsl_covers itds epsl'.
Proof.
  intros Hk Hc u Hu. apply dict_keys_In. rewrite Hk.
  destruct (Hc u Hu) as [e E]. eapply dict_get_In_keys; eauto.
Qed.

Lemma count_occ_nonneg (uids : list UID) (u : UID) :
  0 <= inject_Z (Z.of_nat (count_occ Z.eq_dec uids u)).
Proof. change 0 with (inject_Z 0). rewrite <- Zle_Qle. lia. Qed.

Lemma count_occ_In_pos (uids : list UID) (u : UID) :
  In u uids -> 1 <= inject_Z (Z.of_nat (count_occ Z.eq_dec uids u)).
Proof.
  intros Hu. apply (count_occ_In Z.eq_dec) in Hu.
  change 1 with (inject_Z 1). rewrite <- Zle_Qle. lia.
Qed.

(** ** Sums of weighted budgets *)

Lemma Qmult_le_l_weak (c x y : Q) : 0 <= c -> x <= y -> c * x <= c * y.
Proof.
  intros Hc Hxy. rewrite (Qmult_comm c x), (Qmult_comm c y).
  now apply Qmult_le_compat_r.
Qed.

Lemma py_sum_le {A} (f g : A -> Q) (l : list A) :
  (forall x, In x l -> f x <= g x) -> py_sum (map f l) <= py_sum (map g l).
Proof.
  induction l as [| x l IH]; intros Hfg; simpl; [unfold py_sum; simpl; lra |].
  rewrite !py_sum_cons.
  assert (f x <= g x) by (apply Hfg; now left).
  assert (py_sum (map f l) <= py_sum (map g l)) by (apply IH; intros y Hy; apply Hfg; now right).
  lra.
Qed.


Lemma py_sum_zero {A} (f : A -> Q) (l : list A) :
  (forall x, In x l -> f x == 0) -> py_sum (map f l) == 0.
Proof.
  induction l as [| x l IH]; intros Hf; simpl; [reflexivity |].
  rewrite py_sum_cons, IH, (Hf x); [ring | now left |].
  intros y Hy. apply Hf. now right.
Qed.

(* ================================================================== *)
(** * The bound solver: a user without relations                       *)
(* ================================================================== *)

(** An index that no pass touches has disclosure value 0. *)
Lemma cidp_at_untouched
    (itds : Population) (riskest : dict UID Trajectory) (epsl : dict UID Q) (theta : Q)
    (i : nat) :
  dict_wf itds -> riskest_wf itds riskest ->
  existsb (touchesb i) (all_edges itds riskest) = false ->
  cidp_at itds riskest epsl theta i == 0.
Proof.
  intros Hwf Hrisk Hu. rewrite (cidp_at_linear itds riskest theta epsl i).
  apply py_sum_zero. intros j _.
  rewrite (coef_untouched itds riskest Hwf Hrisk theta i j Hu). ring.
Qed.

(** C1, as the code has it. For a population, an assignment over its
    users, any budget vector that has a budget for every user, and any
    theta: a user of the population that has no strong and no weak
    relation, in either direction, receives the disclosure value 0,
    whatever its budget is. *)
Theorem unrelated_user_has_zero_disclosure
    (itds : Population) (riskest : dict UID Trajectory) (epsl : dict UID Q) (theta : Q)
    (u : UID)
    (Hwf : dict_wf itds)
    (Hrisk : riskest_wf itds riskest)
    (Hcov : epsl_covers itds epsl)
    (Hu : In u (dict_keys itds))
    (Hunrel : unrelated itds riskest u) :
  exists cidp c,
    compute_CIDP itds riskest epsl theta = Ok cidp
    /\ dict_get cidp u = Some c
    /\ c == 0.
Proof.
  destruct (compute_CIDP_value itds riskest epsl theta Hwf Hrisk Hcov) as [cidp (E & _ & Hget)].
  exists cidp, (cidp_at itds riskest epsl theta (idx_of itds u)).
  split; [exact E |]. split; [now apply Hget |].
  apply cidp_at_untouched; try assumption.
  now apply unrelated_untouched.
Qed.

(* ================================================================== *)
(** * The bound solver: monotonicity                                   *)
(* ================================================================== *)

Lemma shift_loop_fixes (delta : Q) (uids : list UID) :
  forall epsl epsl',
    for_each uids
      (fun uid_ epsl => e <- dict_getitem epsl uid_ ;; Ok (dict_set epsl uid_ (e + delta)))
      epsl = Ok epsl' ->
    forall v, ~ In v uids -> dict_get epsl' v = dict_get epsl v.
Proof.
  induction uids as [| x uids IH]; intros epsl epsl' E v Hv; simpl in E.
  - now injection E as <-.
  - apply bind_Ok in E as [epsl1 [E1 E2]]. apply bind_Ok in E1 as [ex [_ [= <-]]].
    rewrite (IH _ _ E2 v) by (intros Hi; apply Hv; now right).
    apply dict_get_set_neq. intros ->. apply Hv. now left.
Qed.

Section Shift.
Variable itds : Population.
Variable riskest : dict UID Trajectory.
Hypothesis Hwf : dict_wf itds.
Hypothesis Hrisk : riskest_wf itds riskest.

Lemma affected_members (affected : dict UID (list UID)) (u v : UID) :
  _affected_by riskest itds = Ok affected ->
  In u (dict_keys itds) -> In v (dd_get affected u) -> In v (dict_keys itds).
Proof.
  intros E Hu Hv.
  destruct (affected_by_spec riskest itds Hrisk) as [aff (E' & _ & Hin)].
  assert (aff = affected) by congruence. subst aff.
  apply (Hin u v Hu) in Hv as [-> | [Hs | Hw]]; [assumption | |].
  - apply Hrisk. now apply (strong_in_riskest riskest v u (proj1 Hrisk)).
  - now apply (weak_in_population riskest itds v u).
Qed.

Lemma affected_self (affected : dict UID (list UID)) (u : UID) :
  _affected_by riskest itds = Ok affected ->
  In u (dict_keys itds) ->
  dict_getitem affected u = Ok (dd_get affected u) /\ In u (dd_get affected u).
Proof.
  intros E Hu.
  destruct (affected_by_spec riskest itds Hrisk) as [aff (E' & Hk & Hin)].
  assert (aff = affected) by congruence. subst aff.
  split; [| apply Hin; [assumption | now left]].
  rewrite <- Hk in Hu. apply dict_keys_In in Hu as [l El].
  unfold dict_getitem, dd_get. now rewrite El.
Qed.

(** The budgets after [for uid_ in affected[uid]: epsl[uid_] += delta]. *)
Lemma shift_budgets_spec (affected : dict UID (list UID)) (u : UID) (delta : Q)
    (epsl : dict UID Q) :
  _affected_by riskest itds = Ok affected ->
  In u (dict_keys itds) -> epsl_covers itds epsl ->
  exists epsl' (k : nat -> Q),
    shift_budgets affected u delta epsl = Ok epsl'
    /\ dict_keys epsl' = dict_keys epsl
    /\ (forall v, ~ In v (dd_get affected u) -> dict_get epsl' v = dict_get epsl v)
    /\ (forall i, (i < length itds)%nat ->
                  0 <= k i /\ eps_at itds epsl' i == eps_at itds epsl i + k i * delta)
    /\ 1 <= k (idx_of itds u).
Proof.
  intros E Hu Hcov. destruct (affected_self affected u E Hu) as [Hget Hself].
  unfold shift_budgets. rewrite Hget. simpl.
  destruct (shift_loop_spec delta (dd_get affected u) epsl) as [epsl' (E' & K' & G')].
  { intros v Hv. apply (affected_members affected u v E Hu) in Hv.
    destruct (Hcov v Hv) as [e Ee]. eapply dict_get_In_keys; eauto. }
  exists epsl', (fun i => inject_Z (Z.of_nat (count_occ Z.eq_dec (dd_get affected u)
                                              (uid_at itds i)))).
  split; [exact E' |]. split; [exact K' |].
  split; [now apply shift_loop_fixes with (delta := delta) |]. split.
  - intros i Hi. split; [apply count_occ_nonneg |].
    unfold eps_at. destruct (Hcov _ (uid_at_In itds i Hi)) as [e Ee]. rewrite Ee.
    destruct (G' _ _ Ee) as [e' [Ee' He']]. now rewrite Ee'.
  - destruct (uid2idx_In itds Hwf u Hu) as (_ & _ & Hat). rewrite Hat.
    now apply count_occ_In_pos.
Qed.

Variable theta : Q.
Hypothesis Htheta : 0 <= theta.

(** Raising budgets never lowers a disclosure value, and raising the
    budget of a user that has relations raises its own disclosure value
    by at least as much. *)
Lemma cidp_at_monotone (epsl epsl' : dict UID Q) (i : nat) :
  (forall j, (j < length itds)%nat -> eps_at itds epsl j <= eps_at itds epsl' j) ->
  cidp_at itds riskest epsl theta i <= cidp_at itds riskest epsl' theta i.
Proof.
  intros Hle. rewrite !cidp_at_linear. apply py_sum_le.
  intros j Hj. apply in_seq in Hj.
  apply Qmult_le_l_weak; [| apply Hle; lia].
  now apply coef_nonneg.
Qed.

End Shift.

(** C4. For a population, an assignment over its users, a budget vector
    with a budget for every user, theta in (0,1), a user [u] of the
    population and a step beta > 0: adding beta to the budget of every
    member of affected[u], all other budgets staying as they are, gives a
    disclosure value for [u] that is not smaller than before. *)
Theorem CIDP_monotone_in_affected_budgets
    (itds : Population) (riskest : dict UID Trajectory) (epsl : dict UID Q)
    (theta beta : Q) (u : UID)
    (Hwf : dict_wf itds)
    (Hrisk : riskest_wf itds riskest)
    (Hcov : epsl_covers itds epsl)
    (Htheta : 0 < theta /\ theta < 1)
    (Hbeta : 0 < beta)
    (Hu : In u (dict_keys itds)) :
  exists affected epsl' cidp cidp' c c',
    _affected_by riskest itds = Ok affected
    /\ shift_budgets affected u beta epsl = Ok epsl'
    /\ (forall v, ~ In v (dd_get affected u) -> dict_get epsl' v = dict_get epsl v)
    /\ compute_CIDP itds riskest epsl theta = Ok cidp
    /\ compute_CIDP itds riskest epsl' theta = Ok cidp'
    /\ dict_get cidp u = Some c
    /\ dict_get cidp' u = Some c'
    /\ c <= c'.
Proof.
  destruct (affected_by_spec riskest itds Hrisk) as [affected (Ea & _ & _)].
  destruct (shift_budgets_spec itds riskest Hwf Hrisk affected u beta epsl Ea Hu Hcov)
    as (epsl' & k & Es & Hk & Hfix & Hshift & _).
  assert (Hcov' : epsl_covers itds epsl') by now apply (epsl_covers_keys itds epsl epsl').
  destruct (compute_CIDP_value itds riskest epsl theta Hwf Hrisk Hcov) as [cidp (E & _ & Hg)].
  destruct (compute_CIDP_value itds riskest epsl' theta Hwf Hrisk Hcov')
    as [cidp' (E' & _ & Hg')].
  exists affected, epsl', cidp, cidp'.
  exists (cidp_at itds riskest epsl theta (idx_of itds u)).
  exists (cidp_at itds riskest epsl' theta (idx_of itds u)).
  repeat (split; [solve [auto] |]).
  apply cidp_at_monotone; [assumption | assumption | lra |].
  intros j Hj. destruct (Hshift j Hj) as [H0 He]. rewrite He.
  assert (0 <= k j * beta) by (apply Qmult_le_0_compat; lra). lra.
Qed.

(* ================================================================== *)
(** * The budget optimiser terminates                                  *)
(* ================================================================== *)

Lemma Qltb_true (x y : Q) : Qltb x y = true <-> x < y.
Proof.
  unfold Qltb. rewrite negb_true_iff. split.
  - intros E. apply Qnot_le_lt. intros H. apply Qle_bool_iff in H. congruence.
  - intros H. destruct (Qle_bool y x) eqn:E; [| reflexivity].
    apply Qle_bool_iff in E. lra.
Qed.

Lemma Qltb_false (x y : Q) : Qltb x y = false <-> y <= x.
Proof.
  unfold Qltb. rewrite negb_false_iff. apply Qle_bool_iff.
Qed.

Lemma Qle_bool_false (x y : Q) : Qle_bool x y = false <-> y < x.
Proof.
  split.
  - intros E. apply Qnot_le_lt. intros H. apply Qle_bool_iff in H. congruence.
  - intros H. destruct (Qle_bool x y) eqn:E; [| reflexivity].
    apply Qle_bool_iff in E. lra.
Qed.


Lemma Qn_nonneg (m : nat) : 0 <= Qn m.
Proof. unfold Qn. change 0 with (inject_Z 0). rewrite <- Zle_Qle. lia. Qed.

Lemma Q_archimedean (x : Q) : exists m : nat, x < Qn m.
Proof.
  exists (Z.to_nat (Qfloor x + 1)). unfold Qn.
  assert (H := Qlt_floor x).
  destruct (Z_le_gt_dec 0 (Qfloor x + 1)) as [Hp | Hn].
  - now rewrite Z2Nat.id.
  - replace (Z.to_nat (Qfloor x + 1)) with 0%nat by lia.
    assert (H0 : inject_Z (Qfloor x + 1) < inject_Z 0) by (rewrite <- Zlt_Qlt; lia).
    simpl. simpl in H0. lra.
Qed.



Lemma for_each_M_cons {A S} (body : A -> S -> M S) (x : A) (xs : list A) (s : S) (w : world) :
  for_each_M (x :: xs) body s w
  = match body x s w with
    | Done s' w' => for_each_M xs body s' w'
    | Raised e w' => Raised e w'
    | OutOfFuel => OutOfFuel
    end.
Proof. reflexivity. Qed.

Section Optimiser.
Variable itds : Population.
Variable riskest : dict UID Trajectory.
Variable beta : Q.
Variable affected : dict UID (list UID).
Hypothesis Hwf : dict_wf itds.
Hypothesis Hrisk : riskest_wf itds riskest.
Hypothesis Hbeta : 0 < beta.
Hypothesis Haff : _affected_by riskest itds = Ok affected.

Local Abbreviation touched i := (existsb (touchesb i) (all_edges itds riskest)).
Local Abbreviation cidp_of epsl u :=
  (cidp_at itds riskest epsl theta_default (idx_of itds u)).


Lemma untouched_not_affected (u : UID) (i : nat) :
  In u (dict_keys itds) -> touched (idx_of itds u) = true ->
  (i < length itds)%nat -> touched i = false ->
  ~ In (uid_at itds i) (dd_get affected u).
Proof.
  intros Hu Ht Hi Hn Hin.
  destruct (affected_by_spec riskest itds Hrisk) as [aff (E' & _ & Hspec)].
  assert (aff = affected) by congruence. subst aff.
  assert (Hk := uid_at_In itds i Hi).
  assert (Hti : touched i = true); [| congruence].
  apply (Hspec u _ Hu) in Hin as [E | [Hs | Hw]].
  - rewrite <- E in Ht. now rewrite idx_of_uid_at in Ht.
  - rewrite <- (idx_of_uid_at itds Hwf i Hi).
    apply (touched_iff itds riskest Hwf Hrisk _ Hk). exists true, u. now left.
  - rewrite <- (idx_of_uid_at itds Hwf i Hi).
    apply (touched_iff itds riskest Hwf Hrisk _ Hk). exists false, u. now left.
Qed.







End Optimiser.

Lemma initial_budgets_get (itds : Population) (epsl_init : Q) (u : UID) :
  In u (dict_keys itds) ->
  dict_get (map (fun '(uid, _) => (uid, epsl_init)) itds) u = Some epsl_init.
Proof.
  induction itds as [| [uid itd] itds IH]; simpl; [tauto |].
  intros [-> | Hu].
  - destruct (key_eq_dec u u); congruence.
  - destruct (key_eq_dec u uid); [reflexivity | now apply IH].
Qed.



(* ================================================================== *)
(** * The sanitiser                                                    *)
(* ================================================================== *)

Lemma insert_by_risk_In {A} (x y : A * Q) (l : list (A * Q)) :
  In y (insert_by_risk x l) -> y = x \/ In y l.
Proof.
  induction l as [| z l IH]; simpl.
  - intros [<- | []]. now left.
  - destruct (Qle_bool (snd x) (snd z)); simpl.
    + intros [<- | H]; auto.
    + intros [<- | H]; [right; now left |]. destruct (IH H); auto.
Qed.

Lemma sorted_by_risk_In {A} (y : A * Q) (l : list (A * Q)) :
  In y (sorted_by_risk l) -> In y l.
Proof.
  unfold sorted_by_risk. induction l as [| x l IH]; simpl; [tauto |].
  intros H. apply insert_by_risk_In in H as [-> | H]; auto.
Qed.

Lemma map_result_all {A B} (P : B -> Prop) (f : A -> result B) (xs : list A) :
  (forall x, In x xs -> exists y, f x = Ok y /\ P y) ->
  exists ys, map_result f xs = Ok ys /\ forall y, In y ys -> P y.
Proof.
  induction xs as [| x xs IH]; intros Hf; simpl.
  - exists []. split; [reflexivity | intros y []].
  - destruct (Hf x (or_introl eq_refl)) as [y [Ey Py]]. rewrite Ey. simpl.
    destruct IH as [ys [Eys Pys]]; [intros z Hz; apply Hf; now right |].
    rewrite Eys. simpl. exists (y :: ys). split; [reflexivity |].
    intros z [<- | Hz]; auto.
Qed.

Lemma filter_none {A} (f : A -> bool) (l : list A) :
  (forall x, In x l -> f x = false) -> filter f l = [].
Proof.
  induction l as [| x l IH]; intros Hf; simpl; [reflexivity |].
  rewrite (Hf x) by now left. apply IH. intros y Hy. apply Hf. now right.
Qed.

Section NoRisk.
Variable itds : Population.
Variable p : Q.
Hypothesis Hlow :
  forall uid itd t, In (uid, itd) itds -> In t (trajectories itd) ->
                    exists v, _risk (ITD_count itd t) t itds = Ok v /\ v < p.

(** Every queue of risky trajectories is empty. *)
Lemma find_risky_empty :
  exists risky,
    find_risky itds p = Ok risky
    /\ (forall uid q, dict_get risky uid = Some q -> q = [])
    /\ (forall uid, In uid (dict_keys itds) -> dict_contains risky uid = true).
Proof.
  unfold find_risky.
  destruct (for_each_inv
              (fun pre risky =>
                 (forall uid q, dict_get risky uid = Some q -> q = [])
                 /\ (forall uid, In uid (dict_keys pre) -> dict_contains risky uid = true))
              (fun '(uid, itd) risky =>
                 tv <- map_result
                         (fun t => v <- _risk (ITD_count itd t) t itds ;; Ok (t, v))
                         (trajectories itd) ;;
                 Ok (dict_set risky uid
                       (map fst (filter (fun tv => Qle_bool p (snd tv))
                                        (sorted_by_risk tv)))))
              itds [] []) as [risky [E HI]].
  - split; [discriminate | intros uid []].
  - intros done [uid itd] risky [rest Hrest] [Hq Hk]. simpl in Hrest.
    destruct (map_result_all (fun tv : Trajectory * Q => snd tv < p)
                (fun t => v <- _risk (ITD_count itd t) t itds ;; Ok (t, v))
                (trajectories itd)) as [tv [Etv Ptv]].
    { intros t Ht. destruct (Hlow uid itd t) as [v [Ev Hv]]; [| assumption |].
      - rewrite Hrest. apply in_or_app. right. now left.
      - exists (t, v). rewrite Ev. auto. }
    rewrite Etv. simpl. rewrite filter_none.
    2:{ intros x Hx. apply sorted_by_risk_In, Ptv in Hx. now apply Qle_bool_false. }
    eexists. split; [reflexivity |]. split.
    + intros uid' q. rewrite dict_get_set.
      destruct (key_eq_dec uid uid'); [now intros [= <-] | apply Hq].
    + intros uid' Hin. rewrite dict_contains_set. apply orb_true_iff.
      unfold dict_keys in Hin. rewrite map_app in Hin.
      apply in_app_or in Hin as [Hin | [<- | []]].
      * right. now apply Hk.
      * left. apply keyb_refl.
  - exists risky. split; [exact E | exact HI].
Qed.

Lemma pop_riskest_empty (risky : dict UID (list Trajectory)) :
  (forall uid q, dict_get risky uid = Some q -> q = []) ->
  (forall uid, In uid (dict_keys itds) -> dict_contains risky uid = true) ->
  pop_riskest itds risky = Ok ([], risky).
Proof.
  intros Hq Hk. unfold pop_riskest.
  induction (dict_keys itds) as [| uid uids IH]; simpl; [reflexivity |].
  assert (Hc := Hk uid (or_introl eq_refl)). unfold dict_contains in Hc.
  unfold dict_getitem. destruct (dict_get risky uid) as [q |] eqn:E; [| discriminate].
  rewrite (Hq uid q E). simpl. apply IH. intros u Hu. apply Hk. now right.
Qed.
End NoRisk.

Lemma py_range_from_1 (b : Z) :
  py_range 1 b = if (1 <? b)%Z then 1%Z :: py_range 2 b else [].
Proof.
  unfold py_range. destruct (Z.ltb_spec 1 b) as [H | H].
  - replace (Z.to_nat (b - 1)) with (S (Z.to_nat (b - 2))) by lia.
    cbn [seq map]. f_equal. rewrite <- seq_shift, map_map. apply map_ext.
    intros k. rewrite Nat2Z.inj_succ. lia.
  - replace (Z.to_nat (b - 1)) with 0%nat by lia. reflexivity.
Qed.

(** C10. When no trajectory of any user has a risk at or above [p] (so
    also for the empty population), [sanitize] returns Python's [None]: it
    logs at most the start of round 1, never reaches the optimiser and
    draws no noise. *)
Theorem sanitize_without_risky_trajectory_returns_None
    (laplace : nat -> Q -> Q) (fuel : nat) (itds : Population) (p : Q) (max_round : Z)
    (w : world)
    (Hlow : forall uid itd t, In (uid, itd) itds -> In t (trajectories itd) ->
              exists v, _risk (ITD_count itd t) t itds = Ok v /\ v < p) :
  sanitize laplace fuel itds p max_round w
  = Done None
      (mkWorld (log_info w ++ (if (1 <? max_round)%Z then [LogIteration 1] else []))
               (draws w)).
Proof.
  destruct (find_risky_empty itds p Hlow) as [risky (E & Hq & Hk)].
  unfold sanitize, mbind, lift, ret, emit. rewrite E, py_range_from_1.
  destruct (1 <? max_round)%Z.
  - rewrite (pop_riskest_empty itds risky Hq Hk). reflexivity.
  - destruct w. simpl. now rewrite app_nil_r.
Qed.

(* ================================================================== *)
(** * The concrete populations                                         *)
(* ================================================================== *)

Lemma add_times_wf (b : ITDBuilder) (t : Trajectory) (k : nat) :
  builder_wf b -> builder_wf (add_times b t k).
Proof.
  revert b. induction k as [| k IH]; intros b Hb; simpl; [assumption |].
  apply IH. now apply ITDBuilder_add_wf.
Qed.

Lemma scenario_wf : population_wf scenario.
Proof.
  split.
  - repeat constructor; simpl; intuition discriminate.
  - intros uid itd [[= <- <-] | [[= <- <-] | []]]; apply ITD_init_wf.
    + apply ITDBuilder_add_wf, add_times_wf, ITDBuilder_init_wf.
    + apply add_times_wf, ITDBuilder_init_wf.
Qed.

Lemma scenario3_keys : dict_wf scenario3.
Proof. repeat constructor; simpl; intuition discriminate. Qed.

Lemma riskest3_wf : riskest_wf scenario3 riskest3.
Proof.
  split.
  - repeat constructor; simpl; intuition discriminate.
  - simpl. tauto.
Qed.

Lemma epsl3_covers : epsl_covers scenario3 epsl3.
Proof.
  intros u [<- | [<- | [<- | []]]]; eexists; reflexivity.
Qed.

Lemma user3_unrelated : unrelated scenario3 riskest3 3%Z.
Proof.
  split; [reflexivity |]. split; [reflexivity |].
  intros v [<- | [<- | [<- | []]]]; vm_compute; split; intuition discriminate.
Qed.

(** C1, the claim as stated fails. In the scenario with the third user,
    user 3 has no relation in either direction and the budget 1/10, and
    the solver gives it the disclosure value 0, not 1/10. *)
Lemma unrelated_user_disclosure_is_not_its_budget :
  unrelated scenario3 riskest3 3%Z
  /\ dict_get epsl3 3%Z = Some (1 # 10)
  /\ exists cidp c,
       compute_CIDP scenario3 riskest3 epsl3 (1 # 4) = Ok cidp
       /\ dict_get cidp 3%Z = Some c
       /\ c == 0
       /\ ~ c == 1 # 10.
Proof.
  split; [exact user3_unrelated |]. split; [reflexivity |].
  eexists. eexists. split; [vm_compute; reflexivity |].
  split; [reflexivity |]. split; [reflexivity | discriminate].
Qed.

Lemma unrelated_user_has_zero_disclosure_witness :
  exists cidp c,
    compute_CIDP scenario3 riskest3 epsl3 (1 # 4) = Ok cidp
    /\ dict_get cidp 3%Z = Some c
    /\ c == 0.
Proof.
  apply (unrelated_user_has_zero_disclosure scenario3 riskest3 epsl3 (1 # 4) 3%Z).
  - repeat constructor; simpl; intuition discriminate.
  - split; [repeat constructor; simpl; intuition discriminate | simpl; tauto].
  - intros u [<- | [<- | [<- | []]]]; eexists; reflexivity.
  - simpl. tauto.
  - split; [reflexivity |]. split; [reflexivity |].
    intros v [<- | [<- | [<- | []]]]; vm_compute; split; intuition discriminate.
Defined.


Lemma strong_relations_symmetric_cliques_witness :
  (In 2%Z (strong_of riskest3 1%Z) <-> In 1%Z (strong_of riskest3 2%Z))
  /\ (In 2%Z (strong_of riskest3 1%Z) <->
      exists t, dict_get riskest3 1%Z = Some t /\ dict_get riskest3 2%Z = Some t
                /\ (2 <= length (sharers riskest3 t))%nat).
Proof.
  apply (strong_relations_symmetric_cliques riskest3 1%Z 2%Z).
  - repeat constructor; simpl; intuition discriminate.
  - discriminate.
Defined.

Lemma affected_by_is_one_hop_witness :
  exists affected,
    _affected_by riskest3 scenario3 = Ok affected
    /\ forall u, In u (dict_keys scenario3) ->
         exists l, dict_getitem affected u = Ok l
                   /\ In u l
                   /\ forall v, In v l <->
                                v = u \/ In u (strong_of riskest3 v)
                                \/ In u (weak_of riskest3 scenario3 v).
Proof.
  apply (affected_by_is_one_hop riskest3 scenario3).
  split; [repeat constructor; simpl; intuition discriminate | simpl; tauto].
Defined.

Lemma CIDP_monotone_in_affected_budgets_witness :
  exists affected epsl' cidp cidp' c c',
    _affected_by riskest3 scenario3 = Ok affected
    /\ shift_budgets affected 1%Z (1 # 20) epsl3 = Ok epsl'
    /\ (forall v, ~ In v (dd_get affected 1%Z) -> dict_get epsl' v = dict_get epsl3 v)
    /\ compute_CIDP scenario3 riskest3 epsl3 (1 # 4) = Ok cidp
    /\ compute_CIDP scenario3 riskest3 epsl' (1 # 4) = Ok cidp'
    /\ dict_get cidp 1%Z = Some c
    /\ dict_get cidp' 1%Z = Some c'
    /\ c <= c'.
Proof.
  apply (CIDP_monotone_in_affected_budgets scenario3 riskest3 epsl3 (1 # 4) (1 # 20) 1%Z).
  - repeat constructor; simpl; intuition discriminate.
  - split; [repeat constructor; simpl; intuition discriminate | simpl; tauto].
  - intros u [<- | [<- | [<- | []]]]; eexists; reflexivity.
  - split; reflexivity.
  - reflexivity.
  - simpl. tauto.
Defined.


Lemma sanitize_without_risky_trajectory_returns_None_witness :
  sanitize (fun _ _ => 0) 0 scenario 2 max_round_default (mkWorld [] 0)
  = Done None (mkWorld [LogIteration 1] 0).
Proof.
  apply (sanitize_without_risky_trajectory_returns_None (fun _ _ => 0) 0 scenario 2
           max_round_default (mkWorld [] 0)).
  intros uid itd t [[= <- <-] | [[= <- <-] | []]] Ht; simpl in Ht;
    repeat (destruct Ht as [<- | Ht]; [eexists; split; [vm_compute; reflexivity | reflexivity] |]);
    destruct Ht.
Defined.

(** C2, what the code does. The one user of [loner] has two trajectories
    with risk 1, so two rounds are needed to visit both. [sanitize] with
    the default threshold and round limit returns a count table after
    round 1: the log has one round, the queue of the user still holds a
    trajectory whose risk is at or above the threshold. *)
Theorem sanitize_returns_after_first_round (laplace : nat -> Q -> Q) :
  exists risky riskest remaining noise_count w',
    find_risky loner p_default = Ok risky
    /\ pop_riskest loner risky = Ok (riskest, remaining)
    /\ dict_get remaining 1%Z = Some [t123]
    /\ _risk (ITD_count (ITD_init builder_D) t123) t123 loner = Ok 1
    /\ Qle_bool p_default 1 = true
    /\ sanitize laplace 2 loner p_default max_round_default (mkWorld [] 0)
       = Done (Some noise_count) w'
    /\ filter is_iteration (log_info w') = [LogIteration 1].
Proof.
  do 5 eexists. split; [vm_compute; reflexivity |].
  split; [vm_compute; reflexivity |]. split; [reflexivity |].
  split; [vm_compute; reflexivity |]. split; [reflexivity |].
  split; [vm_compute; reflexivity | reflexivity].
Qed.

(** Why the initial budget must not be negative: a user without relations
    has disclosure value 0, so with a negative initial budget the first
    search loop is entered and never sees a value above 1. *)
Lemma increase_loop_runs_forever (fuel : nat) :
  forall epsl,
    epsl_covers loner epsl ->
    increase_loop fuel loner [(1%Z, t456)] [(1%Z, [1%Z])] 1%Z (1 # 20) epsl = None.
Proof.
  assert (Hwf : dict_wf loner) by (repeat constructor; simpl; intuition discriminate).
  assert (Hrisk : riskest_wf loner [(1%Z, t456)])
    by (split; [repeat constructor; simpl; intuition discriminate | simpl; tauto]).
  assert (Hu : In 1%Z (dict_keys loner)) by (simpl; tauto).
  induction fuel as [| fuel IH]; intros epsl Hcov; simpl; [reflexivity |].
  destruct (Hcov 1%Z Hu) as [e Ee].
  unfold shift_budgets. simpl. unfold dict_getitem at 1. rewrite Ee. simpl.
  assert (Hcov1 : epsl_covers loner (dict_set epsl 1%Z (e + (1 # 20)))).
  { intros u [<- | []]. eexists. apply dict_get_set_eq. }
  destruct (compute_CIDP_value loner [(1%Z, t456)] _ theta_default Hwf Hrisk Hcov1)
    as [cidp (E & _ & Hg)].
  rewrite E. simpl. unfold dict_getitem. rewrite (Hg 1%Z Hu). simpl.
  now apply IH.
Qed.

Lemma negative_initial_budget_diverges (fuel : nat) (w : world) :
  compute_IDFA fuel loner [(1%Z, t456)] (- (1)) (1 # 20) w = OutOfFuel.
Proof.
  unfold compute_IDFA, mbind, emit, lift.
  replace (compute_CIDP loner [(1%Z, t456)]
             (map (fun '(uid, _) => (uid, - (1))) loner) theta_default)
    with (Ok [(1%Z, 0 # 1)] : result (dict UID Q)) by (vm_compute; reflexivity).
  replace (_affected_by [(1%Z, t456)] loner)
    with (Ok [(1%Z, [1%Z])] : result (dict UID (list UID))) by (vm_compute; reflexivity).
  simpl. unfold mbind, emit, lift, run_loop. simpl.
  rewrite increase_loop_runs_forever; [reflexivity |].
  intros u [<- | []]. eexists. reflexivity.
Qed.

(* ================================================================== *)
(** * The order of the inputs                                          *)
(* ================================================================== *)

Lemma dict_wf_perm {K V} `{Key K} (d d' : dict K V) :
  Permutation d d' -> dict_wf d -> dict_wf d'.
Proof.
  intros Hp Hwf. unfold dict_wf, dict_keys in *.
  eapply Permutation_NoDup; [apply Permutation_map; exact Hp | exact Hwf].
Qed.

Lemma dict_keys_perm {K V} `{Key K} (d d' : dict K V) :
  Permutation d d' -> Permutation (dict_keys d) (dict_keys d').
Proof. intros Hp. unfold dict_keys. now apply Permutation_map. Qed.

Lemma dict_get_perm {K V} `{Key K} (d d' : dict K V) (k : K) :
  Permutation d d' -> dict_wf d -> dict_get d k = dict_get d' k.
Proof.
  intros Hp Hwf. assert (Hwf' := dict_wf_perm d d' Hp Hwf).
  destruct (dict_get d k) as [v |] eqn:E.
  - symmetry. apply dict_In_get; [assumption |].
    eapply Permutation_in; [exact Hp | now apply dict_get_Some_In].
  - symmetry. apply dict_get_None. intros Hin. apply dict_get_None in E. apply E.
    eapply Permutation_in; [symmetry; apply dict_keys_perm; exact Hp | exact Hin].
Qed.

Lemma insert_sorted_In (x y : Z) (l : list Z) :
  In y (insert_sorted x l) <-> y = x \/ In y l.
Proof.
  split.
  - intros Hy. apply (Permutation_in _ (insert_sorted_perm x l)) in Hy.
    destruct Hy; auto.
  - intros Hy. apply (Permutation_in _ (Permutation_sym (insert_sorted_perm x l))).
    destruct Hy; [left | right]; auto.
Qed.

Lemma insert_sorted_sorted (x : Z) (l : list Z) :
  StronglySorted Z.le l -> StronglySorted Z.le (insert_sorted x l).
Proof.
  induction l as [| y l IH]; intros Hs; simpl.
  - repeat constructor.
  - inversion Hs as [| ? ? Hs' Hall]; subst.
    destruct (Z.leb_spec x y) as [Hxy | Hxy].
    + constructor; [assumption |]. constructor; [assumption |].
      eapply Forall_impl; [| exact Hall]. intros z Hz. lia.
    + constructor; [now apply IH |].
      apply Forall_forall. intros z Hz. apply insert_sorted_In in Hz as [-> | Hz]; [lia |].
      rewrite Forall_forall in Hall. now apply Hall.
Qed.

Lemma sorted_sorted (l : list Z) : StronglySorted Z.le (sorted l).
Proof.
  unfold sorted. induction l as [| x l IH]; simpl; [constructor |].
  now apply insert_sorted_sorted.
Qed.

Lemma sorted_lists_unique (l1 l2 : list Z) :
  StronglySorted Z.le l1 -> StronglySorted Z.le l2 -> Permutation l1 l2 -> l1 = l2.
Proof.
  revert l2. induction l1 as [| x l1 IH]; intros l2 H1 H2 Hp.
  - apply Permutation_nil in Hp. now subst.
  - destruct l2 as [| y l2]; [apply Permutation_sym, Permutation_nil in Hp; discriminate |].
    inversion H1 as [| ? ? H1' A1]; subst. inversion H2 as [| ? ? H2' A2]; subst.
    rewrite Forall_forall in A1, A2.
    assert (x = y).
    { assert (Hy : In y (x :: l1))
        by (eapply Permutation_in; [symmetry; exact Hp | now left]).
      assert (Hx : In x (y :: l2)) by (eapply Permutation_in; [exact Hp | now left]).
      destruct Hy as [-> | Hy]; [reflexivity |]. destruct Hx as [<- | Hx]; [reflexivity |].
      specialize (A1 y Hy). specialize (A2 x Hx). lia. }
    subst y. f_equal. apply IH; try assumption.
    now apply Permutation_cons_inv in Hp.
Qed.

Lemma sorted_keys_perm (itds itds' : Population) :
  Permutation itds itds' -> sorted (dict_keys itds) = sorted (dict_keys itds').
Proof.
  intros Hp. apply sorted_lists_unique; try apply sorted_sorted.
  rewrite !sorted_perm. now apply dict_keys_perm.
Qed.

(* ================================================================== *)
(** * The factor matrix, cell by cell                                  *)
(* ================================================================== *)

Lemma K_fold_cell (theta : Q) (x y : nat) (ops : list edge) :
  forall Kf : fmat,
    fold_left (K_step theta) ops Kf x y = fold_left (cell_step theta x y) ops (Kf x y).
Proof.
  induction ops as [| [[s i] j] ops IH]; intros Kf; simpl; [reflexivity |].
  rewrite IH. f_equal. unfold K_step, cell_step, writes, upd.
  destruct s; destruct ((x =? j)%nat && (y =? i)%nat), ((x =? i)%nat && (y =? j)%nat);
    reflexivity.
Qed.

Lemma cell_fold_const (theta : Q) (x y : nat) (w : Q) (ops : list edge) :
  (forall op, In op ops -> writes theta x y op = None \/ writes theta x y op = Some w) ->
  forall v, fold_left (cell_step theta x y) ops v
            = if existsb (is_writer theta x y) ops then w else v.
Proof.
  induction ops as [| op ops IH]; intros Hw v; simpl; [reflexivity |].
  rewrite IH by (intros o Ho; apply Hw; now right).
  unfold cell_step, is_writer.
  destruct (Hw op (or_introl eq_refl)) as [E | E]; rewrite E; simpl; [reflexivity |].
  now destruct (existsb _ ops).
Qed.

Lemma cell_fold_skip (theta : Q) (x y : nat) (ops : list edge) (v : Q) :
  (forall op, In op ops -> writes theta x y op = None) ->
  fold_left (cell_step theta x y) ops v = v.
Proof.
  intros Hn. rewrite (cell_fold_const theta x y v) by (intros op Ho; left; now apply Hn).
  now destruct (existsb _ ops).
Qed.

Lemma fold_left_flat_map {A B S} (f : S -> B -> S) (g : A -> list B) (l : list A) :
  forall s, fold_left f (flat_map g l) s = fold_left (fun s a => fold_left f (g a) s) l s.
Proof.
  induction l as [| a l IH]; intros s; simpl; [reflexivity |].
  now rewrite fold_left_app, IH.
Qed.

Lemma seq_split (a n : nat) :
  (a < n)%nat -> seq 0 n = seq 0 a ++ a :: seq (S a) (n - S a).
Proof.
  intros Ha. replace n with (a + S (n - S a))%nat at 1 by lia.
  rewrite seq_app. reflexivity.
Qed.

Lemma seq_split2 (a b n : nat) :
  (a < b)%nat -> (b < n)%nat ->
  seq 0 n = seq 0 a ++ a :: seq (S a) (b - S a) ++ b :: seq (S b) (n - S b).
Proof.
  intros Hab Hbn. rewrite (seq_split a n) by lia. do 2 f_equal.
  replace (n - S a)%nat with ((b - S a) + S (n - S b))%nat by lia.
  rewrite seq_app. replace (S a + (b - S a))%nat with b by lia. reflexivity.
Qed.

Lemma mem_iff_eq {K} `{Key K} (x : K) (l l' : list K) :
  (In x l <-> In x l') -> mem x l = mem x l'.
Proof.
  intros Hiff. destruct (mem x l) eqn:E, (mem x l') eqn:E'; try reflexivity.
  - apply mem_In, Hiff, mem_In in E. congruence.
  - apply mem_In, Hiff, mem_In in E'. congruence.
Qed.

Section Cells.
Variable itds : Population.
Variable riskest : dict UID Trajectory.
Variable theta : Q.
Hypothesis Hwf : dict_wf itds.
Hypothesis Hrisk : riskest_wf itds riskest.

Local Abbreviation n := (length itds).
Local Abbreviation sgb i j := (mem (uid_at itds j) (strong_of riskest (uid_at itds i))).
Local Abbreviation wkb i j := (mem (uid_at itds j) (weak_of riskest itds (uid_at itds i))).

Lemma edges_of_shape (i : nat) (s : bool) (a b : nat) :
  In (s, a, b) (edges_of itds riskest i) ->
  a = i /\ exists w, b = idx_of itds w
                     /\ In w (if s then strong_of riskest (uid_at itds i)
                              else weak_of riskest itds (uid_at itds i)).
Proof.
  unfold edges_of. intros Hin.
  apply in_app_or in Hin as [Hin | Hin]; apply in_map_iff in Hin as (w & [= <- <- <-] & Hw);
    (split; [reflexivity | exists w; auto]).
Qed.

Lemma edge_in_block (i j : nat) (s : bool) :
  (i < n)%nat -> (j < n)%nat ->
  (In (s, i, j) (edges_of itds riskest i) <->
   In (uid_at itds j) (if s then strong_of riskest (uid_at itds i)
                       else weak_of riskest itds (uid_at itds i))).
Proof.
  intros Hi Hj. split.
  - intros Hin. apply edges_of_shape in Hin as (_ & w & E & Hw).
    assert (Hk : In w (dict_keys itds))
      by (apply (partner_facts itds riskest Hrisk s (uid_at itds i) w Hw)).
    replace (uid_at itds j) with w; [assumption |].
    apply (idx_of_inj itds Hwf); [assumption | now apply uid_at_In |].
    now rewrite idx_of_uid_at.
  - intros Hin. unfold edges_of. apply in_or_app.
    destruct s; [left | right]; apply in_map_iff; exists (uid_at itds j);
      (split; [now rewrite idx_of_uid_at | assumption]).
Qed.

Lemma strong_weak_exclusive (i j : nat) : wkb i j = true -> sgb i j = false.
Proof.
  intros Hw. apply mem_In, weak_spec in Hw as (_ & _ & _ & Hns).
  now apply mem_false.
Qed.

Lemma sgb_sym (i j : nat) : sgb i j = sgb j i.
Proof.
  apply eq_true_iff_eq. rewrite !mem_In, !strong_spec by apply Hrisk.
  split; intros (N & t & H1 & H2); (split; [congruence | exists t; auto]).
Qed.

Lemma block_other (x y i : nat) (v : Q) :
  i <> x -> i <> y ->
  fold_left (cell_step theta x y) (edges_of itds riskest i) v = v.
Proof.
  intros Nx Ny. apply cell_fold_skip. intros [[s a] b] Hin.
  apply edges_of_shape in Hin as (-> & _). unfold writes.
  destruct (Nat.eqb_spec y i); [congruence |]. rewrite andb_false_r.
  destruct (Nat.eqb_spec x i); [congruence | reflexivity].
Qed.

(** The passes of [x] write the cell [(x, y)] as their own row. *)
Lemma block_from (x y : nat) (v : Q) :
  x <> y -> (x < n)%nat -> (y < n)%nat ->
  fold_left (cell_step theta x y) (edges_of itds riskest x) v
  = if sgb x y || wkb x y then (if sgb x y then 1 else theta) else v.
Proof.
  intros Nxy Hx Hy.
  rewrite (cell_fold_const theta x y (if sgb x y then 1 else theta)).
  - match goal with
    | |- (if ?b then _ else _) = (if ?b' then _ else _) =>
        replace b with b'; [reflexivity |]
    end.
    symmetry. apply eq_true_iff_eq. rewrite existsb_exists, orb_true_iff, !mem_In. split.
    + intros ([[s a] b] & Hin & Hw). unfold is_writer, writes in Hw.
      assert (Ha := proj1 (edges_of_shape x s a b Hin)). subst a.
      destruct (Nat.eqb_spec y x); [congruence |]. rewrite andb_false_r in Hw.
      rewrite Nat.eqb_refl in Hw. simpl in Hw.
      destruct (Nat.eqb_spec y b); [subst b | discriminate].
      apply edge_in_block in Hin; try assumption. destruct s; auto.
    + intros Hrel. assert (Hex : exists s, In (s, x, y) (edges_of itds riskest x)).
      { destruct Hrel as [Hs | Hw]; [exists true | exists false];
          now apply edge_in_block. }
      destruct Hex as [s Hin]. exists (s, x, y). split; [assumption |].
      unfold is_writer, writes. destruct (Nat.eqb_spec y x); [congruence |].
      rewrite andb_false_r, !Nat.eqb_refl. reflexivity.
  - intros [[s a] b] Hin.
    assert (Ha := proj1 (edges_of_shape x s a b Hin)). subst a. unfold writes.
    destruct (Nat.eqb_spec y x); [congruence |]. rewrite andb_false_r, Nat.eqb_refl. simpl.
    destruct (Nat.eqb_spec y b); [subst b | now left]. right.
    apply edge_in_block in Hin; try assumption. destruct s.
    + apply mem_In in Hin. now rewrite Hin.
    + apply mem_In in Hin. now rewrite (strong_weak_exclusive x y Hin).
Qed.

(** The passes of [y] write the cell [(x, y)] as the row of the other
    user. *)
Lemma block_to (x y : nat) (v : Q) :
  x <> y -> (x < n)%nat -> (y < n)%nat ->
  fold_left (cell_step theta x y) (edges_of itds riskest y) v
  = if sgb y x || wkb y x then (if sgb y x then 1 else 0) else v.
Proof.
  intros Nxy Hx Hy.
  rewrite (cell_fold_const theta x y (if sgb y x then 1 else 0)).
  - match goal with
    | |- (if ?b then _ else _) = (if ?b' then _ else _) =>
        replace b with b'; [reflexivity |]
    end.
    symmetry. apply eq_true_iff_eq. rewrite existsb_exists, orb_true_iff, !mem_In. split.
    + intros ([[s a] b] & Hin & Hw). unfold is_writer, writes in Hw.
      assert (Ha := proj1 (edges_of_shape y s a b Hin)). subst a.
      rewrite Nat.eqb_refl, andb_true_r in Hw.
      destruct (Nat.eqb_spec x b); [subst b |].
      * apply edge_in_block in Hin; try assumption. destruct s; auto.
      * destruct (Nat.eqb_spec x y); [congruence | discriminate].
    + intros Hrel. assert (Hex : exists s, In (s, y, x) (edges_of itds riskest y)).
      { destruct Hrel as [Hs | Hw]; [exists true | exists false];
          now apply edge_in_block. }
      destruct Hex as [s Hin]. exists (s, y, x). split; [assumption |].
      unfold is_writer, writes. now rewrite !Nat.eqb_refl.
  - intros [[s a] b] Hin.
    assert (Ha := proj1 (edges_of_shape y s a b Hin)). subst a. unfold writes.
    rewrite Nat.eqb_refl, andb_true_r.
    destruct (Nat.eqb_spec x b); [subst b |].
    + right. apply edge_in_block in Hin; try assumption. destruct s.
      * apply mem_In in Hin. now rewrite Hin.
      * apply mem_In in Hin. now rewrite (strong_weak_exclusive y x Hin).
    + left. destruct (Nat.eqb_spec x y); [congruence | reflexivity].
Qed.

Lemma skip_blocks (x y : nat) (l : list nat) :
  (forall i, In i l -> i <> x /\ i <> y) ->
  forall v, fold_left (fun v i => fold_left (cell_step theta x y) (edges_of itds riskest i) v)
                      l v = v.
Proof.
  induction l as [| i l IH]; intros Hl v; simpl; [reflexivity |].
  destruct (Hl i (or_introl eq_refl)) as [Nx Ny].
  rewrite block_other by assumption. apply IH. intros k Hk. apply Hl. now right.
Qed.

Lemma seq_avoids (a len x : nat) : (x < a \/ a + len <= x)%nat -> ~ In x (seq a len).
Proof. intros Hx Hin. apply in_seq in Hin. lia. Qed.

(** The factor matrix off the diagonal. *)
Lemma K_final_cell (x y : nat) :
  x <> y -> (x < n)%nat -> (y < n)%nat ->
  K_final itds riskest theta x y
  = if (x <? y)%nat
    then (if sgb y x || wkb y x then (if sgb y x then 1 else 0)
          else if sgb x y || wkb x y then (if sgb x y then 1 else theta)
          else 1)
    else (if sgb x y || wkb x y then (if sgb x y then 1 else theta)
          else if sgb y x || wkb y x then (if sgb y x then 1 else 0)
          else 1).
Proof.
  intros Nxy Hx Hy. unfold K_final. rewrite K_fold_cell. unfold all_edges.
  rewrite fold_left_flat_map.
  assert (Hskip : forall a len v,
             (forall i, In i (seq a len) -> i <> x /\ i <> y) ->
             fold_left (fun v i => fold_left (cell_step theta x y)
                                             (edges_of itds riskest i) v)
                       (seq a len) v = v)
    by (intros a len v Hl; now apply skip_blocks).
  destruct (Nat.ltb_spec x y) as [Hlt | Hge].
  - rewrite (seq_split2 x y n) by lia.
    rewrite !fold_left_app. simpl. rewrite !fold_left_app. simpl.
    rewrite (Hskip 0%nat x) by (intros i Hi; apply in_seq in Hi; lia).
    rewrite block_from by assumption.
    rewrite (Hskip (S x)) by (intros i Hi; apply in_seq in Hi; lia).
    rewrite block_to by assumption.
    rewrite (Hskip (S y)) by (intros i Hi; apply in_seq in Hi; lia).
    reflexivity.
  - assert (Hlt : (y < x)%nat) by lia.
    rewrite (seq_split2 y x n) by lia.
    rewrite !fold_left_app. simpl. rewrite !fold_left_app. simpl.
    rewrite (Hskip 0%nat y) by (intros i Hi; apply in_seq in Hi; lia).
    rewrite block_to by assumption.
    rewrite (Hskip (S y)) by (intros i Hi; apply in_seq in Hi; lia).
    rewrite block_from by assumption.
    rewrite (Hskip (S x)) by (intros i Hi; apply in_seq in Hi; lia).
    reflexivity.
Qed.
End Cells.

(* ================================================================== *)
(** * The disclosure value in closed form                              *)
(* ================================================================== *)

Section ClosedForm.
Variable itds : Population.
Variable riskest : dict UID Trajectory.
Variable theta : Q.
Hypothesis Hwf : dict_wf itds.
Hypothesis Hrisk : riskest_wf itds riskest.

Local Abbreviation n := (length itds).
Local Abbreviation sgb i j := (mem (uid_at itds j) (strong_of riskest (uid_at itds i))).
Local Abbreviation wkb i j := (mem (uid_at itds j) (weak_of riskest itds (uid_at itds i))).

Lemma all_edges_block (s : bool) (a b : nat) :
  In (s, a, b) (all_edges itds riskest) <->
  (a < n)%nat /\ In (s, a, b) (edges_of itds riskest a).
Proof.
  unfold all_edges. rewrite in_flat_map. split.
  - intros (i & Hi & Hin). apply in_seq in Hi.
    assert (a = i) by apply (edges_of_shape itds riskest i s a b Hin). subst i.
    split; [lia | assumption].
  - intros [Ha Hin]. exists a. split; [apply in_seq; lia | assumption].
Qed.

Lemma joins_exact (i j : nat) :
  i <> j -> (i < n)%nat -> (j < n)%nat ->
  existsb (joinsb i j) (all_edges itds riskest) = sgb i j || wkb i j || sgb j i || wkb j i.
Proof.
  intros Nij Hi Hj. apply eq_true_iff_eq.
  rewrite existsb_exists, !orb_true_iff, !mem_In. split.
  - intros ([[s a] b] & Hin & Hjoin). unfold joinsb in Hjoin.
    apply all_edges_block in Hin as [Ha Hin].
    apply orb_true_iff in Hjoin as [Hjoin | Hjoin];
      apply andb_true_iff in Hjoin as [E1 E2];
      apply Nat.eqb_eq in E1, E2; subst a b;
      apply (edge_in_block itds riskest Hwf Hrisk) in Hin; try assumption;
      destruct s; tauto.
  - intros Hrel.
    assert (Hex : exists s, In (s, i, j) (edges_of itds riskest i)
                            \/ In (s, j, i) (edges_of itds riskest j)).
    { destruct Hrel as [[[H | H] | H] | H];
        [exists true; left | exists false; left | exists true; right | exists false; right];
        now apply (edge_in_block itds riskest Hwf Hrisk). }
    destruct Hex as [s [Hin | Hin]].
    + exists (s, i, j). split; [now apply all_edges_block |].
      unfold joinsb. now rewrite !Nat.eqb_refl.
    + exists (s, j, i). split; [now apply all_edges_block |].
      unfold joinsb. now rewrite !Nat.eqb_refl, orb_true_r.
Qed.

Lemma touched_exact (u : UID) :
  In u (dict_keys itds) ->
  existsb (touchesb (idx_of itds u)) (all_edges itds riskest) = has_relation itds riskest u.
Proof.
  intros Hu. apply eq_true_iff_eq.
  rewrite (touched_iff itds riskest Hwf Hrisk u Hu). unfold has_relation.
  rewrite existsb_exists. split.
  - intros (s & v & Hv). exists v. split.
    + destruct Hv as [Hv | Hv].
      * apply (partner_facts itds riskest Hrisk s u v Hv).
      * destruct s.
        -- apply Hrisk. now apply (strong_in_riskest riskest v u (proj1 Hrisk)).
        -- now apply (weak_in_population riskest itds v u).
    + rewrite !orb_true_iff, !mem_In. destruct s; tauto.
  - intros (v & _ & Hv). rewrite !orb_true_iff, !mem_In in Hv.
    destruct Hv as [[[H | H] | H] | H];
      [exists true, v | exists false, v | exists true, v | exists false, v]; tauto.
Qed.

(** The weights of the budgets in a disclosure value. *)
Lemma coef_is_weight (i j : nat) :
  (i < n)%nat -> (j < n)%nat ->
  coef itds riskest theta i j == weight itds riskest theta i j.
Proof.
  intros Hi Hj. unfold weight. destruct (Nat.eqb_spec i j) as [<- | Nij].
  - rewrite (coef_diagonal itds riskest Hwf Hrisk theta i).
    rewrite <- (idx_of_uid_at itds Hwf i Hi) at 1.
    rewrite (touched_exact _ (uid_at_In itds i Hi)). reflexivity.
  - unfold coef. destruct (Nat.eqb_spec i j) as [E | _]; [congruence |].
    rewrite (L_final_off_diagonal itds riskest Hwf Hrisk i j Nij).
    rewrite (joins_exact i j Nij Hi Hj).
    rewrite (K_final_cell itds riskest theta Hwf Hrisk j i) by auto.
    rewrite (sgb_sym itds riskest Hrisk j i).
    assert (X1 := strong_weak_exclusive itds riskest i j).
    assert (X2 := strong_weak_exclusive itds riskest j i).
    rewrite (sgb_sym itds riskest Hrisk j i) in X2.
    destruct (sgb i j), (wkb i j), (wkb j i);
      try (specialize (X1 eq_refl); discriminate);
      try (specialize (X2 eq_refl); discriminate);
      destruct (Nat.ltb_spec j i), (Nat.ltb_spec i j); try lia; simpl; ring.
Qed.

Lemma cidp_at_closed_form (epsl : dict UID Q) (i : nat) :
  (i < n)%nat ->
  cidp_at itds riskest epsl theta i
  == py_sum (map (fun j => weight itds riskest theta i j * eps_at itds epsl j) (seq 0 n)).
Proof.
  intros Hi. rewrite cidp_at_linear. apply py_sum_ext.
  intros j Hj. apply in_seq in Hj. rewrite coef_is_weight by lia. reflexivity.
Qed.
End ClosedForm.

(* ================================================================== *)
(** * The bound solver is deterministic                                *)
(* ================================================================== *)

Lemma existsb_perm {A} (f : A -> bool) (l l' : list A) :
  Permutation l l' -> existsb f l = existsb f l'.
Proof.
  intros Hp. apply eq_true_iff_eq. rewrite !existsb_exists.
  split; intros (x & Hx & Hf); exists x; (split; [| assumption]).
  - eapply Permutation_in; eauto.
  - eapply Permutation_in; [symmetry |]; eauto.
Qed.

Lemma existsb_ext_in {A} (f g : A -> bool) (l : list A) :
  (forall x, In x l -> f x = g x) -> existsb f l = existsb g l.
Proof.
  induction l as [| x l IH]; intros Hfg; simpl; [reflexivity |].
  rewrite (Hfg x) by now left. f_equal. apply IH. intros y Hy. apply Hfg. now right.
Qed.

Section Reordered.
Variables itds itds' : Population.
Variables riskest riskest' : dict UID Trajectory.
Hypothesis Hwf : dict_wf itds.
Hypothesis Hrisk : riskest_wf itds riskest.
Hypothesis Hitds : same_items itds itds'.
Hypothesis Hriskest : same_items riskest riskest'.

Lemma reordered_population_wf : dict_wf itds'.
Proof. exact (dict_wf_perm itds itds' Hitds Hwf). Qed.

Lemma reordered_keys (u : UID) : In u (dict_keys itds) <-> In u (dict_keys itds').
Proof.
  split; apply Permutation_in; [| symmetry]; now apply dict_keys_perm.
Qed.

Lemma reordered_riskest_wf : riskest_wf itds' riskest'.
Proof.
  destruct Hrisk as [Hr Hsub]. split.
  - exact (dict_wf_perm riskest riskest' Hriskest Hr).
  - intros u Hu. apply reordered_keys, Hsub.
    eapply Permutation_in; [symmetry; apply dict_keys_perm; exact Hriskest | exact Hu].
Qed.

Lemma reordered_length : length itds' = length itds.
Proof. symmetry. now apply Permutation_length. Qed.

Lemma reordered_uid_at (i : nat) : uid_at itds' i = uid_at itds i.
Proof. unfold uid_at. now rewrite (sorted_keys_perm itds itds' Hitds). Qed.

Lemma reordered_idx_of (u : UID) : idx_of itds' u = idx_of itds u.
Proof.
  unfold idx_of, uid2idx. now rewrite (sorted_keys_perm itds itds' Hitds).
Qed.

Lemma reordered_strong (u v : UID) :
  mem v (strong_of riskest' u) = mem v (strong_of riskest u).
Proof.
  apply mem_iff_eq.
  rewrite (strong_spec riskest' u v (proj1 reordered_riskest_wf)).
  rewrite (strong_spec riskest u v (proj1 Hrisk)).
  split; intros (N & t & H1 & H2); (split; [assumption | exists t]).
  - now rewrite !(dict_get_perm riskest riskest' _ Hriskest (proj1 Hrisk)).
  - now rewrite <- !(dict_get_perm riskest riskest' _ Hriskest (proj1 Hrisk)).
Qed.

Lemma reordered_weak (u v : UID) :
  mem v (weak_of riskest' itds' u) = mem v (weak_of riskest itds u).
Proof.
  apply mem_iff_eq. rewrite !weak_spec.
  rewrite <- (reordered_keys u).
  rewrite <- !mem_false, (reordered_strong u v).
  rewrite (dict_get_perm riskest riskest' u Hriskest (proj1 Hrisk)).
  split; intros (N & Hu & (itd_v & t & Hv & Ht & Hin) & Hs);
    (repeat split; try assumption); exists itd_v, t; (split; [| auto]).
  - eapply Permutation_in; [symmetry; exact Hitds | exact Hv].
  - eapply Permutation_in; [exact Hitds | exact Hv].
Qed.

Lemma reordered_has_relation (u : UID) :
  has_relation itds' riskest' u = has_relation itds riskest u.
Proof.
  unfold has_relation.
  rewrite (existsb_perm _ (dict_keys itds') (dict_keys itds))
    by (symmetry; now apply dict_keys_perm).
  apply existsb_ext_in. intros v _.
  now rewrite !reordered_strong, !reordered_weak.
Qed.

Lemma reordered_weight (theta : Q) (i j : nat) :
  weight itds' riskest' theta i j = weight itds riskest theta i j.
Proof.
  unfold weight. rewrite !reordered_uid_at, reordered_has_relation.
  now rewrite !reordered_strong, !reordered_weak.
Qed.
End Reordered.

(** C8. The bound solver is deterministic. Called on inputs with the same
    items, given in any order, it returns the same disclosure vector: the
    same users in the same order, each with the same value. In particular
    two calls on the very same inputs return the same vector. *)
Theorem compute_CIDP_deterministic
    (itds itds' : Population) (riskest riskest' : dict UID Trajectory)
    (epsl epsl' : dict UID Q) (theta : Q)
    (Hwf : dict_wf itds)
    (Hrisk : riskest_wf itds riskest)
    (Hepsl : dict_wf epsl)
    (Hcov : epsl_covers itds epsl)
    (Hitds : same_items itds itds')
    (Hriskest : same_items riskest riskest')
    (Hbudgets : same_items epsl epsl') :
  exists cidp cidp',
    compute_CIDP itds riskest epsl theta = Ok cidp
    /\ compute_CIDP itds' riskest' epsl' theta = Ok cidp'
    /\ dict_keys cidp = dict_keys cidp'
    /\ Forall2 (fun x x' => fst x = fst x' /\ snd x == snd x') cidp cidp'.
Proof.
  assert (Hwf' := reordered_population_wf itds itds' Hwf Hitds).
  assert (Hrisk' := reordered_riskest_wf itds itds' riskest riskest' Hrisk Hitds Hriskest).
  assert (Hget : forall u, dict_get epsl' u = dict_get epsl u)
    by (intros u; symmetry; now apply dict_get_perm).
  assert (Hcov' : epsl_covers itds' epsl').
  { intros u Hu. rewrite Hget. apply Hcov.
    now apply (reordered_keys itds itds' Hitds). }
  exists (map (fun i => (uid_at itds i, cidp_at itds riskest epsl theta i))
              (seq 0 (length itds))).
  exists (map (fun i => (uid_at itds' i, cidp_at itds' riskest' epsl' theta i))
              (seq 0 (length itds'))).
  split; [now apply compute_CIDP_refines |].
  split; [now apply compute_CIDP_refines |].
  rewrite (reordered_length itds itds' Hitds).
  assert (Hpair : forall i, In i (seq 0 (length itds)) ->
             uid_at itds i = uid_at itds' i
             /\ cidp_at itds riskest epsl theta i == cidp_at itds' riskest' epsl' theta i).
  { intros i Hi. apply in_seq in Hi.
    split; [symmetry; now apply reordered_uid_at |].
    rewrite (cidp_at_closed_form itds riskest theta Hwf Hrisk epsl i) by lia.
    rewrite (cidp_at_closed_form itds' riskest' theta Hwf' Hrisk' epsl' i)
      by (rewrite (reordered_length itds itds' Hitds); lia).
    rewrite (reordered_length itds itds' Hitds).
    apply py_sum_ext. intros j _.
    rewrite (reordered_weight itds itds' riskest riskest' Hrisk Hitds Hriskest theta i j).
    unfold eps_at. now rewrite (reordered_uid_at itds itds' Hitds j), Hget. }
  split.
  - unfold dict_keys. rewrite !map_map. simpl. apply map_ext_in.
    intros i Hi. now apply Hpair.
  - induction (seq 0 (length itds)) as [| i l IH]; simpl; constructor.
    + simpl. apply Hpair. now left.
    + apply IH. intros k Hk. apply Hpair. now right.
Qed.

Lemma compute_CIDP_deterministic_witness :
  exists cidp cidp',
    compute_CIDP scenario3 riskest3 epsl3 (1 # 4) = Ok cidp
    /\ compute_CIDP (rev scenario3) (rev riskest3) (rev epsl3) (1 # 4) = Ok cidp'
    /\ dict_keys cidp = dict_keys cidp'
    /\ Forall2 (fun x x' => fst x = fst x' /\ snd x == snd x') cidp cidp'.
Proof.
  apply (compute_CIDP_deterministic scenario3 (rev scenario3) riskest3 (rev riskest3)
           epsl3 (rev epsl3) (1 # 4)).
  - repeat constructor; simpl; intuition discriminate.
  - split; [repeat constructor; simpl; intuition discriminate | simpl; tauto].
  - repeat constructor; simpl; intuition discriminate.
  - intros u [<- | [<- | [<- | []]]]; eexists; reflexivity.
  - apply Permutation_rev.
  - apply Permutation_rev.
  - apply Permutation_rev.
Defined.

(* ================================================================== *)
(** * data.py: from the added records to the ITD                       *)
(* ================================================================== *)

Lemma counter_get_add (b : ITDBuilder) (x t : Trajectory) :
  counter_get (trajs (ITDBuilder_add b x)) t
  = (counter_get (trajs b) t + (if key_eq_dec x t then 1 else 0))%Z.
Proof.
  unfold counter_get, ITDBuilder_add. simpl. rewrite dict_get_set.
  destruct (key_eq_dec x t) as [E | N]; [subst | lia].
  reflexivity.
Qed.

Lemma builder_of_snoc (uid : UID) (ts : list Trajectory) (t : Trajectory) :
  builder_of uid (ts ++ [t]) = ITDBuilder_add (builder_of uid ts) t.
Proof. unfold builder_of. now rewrite fold_left_app. Qed.

Lemma builder_of_wf (uid : UID) (ts : list Trajectory) : builder_wf (builder_of uid ts).
Proof.
  induction ts as [| t ts IH] using rev_ind.
  - apply ITDBuilder_init_wf.
  - rewrite builder_of_snoc. now apply ITDBuilder_add_wf.
Qed.

Lemma builder_of_uid (uid : UID) (ts : list Trajectory) :
  builder_uid (builder_of uid ts) = uid.
Proof.
  induction ts as [| t ts IH] using rev_ind; [reflexivity |].
  rewrite builder_of_snoc. exact IH.
Qed.

Lemma count_occ_snoc (ts : list Trajectory) (x t : Trajectory) :
  count_occ key_eq_dec (ts ++ [x]) t
  = (count_occ key_eq_dec ts t + (if key_eq_dec x t then 1 else 0))%nat.
Proof. rewrite count_occ_app. simpl. destruct (key_eq_dec x t); reflexivity. Qed.

Lemma builder_of_counter (uid : UID) (ts : list Trajectory) (t : Trajectory) :
  counter_get (trajs (builder_of uid ts)) t = Z.of_nat (count_occ key_eq_dec ts t).
Proof.
  induction ts as [| x ts IH] using rev_ind; [reflexivity |].
  rewrite builder_of_snoc, counter_get_add, IH, count_occ_snoc.
  destruct (key_eq_dec x t); lia.
Qed.

Lemma builder_of_keys (uid : UID) (ts : list Trajectory) (t : Trajectory) :
  In t (dict_keys (trajs (builder_of uid ts))) <-> In t ts.
Proof.
  pose proof (builder_of_counter uid ts t) as Hc.
  destruct (builder_of_wf uid ts) as [_ Hpos].
  unfold counter_get in Hc. split.
  - intros Hi. apply dict_keys_In in Hi as [c E]. rewrite E in Hc.
    apply dict_get_Some_In, Hpos in E.
    apply (count_occ_In key_eq_dec). lia.
  - intros Hi. apply (count_occ_In key_eq_dec) in Hi.
    destruct (dict_get (trajs (builder_of uid ts)) t) eqn:E; [| lia].
    eapply dict_get_In_keys; eauto.
Qed.

Lemma ITD_fill_uid (items : list (Trajectory * Z)) :
  forall idx self, _uid (ITD_fill items idx self) = _uid self.
Proof.
  induction items as [| [traj cnt] rest IH]; intros idx self; simpl; [reflexivity |].
  now rewrite IH.
Qed.

Lemma ITD_init_uid (b : ITDBuilder) : ITD_uid (ITD_init b) = builder_uid b.
Proof. unfold ITD_uid, ITD_init. now rewrite ITD_fill_uid. Qed.

(** The constructor copies the counter of the builder. *)
Lemma ITD_init_shape (b : ITDBuilder) :
  dict_wf (trajs b) ->
  trajectories (ITD_init b) = dict_keys (trajs b) /\ _t2cnt (ITD_init b) = trajs b.
Proof.
  intros Hnd. unfold ITD_init, trajectories.
  now destruct (ITD_fill_shape (trajs b) 0%Z (mkITD (builder_uid b) [] [] [])) as [Hts Hcnt].
Qed.

(** X1. The ITD made from a builder to which the records [ts] were added
    one by one carries the builder's user, counts for every trajectory
    the number of times it was added (0 when it never was), contains
    exactly the trajectories that were added, and lists each of them
    once. *)
Theorem ITD_counts_the_added_records (uid : UID) (ts : list Trajectory) (t : Trajectory) :
  let itd := ITD_init (builder_of uid ts) in
  ITD_uid itd = uid
  /\ ITD_count itd t = Z.of_nat (count_occ key_eq_dec ts t)
  /\ (ITD_contains itd t = true <-> In t ts)
  /\ NoDup (trajectories itd).
Proof.
  intros itd. subst itd.
  destruct (builder_of_wf uid ts) as [Hnd Hpos].
  destruct (ITD_init_shape (builder_of uid ts) Hnd) as [Hts Hcnt].
  repeat split.
  - now rewrite ITD_init_uid, builder_of_uid.
  - unfold ITD_count. rewrite Hcnt. apply builder_of_counter.
  - unfold ITD_contains. intros Hm. apply mem_In in Hm.
    unfold trajectories in Hts. rewrite Hts in Hm. now apply builder_of_keys in Hm.
  - intros Hi. unfold ITD_contains. apply mem_In.
    unfold trajectories in Hts. rewrite Hts. now apply builder_of_keys.
  - rewrite Hts. exact Hnd.
Qed.

(** The index table of the constructor: the entries already there, then
    the new trajectories numbered from [idx] on. *)
Lemma ITD_fill_idx (items : list (Trajectory * Z)) :
  forall idx self,
    NoDup (dict_keys (_t2idx self) ++ dict_keys items) ->
    forall t i,
      dict_get (_t2idx (ITD_fill items idx self)) t = Some i <->
      dict_get (_t2idx self) t = Some i \/
      exists k, nth_error (dict_keys items) k = Some t /\ i = (idx + Z.of_nat k)%Z.
Proof.
  induction items as [| [traj cnt] rest IH]; intros idx self Hnd t i; simpl.
  - split; [now left | intros [Hg | [k [Hk _]]]; [assumption | now destruct k]].
  - simpl in Hnd.
    assert (Hfresh : ~ In traj (dict_keys (_t2idx self))).
    { apply NoDup_remove_2 in Hnd. intros Hi. apply Hnd. apply in_or_app. now left. }
    assert (Hrest : ~ In traj (dict_keys rest)).
    { apply NoDup_remove_2 in Hnd. intros Hi. apply Hnd. apply in_or_app. now right. }
    rewrite IH.
    + simpl. rewrite dict_get_set. destruct (key_eq_dec traj t) as [E | N].
      * subst t. apply dict_get_None in Hfresh. rewrite Hfresh. split.
        -- intros [[= <-] | [k [Hk _]]].
           ++ right. exists 0%nat. split; [reflexivity | lia].
           ++ apply nth_error_In in Hk. contradiction.
        -- intros [Hd | [k [Hk Hi]]]; [discriminate |].
           destruct k as [| k]; simpl in Hk.
           ++ left. f_equal. lia.
           ++ apply nth_error_In in Hk. contradiction.
      * split.
        -- intros [Hg | [k [Hk Hi]]]; [now left |].
           right. exists (S k). split; [assumption | lia].
        -- intros [Hg | [k [Hk Hi]]]; [now left |].
           destruct k as [| k]; simpl in Hk; [congruence |].
           right. exists k. split; [assumption | lia].
    + simpl. rewrite dict_keys_set.
      destruct (dict_contains (_t2idx self) traj) eqn:Ec.
      * apply dict_contains_true in Ec. contradiction.
      * rewrite <- app_assoc. simpl.
        replace (dict_keys (_t2idx self) ++ traj :: dict_keys rest)
          with (dict_keys (_t2idx self) ++ traj :: map fst rest) by reflexivity.
        exact Hnd.
Qed.

Lemma ITD_id_lookup (itd : ITD) (t : Trajectory) (i : Z) :
  ITD_id itd t = Ok i <-> dict_get (_t2idx itd) t = Some i.
Proof.
  unfold ITD_id, dict_contains, dict_getitem.
  destruct (dict_get (_t2idx itd) t); simpl; split; congruence.
Qed.

(** X2. In an ITD made by the constructor from a builder with distinct
    keys, [ITD.id] numbers the trajectories by their position in
    [trajectories]: it returns [i] for [t] exactly when [t] is the
    trajectory at position [i], so that ids run from 0 and two
    trajectories never share one. *)
Theorem ITD_id_is_the_position (b : ITDBuilder) (t : Trajectory) (i : Z) :
  builder_wf b ->
  let itd := ITD_init b in
  ITD_id itd t = Ok i <->
  (0 <= i)%Z /\ nth_error (trajectories itd) (Z.to_nat i) = Some t.
Proof.
  intros [Hnd _] itd. subst itd.
  destruct (ITD_init_shape b Hnd) as [Hts _]. rewrite Hts.
  rewrite ITD_id_lookup. unfold ITD_init.
  rewrite ITD_fill_idx by exact Hnd. simpl. split.
  - intros [Hd | [k [Hk ->]]]; [discriminate |].
    split; [lia |]. now rewrite Nat2Z.id.
  - intros [Hi Hk]. right. exists (Z.to_nat i). split; [assumption | lia].
Qed.

Lemma ITD_id_is_the_position_witness :
  ITD_id (ITD_init builder_A) t456 = Ok 1%Z <->
  (0 <= 1)%Z /\ nth_error (trajectories (ITD_init builder_A)) (Z.to_nat 1) = Some t456.
Proof.
  apply (ITD_id_is_the_position builder_A t456 1%Z).
  apply ITDBuilder_add_wf, add_times_wf, ITDBuilder_init_wf.
Defined.

(* ================================================================== *)
(** * data.py: the loop of load_ITDs                                   *)
(* ================================================================== *)

Lemma records_of_snoc (rows : list (UID * list Z)) (row : UID * list Z) (uid : UID) :
  records_of (rows ++ [row]) uid
  = records_of rows uid ++ (if keyb (fst row) uid then [mkTrajectory (snd row)] else []).
Proof.
  unfold records_of. rewrite filter_app, map_app. simpl.
  destruct (keyb (fst row) uid); reflexivity.
Qed.

Lemma records_of_absent (rows : list (UID * list Z)) (uid : UID) :
  ~ In uid (map fst rows) -> records_of rows uid = [].
Proof.
  induction rows as [| [u a] rows IH]; simpl; intros Hn; [reflexivity |].
  unfold records_of in *. simpl.
  destruct (keyb u uid) eqn:E.
  - apply keyb_true in E. tauto.
  - apply IH. tauto.
Qed.

(** The builders after the rows [rows]: one per user met, holding the
    records of that user in the order of the rows. *)
Lemma add_rows_spec (rows : list (UID * list Z)) :
  let d := fold_left add_row rows [] in
  dict_wf d /\
  forall uid,
    dict_get d uid =
    if mem uid (map fst rows) then Some (builder_of uid (records_of rows uid)) else None.
Proof.
  apply (fold_left_inv
           (fun done d => dict_wf d /\ forall uid,
                dict_get d uid =
                if mem uid (map fst done) then Some (builder_of uid (records_of done uid))
                else None)
           add_row rows [] []).
  - split; [constructor | reflexivity].
  - intros done [u areas] d _ [Hwf Hget]. unfold add_row.
    set (d1 := if negb (dict_contains d u) then dict_set d u (ITDBuilder_init u) else d).
    assert (Hwf1 : dict_wf d1).
    { unfold d1. destruct (negb (dict_contains d u)); [now apply dict_set_wf | assumption]. }
    assert (Hu : dict_get d1 u = Some (builder_of u (records_of done u))).
    { unfold d1, dict_contains. rewrite (Hget u).
      destruct (mem u (map fst done)) eqn:Em; simpl.
      - rewrite (Hget u), Em. reflexivity.
      - rewrite dict_get_set_eq. apply mem_false in Em.
        now rewrite records_of_absent. }
    assert (Hother : forall v, v <> u -> dict_get d1 v = dict_get d v).
    { intros v Hv. unfold d1. destruct (negb (dict_contains d u)); [| reflexivity].
      apply dict_get_set_neq. congruence. }
    rewrite Hu. split; [now apply dict_set_wf |].
    intros uid. rewrite dict_get_set, map_app, mem_app, records_of_snoc.
    change (mem uid (map fst [(u, areas)])) with (keyb uid u || false).
    change (fst (u, areas)) with u. change (snd (u, areas)) with areas.
    rewrite orb_false_r.
    destruct (key_eq_dec u uid) as [E | N].
    + subst uid. rewrite keyb_refl, orb_true_r. now rewrite builder_of_snoc.
    + rewrite Hother by congruence. rewrite (Hget uid).
      assert (E1 : keyb uid u = false) by (apply keyb_false; congruence).
      assert (E2 : keyb u uid = false) by (now apply keyb_false).
      rewrite E1, E2, orb_false_r, app_nil_r. reflexivity.
Qed.

Lemma build_ITDs_fold (d : dict UID ITDBuilder) :
  forall acc : Population,
    NoDup (dict_keys acc ++ map (fun kb => builder_uid (snd kb)) d) ->
    fold_left (fun ITDs '(_, bdlr) => dict_set ITDs (builder_uid bdlr) (ITD_init bdlr)) d acc
    = acc ++ map (fun kb => (builder_uid (snd kb), ITD_init (snd kb))) d.
Proof.
  induction d as [| [k b] d IH]; intros acc Hnd; simpl.
  - now rewrite app_nil_r.
  - simpl in Hnd.
    assert (Hfresh : ~ In (builder_uid b) (dict_keys acc)).
    { apply NoDup_remove_2 in Hnd. intros Hi. apply Hnd. apply in_or_app. now left. }
    rewrite dict_set_fresh by exact Hfresh.
    rewrite IH.
    + now rewrite <- app_assoc.
    + unfold dict_keys in *. rewrite map_app, <- app_assoc. exact Hnd.
Qed.

Lemma dict_get_map_values {A B} (g : UID -> A -> B) (d : dict UID A) (uid : UID) :
  dict_get (map (fun kb => (fst kb, g (fst kb) (snd kb))) d) uid
  = option_map (g uid) (dict_get d uid).
Proof.
  induction d as [| [k b] d IH]; simpl; [reflexivity |].
  destruct (key_eq_dec uid k) as [E | N]; [now subst | exact IH].
Qed.


Lemma add_row_keys (d : dict UID ITDBuilder) (row : UID * list Z) :
  exists l, dict_keys (add_row d row) = dict_keys d ++ l.
Proof.
  destruct row as [uid areas]. unfold add_row.
  destruct (dict_contains d uid) eqn:Ec; simpl.
  - destruct (dict_get d uid) as [b |] eqn:Eg.
    + exists []. rewrite dict_keys_set, Ec. now rewrite app_nil_r.
    + exists []. now rewrite app_nil_r.
  - rewrite dict_get_set_eq. exists [uid].
    rewrite !dict_keys_set, Ec. rewrite dict_contains_set, keyb_refl. reflexivity.
Qed.

Lemma add_rows_keys (rows : list (UID * list Z)) :
  forall d, exists l, dict_keys (fold_left add_row rows d) = dict_keys d ++ l.
Proof.
  induction rows as [| row rows IH]; intros d; simpl.
  - exists []. now rewrite app_nil_r.
  - destruct (add_row_keys d row) as [l1 E1]. destruct (IH (add_row d row)) as [l2 E2].
    exists (l1 ++ l2). now rewrite E2, E1, app_assoc.
Qed.

(** The population that the loop of [load_ITDs] builds. *)
Lemma load_rows_spec (rows : list (UID * list Z)) :
  population_wf (load_rows rows)
  /\ (forall uid, In uid (dict_keys (load_rows rows)) <-> In uid (map fst rows))
  /\ (forall uid, In uid (map fst rows) ->
        dict_get (load_rows rows) uid
        = Some (ITD_init (builder_of uid (records_of rows uid))))
  /\ dict_keys (load_rows rows) = dict_keys (fold_left add_row rows []).
Proof.
  destruct (add_rows_spec rows) as [Hwf Hget]. unfold load_rows, build_ITDs.
  set (d := fold_left add_row rows []) in *.
  assert (Huid : forall k b, In (k, b) d ->
            builder_uid b = k /\ b = builder_of k (records_of rows k)).
  { intros k b Hi. apply (dict_In_get _ _ _ Hwf) in Hi. rewrite Hget in Hi.
    destruct (mem k (map fst rows)); [| discriminate].
    injection Hi as <-. split; [apply builder_of_uid | reflexivity]. }
  assert (Hkeys : map (fun kb : UID * ITDBuilder => builder_uid (snd kb)) d = dict_keys d).
  { unfold dict_keys. apply map_ext_in. intros [k b] Hi. simpl. now apply Huid. }
  rewrite build_ITDs_fold by (simpl; rewrite Hkeys; exact Hwf). simpl.
  assert (Hmap : map (fun kb : UID * ITDBuilder => (builder_uid (snd kb), ITD_init (snd kb))) d
                 = map (fun kb => (fst kb, (fun _ b => ITD_init b) (fst kb) (snd kb))) d).
  { apply map_ext_in. intros [k b] Hi. simpl. f_equal. now apply Huid. }
  rewrite Hmap.
  assert (Hk : dict_keys (map (fun kb : UID * ITDBuilder =>
                 (fst kb, (fun _ b => ITD_init b) (fst kb) (snd kb))) d) = dict_keys d).
  { unfold dict_keys. rewrite map_map. reflexivity. }
  assert (Hin : forall uid, In uid (dict_keys d) <-> In uid (map fst rows)).
  { intros uid. rewrite <- dict_contains_true. unfold dict_contains. rewrite Hget.
    rewrite <- mem_In. destruct (mem uid (map fst rows)); split; congruence. }
  split; [split |]; [| | split; [| split]].
  - unfold dict_wf. rewrite Hk. exact Hwf.
  - intros uid itd Hi. apply in_map_iff in Hi as [[k b] [[= <- <-] Hi]].
    apply Huid in Hi as [_ ->]. apply ITD_init_wf, builder_of_wf.
  - intros uid. rewrite Hk. apply Hin.
  - intros uid Hi.
    rewrite (dict_get_map_values (fun _ b => ITD_init b) d uid), Hget.
    apply mem_In in Hi. now rewrite Hi.
  - exact Hk.
Qed.

(** X3. The population that the loop of [load_ITDs] builds from the rows
    of the table is well formed, has exactly the users that occur in a
    row, and gives each of them the ITD of a builder to which the records
    of the user were added in the order of the rows. *)
Theorem load_rows_builds_each_users_ITD (rows : list (UID * list Z)) :
  population_wf (load_rows rows)
  /\ (forall uid, In uid (dict_keys (load_rows rows)) <-> In uid (map fst rows))
  /\ (forall uid, In uid (map fst rows) ->
        dict_get (load_rows rows) uid
        = Some (ITD_init (builder_of uid (records_of rows uid)))).
Proof.
  destruct (load_rows_spec rows) as (H1 & H2 & H3 & _). auto.
Qed.

(* ================================================================== *)
(** * algo.py: the edges of _risk and _find_riskest                    *)
(* ================================================================== *)

Lemma total_count_zero (itds : Population) (t : Trajectory) :
  (forall uid itd, In (uid, itd) itds -> ITD_count itd t = 0%Z) ->
  total_count t itds = 0%Z.
Proof.
  induction itds as [| [u i] itds IH]; intros Hz; [reflexivity |].
  rewrite total_count_cons, (Hz u i) by now left.
  rewrite IH; [reflexivity |]. intros uid itd Hi. apply (Hz uid itd). now right.
Qed.

Lemma ITD_wf_count_zero (itd : ITD) (t : Trajectory) :
  ITD_wf itd -> (ITD_count itd t = 0%Z <-> ITD_contains itd t = false).
Proof.
  intros (_ & H1 & H0). unfold ITD_contains. rewrite mem_false. split.
  - intros Hz Hi. specialize (H1 t Hi). lia.
  - apply H0.
Qed.

Lemma total_count_pos (itds : Population) (t : Trajectory) uid itd :
  population_wf itds -> In (uid, itd) itds -> In t (trajectories itd) ->
  (0 < total_count t itds)%Z.
Proof.
  intros [_ Hwf] Hi Ht.
  destruct (total_count_bounds itds t Hwf) as [_ Hle].
  specialize (Hle uid itd Hi).
  destruct (Hwf uid itd Hi) as (_ & H1 & _). specialize (H1 t Ht). lia.
Qed.

Lemma risk_raises (cnt : Z) (t : Trajectory) (itds : Population) :
  _risk cnt t itds = Raise ZeroDivisionError <-> total_count t itds = 0%Z.
Proof.
  unfold _risk, py_div.
  destruct (Qeq_bool (inject_Z (total_count t itds)) 0) eqn:E.
  - apply Qeq_bool_iff in E. unfold Qeq in E. simpl in E.
    split; [intros _; lia | reflexivity].
  - split; [discriminate |]. intros Hz. rewrite Hz in E. discriminate.
Qed.

(** X4. In a well-formed population [_risk] raises [ZeroDivisionError]
    exactly for a trajectory that no user holds (in particular for every
    trajectory when the population is empty), whatever the count passed;
    for a trajectory that some user holds it returns the count divided by
    the population's total for the trajectory. *)
Theorem risk_raises_iff_nobody_holds (itds : Population) (cnt : Z) (t : Trajectory) :
  population_wf itds ->
  (_risk cnt t itds = Raise ZeroDivisionError <->
   forall uid itd, In (uid, itd) itds -> ITD_contains itd t = false)
  /\ ((exists uid itd, In (uid, itd) itds /\ ITD_contains itd t = true) ->
      _risk cnt t itds = Ok (inject_Z cnt / inject_Z (total_count t itds))).
Proof.
  intros Hwf. split.
  - rewrite risk_raises. destruct Hwf as [_ Hwf]. split.
    + intros Hz uid itd Hi. apply ITD_wf_count_zero; [eauto |].
      destruct (total_count_bounds itds t Hwf) as [_ Hle].
      specialize (Hle uid itd Hi).
      pose proof (ITD_wf_count_nonneg itd t (Hwf uid itd Hi)). lia.
    + intros Hno. apply total_count_zero. intros uid itd Hi.
      apply ITD_wf_count_zero; eauto.
  - intros (uid & itd & Hi & Hc). apply risk_value.
    apply mem_In in Hc. eapply total_count_pos; eauto.
Qed.

Lemma risk_raises_iff_nobody_holds_witness :
  (_risk 3 t789 scenario = Raise ZeroDivisionError <->
   forall uid itd, In (uid, itd) scenario -> ITD_contains itd t789 = false)
  /\ ((exists uid itd, In (uid, itd) scenario /\ ITD_contains itd t789 = true) ->
      _risk 3 t789 scenario = Ok (inject_Z 3 / inject_Z (total_count t789 scenario))).
Proof. apply (risk_raises_iff_nobody_holds scenario 3%Z t789). exact scenario_wf. Defined.

(** [max] keeps the first of the largest elements. *)
Lemma py_max_by_first_max {A} (l : list (A * Q)) :
  forall best,
  exists pre post,
    best :: l = pre ++ py_max_by best l :: post
    /\ (forall x, In x pre -> snd x < snd (py_max_by best l))
    /\ (forall x, In x post -> snd x <= snd (py_max_by best l)).
Proof.
  induction l as [| x l IH]; intros best; simpl.
  - exists [], []. repeat split; intros y [].
  - destruct (Qlt_le_dec (snd best) (snd x)) as [Hlt | Hle].
    + destruct (IH x) as (pre & post & E & Hpre & Hpost).
      exists (best :: pre), post. split; [simpl; now rewrite E | split; [| assumption]].
      intros y [<- | Hy]; [| now apply Hpre].
      destruct pre as [| p pre]; simpl in E.
      * injection E as E _. rewrite <- E. exact Hlt.
      * injection E as E _. subst p. specialize (Hpre x (or_introl eq_refl)). lra.
    + destruct (IH best) as (pre & post & E & Hpre & Hpost).
      destruct pre as [| p pre]; simpl in E.
      * injection E as E1 E2. exists [], (x :: post).
        split; [simpl; now rewrite <- E1, <- E2 | split; [intros y [] |]].
        intros y [<- | Hy]; [rewrite <- E1; exact Hle | now apply Hpost].
      * injection E as E1 E2. subst p. exists (best :: x :: pre), post.
        split; [simpl; do 2 f_equal; exact E2 | split; [| assumption]].
        intros y [<- | [<- | Hy]].
        -- apply Hpre. now left.
        -- specialize (Hpre best (or_introl eq_refl)). lra.
        -- apply Hpre. now right.
Qed.

(** The list of pairs that [_find_riskest] and [sanitize] build for a
    user of a well-formed population. *)
Lemma risk_pairs (itds : Population) uid itd :
  population_wf itds -> In (uid, itd) itds ->
  map_result (fun t => v <- _risk (ITD_count itd t) t itds ;; Ok (t, v)) (trajectories itd)
  = Ok (map (fun t => (t, risk_of itds itd t)) (trajectories itd)).
Proof.
  intros Hwf Hi. apply map_result_Ok. intros t Ht.
  rewrite risk_value by (eapply total_count_pos; eauto). reflexivity.
Qed.

(** X5. For a user of a well-formed population whose ITD is not empty,
    [_find_riskest] returns a trajectory of the user whose risk is the
    largest among the user's trajectories; among several of the largest
    risk it is the first in the order of [trajectories]. *)
Theorem find_riskest_first_of_largest_risk (itds : Population) (uid : UID) (itd : ITD) :
  population_wf itds -> dict_get itds uid = Some itd -> trajectories itd <> [] ->
  exists t pre post,
    _find_riskest uid itds = Ok t
    /\ trajectories itd = pre ++ t :: post
    /\ (forall t', In t' pre -> risk_of itds itd t' < risk_of itds itd t)
    /\ (forall t', In t' post -> risk_of itds itd t' <= risk_of itds itd t).
Proof.
  intros Hwf Hg Hne. unfold _find_riskest, dict_getitem. rewrite Hg. simpl.
  rewrite (risk_pairs itds uid itd Hwf) by now apply dict_get_Some_In.
  simpl. destruct (trajectories itd) as [| t0 ts] eqn:Ets; [congruence |].
  simpl.
  set (f := fun t => (t, risk_of itds itd t)).
  destruct (py_max_by_first_max (map f ts) (f t0)) as (pre & post & E & Hpre & Hpost).
  set (r := py_max_by (f t0) (map f ts)) in *.
  assert (Hall : forall x, In x (f t0 :: map f ts) -> x = f (fst x)).
  { intros x [<- | Hx]; [reflexivity |]. apply in_map_iff in Hx as [t' [<- _]]. reflexivity. }
  assert (Hr : snd r = risk_of itds itd (fst r)).
  { rewrite (Hall r) at 1; [reflexivity |]. rewrite E. apply in_or_app. right. now left. }
  exists (fst r), (map fst pre), (map fst post). repeat split.
  - assert (Hm : t0 :: ts = map fst (f t0 :: map f ts)).
    { simpl. rewrite map_map. simpl. now rewrite map_id. }
    rewrite Hm, E, map_app. reflexivity.
  - intros t' Ht'. apply in_map_iff in Ht' as [x [<- Hx]].
    specialize (Hpre x Hx). rewrite <- Hr.
    rewrite (Hall x) in Hpre at 1; [exact Hpre |].
    rewrite E. apply in_or_app. now left.
  - intros t' Ht'. apply in_map_iff in Ht' as [x [<- Hx]].
    specialize (Hpost x Hx). rewrite <- Hr.
    rewrite (Hall x) in Hpost at 1; [exact Hpost |].
    rewrite E. apply in_or_app. right. now right.
Qed.

Lemma find_riskest_first_of_largest_risk_witness :
  exists t pre post,
    _find_riskest 1 scenario = Ok t
    /\ trajectories (ITD_init builder_A) = pre ++ t :: post
    /\ (forall t', In t' pre ->
          risk_of scenario (ITD_init builder_A) t' < risk_of scenario (ITD_init builder_A) t)
    /\ (forall t', In t' post ->
          risk_of scenario (ITD_init builder_A) t' <= risk_of scenario (ITD_init builder_A) t).
Proof.
  apply (find_riskest_first_of_largest_risk scenario 1%Z (ITD_init builder_A)).
  - exact scenario_wf.
  - reflexivity.
  - discriminate.
Defined.


(* ================================================================== *)
(** * algo.py: more on the relations and the closure                   *)
(* ================================================================== *)

Lemma strong_NoDup (riskest : dict UID Trajectory) (u : UID) :
  NoDup (strong_of riskest u).
Proof.
  destruct (group_by_riskest_spec riskest) as (Gwf & Gin & Gnd).
  unfold strong_of, _find_strong_relations. revert u.
  apply (fold_left_inv (fun _ rel => forall u, NoDup (dd_get rel u))
           _ (group_by_riskest riskest) []).
  - intros u. constructor.
  - intros done [t uids] rel [rest Hrest] IH u. simpl in Hrest.
    destruct (1 <? length uids)%nat; [| apply IH].
    rewrite strong_inner_spec. destruct (mem u uids); [| apply IH].
    unfold set_remove. apply NoDup_filter.
    assert (Hi : In (t, uids) (group_by_riskest riskest)).
    { rewrite Hrest. apply in_or_app. right. now left. }
    specialize (Gnd t). unfold dd_get in Gnd.
    now rewrite (dict_In_get _ _ _ Gwf Hi) in Gnd.
Qed.

Lemma weak_inner_get (riskest : dict UID Trajectory) (strong : dict UID (list UID))
    (uid1 : UID) (l : Population) :
  forall weak u,
    dd_get (fold_left
              (fun weak '(uid2, itd2) =>
                 if weak_cond riskest strong uid1 uid2 itd2
                 then dict_set weak uid1 (dd_get weak uid1 ++ [uid2])
                 else weak) l weak) u
    = if key_eq_dec uid1 u
      then dd_get weak uid1
           ++ dict_keys (filter (fun '(v, itd_v) => weak_cond riskest strong uid1 v itd_v) l)
      else dd_get weak u.
Proof.
  induction l as [| [uid2 itd2] l IH]; intros weak u; simpl.
  - destruct (key_eq_dec uid1 u) as [<- | N]; [now rewrite app_nil_r | reflexivity].
  - rewrite IH. destruct (weak_cond riskest strong uid1 uid2 itd2) eqn:Ec.
    + rewrite !dd_get_set. destruct (key_eq_dec uid1 uid1) as [_ | N]; [| congruence].
      destruct (key_eq_dec uid1 u) as [<- | N]; [| reflexivity].
      simpl. now rewrite <- app_assoc.
    + reflexivity.
Qed.

(** The weak relations of a user, as a list: the users of the population
    that pass the test of the inner loop, in the order of the population. *)
Lemma weak_of_filter (riskest : dict UID Trajectory) (itds : Population) (u : UID) :
  dict_wf itds ->
  weak_of riskest itds u
  = if mem u (dict_keys itds)
    then dict_keys (filter (fun '(v, itd_v) =>
                              weak_cond riskest (_find_strong_relations riskest) u v itd_v)
                           itds)
    else [].
Proof.
  intros Hwf. unfold weak_of. rewrite find_weak_relations_unfold. revert u.
  apply (fold_left_inv
           (fun done weak => forall u,
                dd_get weak u
                = if mem u (dict_keys done)
                  then dict_keys (filter (fun '(v, itd_v) =>
                         weak_cond riskest (_find_strong_relations riskest) u v itd_v) itds)
                  else [])
           _ itds []).
  - reflexivity.
  - intros done [uid1 itd1] weak [rest Hrest] IH u. simpl in Hrest.
    assert (Hfresh : mem uid1 (dict_keys done) = false).
    { apply mem_false. intros Hi. unfold dict_wf in Hwf. rewrite Hrest in Hwf.
      unfold dict_keys in Hwf. rewrite map_app in Hwf. simpl in Hwf.
      apply NoDup_remove_2 in Hwf. apply Hwf. apply in_or_app. now left. }
    assert (Hk : dict_keys (done ++ [(uid1, itd1)]) = dict_keys done ++ [uid1])
      by (unfold dict_keys; now rewrite map_app).
    rewrite weak_inner_get, Hk, mem_app.
    change (mem u [uid1]) with (keyb u uid1 || false).
    destruct (key_eq_dec uid1 u) as [<- | N].
    + rewrite IH, Hfresh, keyb_refl. reflexivity.
    + rewrite IH.
      assert (E : keyb u uid1 = false) by (apply keyb_false; congruence).
      now rewrite E, !orb_false_r.
Qed.

Lemma dict_keys_filter_NoDup {V} (f : UID * V -> bool) (d : dict UID V) :
  dict_wf d -> NoDup (dict_keys (filter f d)).
Proof.
  unfold dict_wf, dict_keys. induction d as [| [k v] d IH]; simpl; intros Hnd.
  - constructor.
  - inversion Hnd as [| ? ? Hni Hnd']; subst.
    destruct (f (k, v)); simpl; [constructor |]; auto.
    intros Hi. apply Hni. apply in_map_iff in Hi as [[k' v'] [E Hi]].
    apply filter_In in Hi as [Hi _]. simpl in E. subst k'.
    change k with (fst (k, v')). now apply in_map.
Qed.

Lemma weak_NoDup (riskest : dict UID Trajectory) (itds : Population) (u : UID) :
  dict_wf itds -> NoDup (weak_of riskest itds u).
Proof.
  intros Hwf. rewrite weak_of_filter by assumption.
  destruct (mem u (dict_keys itds)); [now apply dict_keys_filter_NoDup | constructor].
Qed.

(** X7. The weak relations of a user [u] of the population are the users
    [v] other than [u] whose ITD contains the riskiest trajectory of [u]
    while that trajectory is not the riskiest of [v]; the list has them
    once each, in the order of the population; and a call with an empty
    table of strong relations computes the strong relations itself. *)
Theorem weak_relations_in_population_order
    (riskest : dict UID Trajectory) (itds : Population) (u : UID) :
  dict_wf itds -> dict_wf riskest -> In u (dict_keys itds) ->
  weak_of riskest itds u
  = dict_keys (filter (fun '(v, itd_v) =>
                         weak_cond riskest (_find_strong_relations riskest) u v itd_v) itds)
  /\ NoDup (weak_of riskest itds u)
  /\ (forall v, In v (weak_of riskest itds u) <->
        u <> v /\ exists itd_v t,
          In (v, itd_v) itds /\ dict_get riskest u = Some t
          /\ In t (trajectories itd_v) /\ dict_get riskest v <> Some t)
  /\ _find_weak_relations riskest itds []
     = _find_weak_relations riskest itds (_find_strong_relations riskest).
Proof.
  intros Hwf Hr Hu. split; [| split; [| split]].
  - rewrite weak_of_filter by assumption. apply mem_In in Hu. now rewrite Hu.
  - now apply weak_NoDup.
  - intros v. split.
    + intros Hw. apply weak_spec in Hw as (N & _ & (itd_v & t & Hv & Ht & Hi) & Hs).
      split; [assumption |]. exists itd_v, t. repeat split; try assumption.
      intros Hv'. apply Hs. apply strong_spec; [assumption |].
      split; [assumption | now exists t].
    + intros (N & itd_v & t & Hv & Ht & Hi & Hd). apply weak_spec.
      repeat split; try assumption.
      * exists itd_v, t. auto.
      * intros Hs. apply strong_spec in Hs as (_ & t' & Ht' & Hv'); [| assumption].
        congruence.
  - unfold _find_weak_relations.
    destruct (_find_strong_relations riskest); reflexivity.
Qed.

Lemma weak_relations_in_population_order_witness :
  weak_of riskest3 scenario3 2%Z
  = dict_keys (filter (fun '(v, itd_v) =>
                         weak_cond riskest3 (_find_strong_relations riskest3) 2%Z v itd_v)
                      scenario3)
  /\ NoDup (weak_of riskest3 scenario3 2%Z)
  /\ (forall v, In v (weak_of riskest3 scenario3 2%Z) <->
        2%Z <> v /\ exists itd_v t,
          In (v, itd_v) scenario3 /\ dict_get riskest3 2%Z = Some t
          /\ In t (trajectories itd_v) /\ dict_get riskest3 v <> Some t)
  /\ _find_weak_relations riskest3 scenario3 []
     = _find_weak_relations riskest3 scenario3 (_find_strong_relations riskest3).
Proof.
  apply (weak_relations_in_population_order riskest3 scenario3 2%Z).
  - repeat constructor; simpl; intuition discriminate.
  - repeat constructor; simpl; intuition discriminate.
  - simpl. tauto.
Defined.

(** ** Errors of the closure *)

Lemma for_each_ok_or_raise {A S} (I : S -> Prop) (e : exn) (body : A -> S -> result S) :
  (forall x s, I s -> (exists s', body x s = Ok s' /\ I s') \/ body x s = Raise e) ->
  forall xs s, I s ->
    (exists s', for_each xs body s = Ok s' /\ I s') \/ for_each xs body s = Raise e.
Proof.
  intros Hstep. induction xs as [| x xs IH]; intros s HI; simpl.
  - left. now exists s.
  - destruct (Hstep x s HI) as [[s1 [E1 HI1]] | E1]; rewrite E1; simpl; [| now right].
    now apply IH.
Qed.

Lemma for_each_raise {A S} (I : S -> Prop) (e : exn) (body : A -> S -> result S) :
  (forall x s, I s -> (exists s', body x s = Ok s' /\ I s') \/ body x s = Raise e) ->
  forall xs s, I s ->
    (exists x, In x xs /\ forall s, I s -> body x s = Raise e) ->
    for_each xs body s = Raise e.
Proof.
  intros Hstep. induction xs as [| x xs IH]; intros s HI [bad [Hin Hbad]]; simpl.
  - destruct Hin.
  - destruct Hin as [-> | Hin].
    + now rewrite (Hbad s HI).
    + destruct (Hstep x s HI) as [[s1 [E1 HI1]] | E1]; rewrite E1; simpl; [| reflexivity].
      apply IH; [assumption |]. now exists bad.
Qed.

Lemma dict_append_outcome (affected : dict UID (list UID)) (x k : UID) :
  (exists affected', dict_append affected x k = Ok affected'
                     /\ dict_keys affected' = dict_keys affected)
  \/ dict_append affected x k = Raise KeyError.
Proof.
  destruct (in_dec Z.eq_dec x (dict_keys affected)) as [Hi | Hn].
  - left. destruct (dict_append_spec affected x k Hi) as [a' (E & Hk & _)]. now exists a'.
  - right. unfold dict_append, dict_getitem. apply dict_get_None in Hn. now rewrite Hn.
Qed.

Lemma dict_append_raise (affected : dict UID (list UID)) (x k : UID) :
  ~ In x (dict_keys affected) -> dict_append affected x k = Raise KeyError.
Proof.
  intros Hn. unfold dict_append, dict_getitem. apply dict_get_None in Hn. now rewrite Hn.
Qed.

Lemma add_affected_inner (keys : list UID) (k : UID) (l : list UID)
    (affected : dict UID (list UID)) :
  dict_keys affected = keys ->
  (exists affected',
      for_each l (fun v affected => dict_append affected v k) affected = Ok affected'
      /\ dict_keys affected' = keys)
  \/ for_each l (fun v affected => dict_append affected v k) affected = Raise KeyError.
Proof.
  intros Hk.
  apply (for_each_ok_or_raise (fun a => dict_keys a = keys) KeyError); [| assumption].
  intros v a Ha. destruct (dict_append_outcome a v k) as [[a' [E Hk']] | E].
  - left. exists a'. split; [assumption | congruence].
  - now right.
Qed.

Lemma add_affected_raises (relations affected : dict UID (list UID)) (u v : UID) (l : list UID) :
  In (u, l) relations -> In v l -> ~ In v (dict_keys affected) ->
  add_affected relations affected = Raise KeyError.
Proof.
  intros Hl Hv Hn. unfold add_affected.
  apply (for_each_raise (fun a => dict_keys a = dict_keys affected) KeyError).
  - intros [k0 l0] a Ha. now apply add_affected_inner.
  - reflexivity.
  - exists (u, l). split; [assumption |]. intros a Ha.
    apply (for_each_raise (fun a => dict_keys a = dict_keys affected) KeyError).
    + intros x a0 Ha0. destruct (dict_append_outcome a0 x u) as [[a' [E Hk']] | E].
      * left. exists a'. split; [assumption | congruence].
      * now right.
    + assumption.
    + exists v. split; [assumption |]. intros a0 Ha0. apply dict_append_raise. congruence.
Qed.

Lemma strong_partners_inside_spec (riskest : dict UID Trajectory) (itds : Population) :
  strong_partners_inside riskest itds = true <->
  forall u v, In v (strong_of riskest u) -> In v (dict_keys itds).
Proof.
  unfold strong_partners_inside. rewrite forallb_forall. split.
  - intros Hall u v Hv. unfold strong_of in Hv.
    apply dd_get_items in Hv as (l & Hl & Hv); [| apply strong_wf].
    specialize (Hall (u, l) Hl). simpl in Hall. rewrite forallb_forall in Hall.
    apply mem_In. now apply Hall.
  - intros Hall [u l] Hl. apply forallb_forall. intros v Hv. apply mem_In.
    apply (Hall u). unfold strong_of. apply dd_get_items; [apply strong_wf | eauto].
Qed.

(** X8. [_affected_by] raises [KeyError] exactly when some strong
    relation names a user that is not in the population, that is when the
    assignment gives a user outside the population the riskiest
    trajectory of another user; otherwise it returns a table with an
    entry for every user of the population, also when the assignment
    has further users outside the population. *)
Theorem affected_by_raises_iff_strong_partner_outside
    (riskest : dict UID Trajectory) (itds : Population) :
  (strong_partners_inside riskest itds = false <->
   exists u v, In v (strong_of riskest u) /\ ~ In v (dict_keys itds))
  /\ if strong_partners_inside riskest itds
     then exists affected,
            _affected_by riskest itds = Ok affected
            /\ dict_keys affected = dict_keys itds
     else _affected_by riskest itds = Raise KeyError.
Proof.
  assert (Hbad : strong_partners_inside riskest itds = false ->
                 exists u l v, In (u, l) (_find_strong_relations riskest)
                               /\ In v l /\ ~ In v (dict_keys itds)).
  { unfold strong_partners_inside. intros Hf.
    induction (_find_strong_relations riskest) as [| [u l] rel IH]; [discriminate |].
    simpl in Hf. apply andb_false_iff in Hf as [Hf | Hf].
    - exists u, l. clear IH.
      induction l as [| v l IHl]; [discriminate |].
      simpl in Hf. apply andb_false_iff in Hf as [Hf | Hf].
      + exists v. apply mem_false in Hf. repeat split; [now left | now left | assumption].
      + destruct (IHl Hf) as (v' & _ & Hv' & Hn). exists v'.
        repeat split; [now left | now right | assumption].
    - destruct (IH Hf) as (u' & l' & v' & Hl & Hv & Hn). exists u', l', v'.
      repeat split; [now right | assumption | assumption]. }
  split.
  - split.
    + intros Hf. destruct (Hbad Hf) as (u & l & v & Hl & Hv & Hn). exists u, v.
      split; [| assumption]. unfold strong_of. apply dd_get_items; [apply strong_wf | eauto].
    + intros (u & v & Hv & Hn).
      destruct (strong_partners_inside riskest itds) eqn:E; [| reflexivity].
      exfalso. apply Hn. now apply (proj1 (strong_partners_inside_spec riskest itds) E u v).
  - destruct (strong_partners_inside riskest itds) eqn:E.
    + assert (Hall := proj1 (strong_partners_inside_spec riskest itds) E).
      unfold _affected_by.
      destruct (add_affected_spec (_find_strong_relations riskest)
                  (map (fun '(uid, _) => (uid, [uid])) itds)) as [aff1 (E1 & K1 & H1)].
      { intros k l v Hl Hv. rewrite (proj1 (initial_affected itds v)).
        apply (Hall k). unfold strong_of. apply dd_get_items; [apply strong_wf | eauto]. }
      rewrite E1. simpl.
      destruct (add_affected_spec
                  (_find_weak_relations riskest itds (_find_strong_relations riskest)) aff1)
        as [aff2 (E2 & K2 & H2)].
      { intros k l v Hl Hv. rewrite K1, (proj1 (initial_affected itds v)).
        apply (weak_in_population riskest itds k v).
        apply dd_get_items; [apply weak_wf | eauto]. }
      exists aff2. split; [exact E2 |].
      rewrite K2, K1. apply (initial_affected itds 0%Z).
    + destruct (Hbad eq_refl) as (u & l & v & Hl & Hv & Hn). unfold _affected_by.
      rewrite (add_affected_raises _ _ u v l Hl Hv); [reflexivity |].
      now rewrite (proj1 (initial_affected itds v)).
Qed.

Lemma length_set_remove (l : list UID) (u : UID) :
  NoDup l -> In u l -> length (set_remove l u) = (length l - 1)%nat.
Proof.
  unfold set_remove. induction 1 as [| x l Hni Hnd IH]; intros Hin; [destruct Hin |].
  simpl. destruct (keyb x u) eqn:E; simpl.
  - apply keyb_true in E. subst x. rewrite Nat.sub_0_r.
    f_equal. clear IH Hin Hnd. induction l as [| y l IHl]; [reflexivity |].
    simpl. destruct (keyb y u) eqn:Ey.
    + apply keyb_true in Ey. subst y. exfalso. apply Hni. now left.
    + simpl. f_equal. apply IHl. intros Hin. apply Hni. now right.
  - apply keyb_false in E. destruct Hin as [-> | Hin]; [congruence |].
    rewrite IH by assumption. destruct l; [destruct Hin | simpl; lia].
Qed.

(** X26. For an assignment with distinct keys and a user [u] with
    riskiest trajectory [t], the list of strong relations of [u] names
    every other user with the same riskiest trajectory exactly once and
    never [u] itself: it is a rearrangement of the sharers of [t] without
    [u], and has one element less than there are sharers; a user outside
    the assignment has no strong relation. *)
Theorem strong_relations_are_the_other_sharers
    (riskest : dict UID Trajectory) (u : UID) :
  dict_wf riskest ->
  match dict_get riskest u with
  | Some t =>
      Permutation (strong_of riskest u) (set_remove (sharers riskest t) u)
      /\ NoDup (strong_of riskest u)
      /\ ~ In u (strong_of riskest u)
      /\ length (strong_of riskest u) = (length (sharers riskest t) - 1)%nat
  | None => strong_of riskest u = []
  end.
Proof.
  intros Hwf. destruct (dict_get riskest u) as [t |] eqn:Eu.
  - assert (Hsh : NoDup (sharers riskest t)).
    { unfold sharers. now apply dict_keys_filter_NoDup. }
    assert (Hu : In u (sharers riskest t)).
    { apply sharers_In. now apply dict_get_Some_In. }
    assert (Hperm : Permutation (strong_of riskest u) (set_remove (sharers riskest t) u)).
    { apply NoDup_Permutation.
      - apply strong_NoDup.
      - unfold set_remove. now apply NoDup_filter.
      - intros v. rewrite (strong_spec riskest u v Hwf), set_remove_In, sharers_In. split.
        + intros (N & t' & Hu' & Hv). assert (t' = t) by congruence. subst t'.
          split; [now apply dict_get_Some_In | congruence].
        + intros (Hv & N). split; [congruence |]. exists t.
          split; [assumption | now apply dict_In_get]. }
    split; [exact Hperm |]. split; [apply strong_NoDup |]. split.
    + intros Hin. apply (strong_spec riskest u u Hwf) in Hin as [N _]. now apply N.
    + rewrite (Permutation_length Hperm). now apply length_set_remove.
  - destruct (strong_of riskest u) as [| v l] eqn:E; [reflexivity |].
    assert (Hin : In v (strong_of riskest u)) by (rewrite E; now left).
    apply (strong_spec riskest u v Hwf) in Hin as (_ & t & Hu & _). congruence.
Qed.

Lemma strong_relations_are_the_other_sharers_witness :
  match dict_get riskest3 1%Z with
  | Some t =>
      Permutation (strong_of riskest3 1%Z) (set_remove (sharers riskest3 t) 1%Z)
      /\ NoDup (strong_of riskest3 1%Z)
      /\ ~ In 1%Z (strong_of riskest3 1%Z)
      /\ length (strong_of riskest3 1%Z) = (length (sharers riskest3 t) - 1)%nat
  | None => strong_of riskest3 1%Z = []
  end.
Proof.
  apply (strong_relations_are_the_other_sharers riskest3 1%Z).
  exact (proj1 riskest3_wf).
Defined.

(* ================================================================== *)
(** * algo.py: the affected lists and the shift of the budgets         *)
(* ================================================================== *)

Lemma dict_append_inv (aff aff' : dict UID (list UID)) (v k : UID) :
  dict_append aff v k = Ok aff' ->
  forall u, dd_get aff' u = if key_eq_dec v u then dd_get aff u ++ [k] else dd_get aff u.
Proof.
  unfold dict_append, dict_getitem.
  destruct (dict_get aff v) as [l |] eqn:E; simpl; [| discriminate].
  intros [= <-] u. rewrite dd_get_set.
  destruct (key_eq_dec v u) as [<- | N]; [| reflexivity].
  unfold dd_get. now rewrite E.
Qed.

Lemma append_loop_get (k : UID) (l : list UID) :
  NoDup l ->
  forall aff aff',
    for_each l (fun v a => dict_append a v k) aff = Ok aff' ->
    forall u, dd_get aff' u = if mem u l then dd_get aff u ++ [k] else dd_get aff u.
Proof.
  induction 1 as [| v l Hni Hnd IH]; intros aff aff' E u; simpl in E.
  - injection E as <-. reflexivity.
  - apply bind_Ok in E as [a1 [E1 E2]].
    rewrite (IH a1 aff' E2 u), (dict_append_inv _ _ _ _ E1 u).
    change (mem u (v :: l)) with (keyb u v || mem u l).
    destruct (key_eq_dec v u) as [<- | N].
    + rewrite keyb_refl. apply mem_false in Hni. now rewrite Hni.
    + assert (Ek : keyb u v = false) by (apply keyb_false; congruence).
      now rewrite Ek.
Qed.

Lemma add_affected_NoDup (relations : dict UID (list UID)) :
  dict_wf relations ->
  (forall k l, In (k, l) relations -> NoDup l) ->
  forall aff aff',
    (forall k l v, In (k, l) relations -> In v l -> ~ In k (dd_get aff v)) ->
    (forall u, NoDup (dd_get aff u)) ->
    add_affected relations aff = Ok aff' ->
    forall u, NoDup (dd_get aff' u).
Proof.
  unfold add_affected, dict_wf.
  induction relations as [| [k l] rel IH]; intros Hwf Hnd aff aff' Hfresh Haff E u;
    simpl in E.
  - injection E as <-. apply Haff.
  - apply bind_Ok in E as [a1 [E1 E2]].
    assert (Hget := append_loop_get k l (Hnd k l (or_introl eq_refl)) aff a1 E1).
    simpl in Hwf. inversion Hwf as [| ? ? Hk Hwf']; subst.
    apply (IH Hwf' (fun k' l' Hi => Hnd k' l' (or_intror Hi)) a1 aff'); [| | exact E2].
    + intros k' l' v Hl' Hv. rewrite Hget. destruct (mem v l) eqn:Em.
      * rewrite in_app_iff. intros [Hi | [<- | []]].
        -- apply (Hfresh k' l' v); [now right | assumption | assumption].
        -- apply Hk. eapply In_dict_keys; eauto.
      * apply (Hfresh k' l' v); [now right | assumption].
    + intros u'. rewrite Hget. destruct (mem u' l) eqn:Em; [| apply Haff].
      apply mem_In in Em.
      apply NoDup_app; [apply Haff | repeat constructor; simpl; tauto |].
      intros x Hx [<- | []]. apply (Hfresh k l u'); [now left | assumption | assumption].
Qed.

Lemma items_dd_get (d : dict UID (list UID)) (k : UID) (l : list UID) :
  dict_wf d -> In (k, l) d -> dd_get d k = l.
Proof. intros Hwf Hi. unfold dd_get. now rewrite (dict_In_get _ _ _ Hwf Hi). Qed.

Lemma affected_NoDup (riskest : dict UID Trajectory) (itds : Population)
    (affected : dict UID (list UID)) (u : UID) :
  dict_wf itds -> riskest_wf itds riskest ->
  _affected_by riskest itds = Ok affected -> NoDup (dd_get affected u).
Proof.
  intros Hwf [Hr Hsub] E. unfold _affected_by in E. apply bind_Ok in E as [aff1 [E1 E2]].
  set (init := map (fun '(uid, _) => (uid, [uid])) itds) in *.
  assert (Hinit : forall v, NoDup (dd_get init v)).
  { intros v. destruct (in_dec Z.eq_dec v (dict_keys itds)) as [Hi | Hn].
    - unfold init. rewrite (proj1 (proj2 (initial_affected itds v)) Hi).
      repeat constructor. simpl. tauto.
    - unfold init. rewrite (proj2 (proj2 (initial_affected itds v)) Hn). constructor. }
  assert (Hinit_in : forall v x, In x (dd_get init v) -> x = v).
  { intros v x. destruct (in_dec Z.eq_dec v (dict_keys itds)) as [Hi | Hn].
    - unfold init. rewrite (proj1 (proj2 (initial_affected itds v)) Hi).
      intros [<- | []]. reflexivity.
    - unfold init. rewrite (proj2 (proj2 (initial_affected itds v)) Hn). intros []. }
  assert (Hstrong : forall k l, In (k, l) (_find_strong_relations riskest) ->
                                l = strong_of riskest k).
  { intros k l Hi. symmetry. now apply items_dd_get; [apply strong_wf |]. }
  assert (Hweak : forall k l,
             In (k, l) (_find_weak_relations riskest itds (_find_strong_relations riskest)) ->
             l = weak_of riskest itds k).
  { intros k l Hi. symmetry. now apply items_dd_get; [apply weak_wf |]. }
  assert (Hnd1 : forall v, NoDup (dd_get aff1 v)).
  { apply (add_affected_NoDup (_find_strong_relations riskest) (strong_wf riskest))
      with (aff := init); [| | exact Hinit | exact E1].
    - intros k l Hi. rewrite (Hstrong k l Hi). apply strong_NoDup.
    - intros k l v Hl Hv Hk. apply Hinit_in in Hk. subst v.
      rewrite (Hstrong k l Hl) in Hv.
      apply (strong_spec riskest k k Hr) in Hv as [N _]. now apply N. }
  assert (Hin1 : forall v x, In x (dd_get aff1 v) -> x = v \/ In v (strong_of riskest x)).
  { destruct (add_affected_spec (_find_strong_relations riskest) init)
      as [aff1' (E1' & _ & H1)].
    { intros k l v Hl Hv. unfold init. rewrite (proj1 (initial_affected itds v)).
      apply Hsub. rewrite (Hstrong k l Hl) in Hv.
      now apply (strong_in_riskest riskest k v Hr). }
    assert (aff1' = aff1) by congruence. subst aff1'.
    intros v x Hx. apply H1 in Hx as [Hx | (l & Hl & Hv)].
    - left. now apply Hinit_in.
    - right. now rewrite <- (Hstrong x l Hl). }
  apply (add_affected_NoDup _ (weak_wf riskest itds)) with (aff := aff1);
    [| | exact Hnd1 | exact E2].
  - intros k l Hi. rewrite (Hweak k l Hi). now apply weak_NoDup.
  - intros k l v Hl Hv Hk. rewrite (Hweak k l Hl) in Hv.
    apply weak_spec in Hv as (N & _ & _ & Hs).
    apply Hin1 in Hk as [-> | Hk]; [now apply N | now apply Hs].
Qed.

(** X9. For a population and an assignment over its users, the list
    [affected[u]] of a user names no user twice, so the loop
    [for uid_ in affected[u]: epsl[uid_] += delta] adds [delta] exactly
    once to the budget of every member of the list and leaves every other
    budget as it is. *)
Theorem shift_moves_each_affected_budget_once
    (itds : Population) (riskest : dict UID Trajectory) (epsl : dict UID Q)
    (u : UID) (delta : Q) :
  dict_wf itds -> riskest_wf itds riskest -> epsl_covers itds epsl ->
  In u (dict_keys itds) ->
  exists affected epsl',
    _affected_by riskest itds = Ok affected
    /\ NoDup (dd_get affected u)
    /\ shift_budgets affected u delta epsl = Ok epsl'
    /\ dict_keys epsl' = dict_keys epsl
    /\ forall v e, dict_get epsl v = Some e ->
         exists e', dict_get epsl' v = Some e'
                    /\ e' == (if mem v (dd_get affected u) then e + delta else e).
Proof.
  intros Hwf Hrisk Hcov Hu.
  destruct (affected_by_spec riskest itds Hrisk) as [affected (Ea & _ & _)].
  assert (Hnd := affected_NoDup riskest itds affected u Hwf Hrisk Ea).
  destruct (affected_self itds riskest Hrisk affected u Ea Hu) as [Hget _].
  destruct (shift_loop_spec delta (dd_get affected u) epsl) as [epsl' (E' & K' & G')].
  { intros v Hv. apply (affected_members itds riskest Hrisk affected u v Ea Hu) in Hv.
    destruct (Hcov v Hv) as [e E]. eapply dict_get_In_keys; eauto. }
  exists affected, epsl'. split; [exact Ea |]. split; [exact Hnd |].
  split; [unfold shift_budgets; rewrite Hget; exact E' |]. split; [exact K' |].
  intros v e Hv. destruct (G' v e Hv) as [e' [Ee' He']]. exists e'. split; [exact Ee' |].
  rewrite He'. destruct (mem v (dd_get affected u)) eqn:Em.
  - apply mem_In in Em. apply (NoDup_count_occ' Z.eq_dec) in Em; [| assumption].
    rewrite Em. change (inject_Z (Z.of_nat 1)) with 1. ring.
  - apply mem_false in Em. apply (count_occ_not_In Z.eq_dec) in Em.
    rewrite Em. change (inject_Z (Z.of_nat 0)) with 0. ring.
Qed.

Lemma shift_moves_each_affected_budget_once_witness :
  exists affected epsl',
    _affected_by riskest3 scenario3 = Ok affected
    /\ NoDup (dd_get affected 1%Z)
    /\ shift_budgets affected 1%Z (1 # 20) epsl3 = Ok epsl'
    /\ dict_keys epsl' = dict_keys epsl3
    /\ forall v e, dict_get epsl3 v = Some e ->
         exists e', dict_get epsl' v = Some e'
                    /\ e' == (if mem v (dd_get affected 1%Z) then e + (1 # 20) else e).
Proof.
  apply (shift_moves_each_affected_budget_once scenario3 riskest3 epsl3 1%Z (1 # 20)).
  - exact scenario3_keys.
  - exact riskest3_wf.
  - exact epsl3_covers.
  - simpl. tauto.
Defined.

(* ================================================================== *)
(** * algo.py: the bound solver in closed form, and its errors         *)
(* ================================================================== *)

(** Indices follow the order of the UIDs. *)
Lemma StronglySorted_nth (l : list Z) :
  StronglySorted Z.le l ->
  forall i j x y, (i < j)%nat -> nth_error l i = Some x -> nth_error l j = Some y ->
                  (x <= y)%Z.
Proof.
  induction 1 as [| a l Hs IH Hall]; intros i j x y Hij Hi Hj.
  - destruct i; discriminate.
  - destruct j as [| j]; [lia |]. simpl in Hj. destruct i as [| i]; simpl in Hi.
    + injection Hi as <-. rewrite Forall_forall in Hall. apply Hall.
      eapply nth_error_In; eauto.
    + apply (IH i j); [lia | assumption | assumption].
Qed.

Lemma uid_at_increasing (itds : Population) (i j : nat) :
  dict_wf itds -> (i < j)%nat -> (j < length itds)%nat ->
  (uid_at itds i < uid_at itds j)%Z.
Proof.
  intros Hwf Hij Hj.
  assert (Hi : (i < length itds)%nat) by lia.
  assert (Hle := StronglySorted_nth _ (sorted_sorted (dict_keys itds)) i j _ _ Hij
                   (uid_at_nth itds i Hi) (uid_at_nth itds j Hj)).
  assert (Hne : uid_at itds i <> uid_at itds j).
  { intros E. apply (f_equal (idx_of itds)) in E.
    rewrite !idx_of_uid_at in E by assumption. lia. }
  lia.
Qed.

(** X10. For a population, an assignment over its users and a budget
    vector with a budget for every user, the solver returns a table
    whose keys are the users in UID order (the order of the indices), and
    the value of the user at index [i] is the sum over all indices [j] of
    [weight i j] times the budget of the user at [j]: the user's own
    budget if the user has a relation, the budget of every strong
    relation, and theta times the budget of every user that has [i] as a
    weak relation (not counted when [i] has that user as a weak relation
    too and comes after it). *)
Theorem compute_CIDP_is_a_weighted_sum_of_budgets
    (itds : Population) (riskest : dict UID Trajectory) (epsl : dict UID Q) (theta : Q) :
  dict_wf itds -> riskest_wf itds riskest -> epsl_covers itds epsl ->
  exists cidp,
    compute_CIDP itds riskest epsl theta = Ok cidp
    /\ dict_keys cidp = map (uid_at itds) (seq 0 (length itds))
    /\ (forall i j, (i < j)%nat -> (j < length itds)%nat ->
                    (uid_at itds i < uid_at itds j)%Z)
    /\ forall i, (i < length itds)%nat ->
         exists c, dict_get cidp (uid_at itds i) = Some c
                   /\ c == py_sum (map (fun j => weight itds riskest theta i j
                                                 * eps_at itds epsl j)
                                       (seq 0 (length itds))).
Proof.
  intros Hwf Hrisk Hcov.
  destruct (compute_CIDP_value itds riskest epsl theta Hwf Hrisk Hcov) as [cidp (E & Hk & Hg)].
  exists cidp. split; [exact E |]. split; [| split].
  - rewrite (compute_CIDP_refines itds riskest epsl theta Hwf Hcov Hrisk) in E.
    injection E as <-. unfold dict_keys. rewrite map_map. reflexivity.
  - intros i j Hij Hj. now apply uid_at_increasing.
  - intros i Hi. exists (cidp_at itds riskest epsl theta i). split.
    + rewrite (Hg _ (uid_at_In itds i Hi)). now rewrite idx_of_uid_at.
    + now apply cidp_at_closed_form.
Qed.

Lemma compute_CIDP_is_a_weighted_sum_of_budgets_witness :
  exists cidp,
    compute_CIDP scenario3 riskest3 epsl3 (1 # 4) = Ok cidp
    /\ dict_keys cidp = map (uid_at scenario3) (seq 0 (length scenario3))
    /\ (forall i j, (i < j)%nat -> (j < length scenario3)%nat ->
                    (uid_at scenario3 i < uid_at scenario3 j)%Z)
    /\ forall i, (i < length scenario3)%nat ->
         exists c, dict_get cidp (uid_at scenario3 i) = Some c
                   /\ c == py_sum (map (fun j => weight scenario3 riskest3 (1 # 4) i j
                                                 * eps_at scenario3 epsl3 j)
                                       (seq 0 (length scenario3))).
Proof.
  apply (compute_CIDP_is_a_weighted_sum_of_budgets scenario3 riskest3 epsl3 (1 # 4)).
  - exact scenario3_keys.
  - exact riskest3_wf.
  - exact epsl3_covers.
Defined.

Lemma map_result_raise {A B} (e : exn) (f : A -> result B) (xs : list A) :
  (forall x, In x xs -> (exists y, f x = Ok y) \/ f x = Raise e) ->
  (exists x, In x xs /\ f x = Raise e) ->
  map_result f xs = Raise e.
Proof.
  induction xs as [| x xs IH]; intros Hall [bad [Hin Hbad]]; simpl.
  - destruct Hin.
  - destruct (Hall x (or_introl eq_refl)) as [[y Ey] | Ex]; [| now rewrite Ex].
    rewrite Ey. simpl. rewrite IH; [reflexivity | intros z Hz; apply Hall; now right |].
    destruct Hin as [-> | Hin]; [congruence | now exists bad].
Qed.

(** X11. When the budget vector has no budget for some user of the
    population, the solver raises [KeyError]. *)
Theorem compute_CIDP_raises_without_a_budget
    (itds : Population) (riskest : dict UID Trajectory) (epsl : dict UID Q) (theta : Q)
    (u : UID) :
  dict_wf itds -> In u (dict_keys itds) -> dict_get epsl u = None ->
  compute_CIDP itds riskest epsl theta = Raise KeyError.
Proof.
  intros Hwf Hu Hn. unfold compute_CIDP. cbv zeta.
  rewrite (map_result_raise KeyError); [reflexivity | |].
  - intros i Hi. apply in_seq in Hi. unfold epsl_at.
    rewrite idx2uid_getitem by lia. simpl. unfold dict_getitem.
    destruct (dict_get epsl (uid_at itds i)); simpl; [left; eauto | now right].
  - destruct (uid2idx_In itds Hwf u Hu) as (_ & Hlt & Hat).
    exists (idx_of itds u). split; [apply in_seq; lia |].
    unfold epsl_at. rewrite idx2uid_getitem by assumption. simpl.
    unfold dict_getitem. now rewrite Hat, Hn.
Qed.

Lemma compute_CIDP_raises_without_a_budget_witness :
  compute_CIDP scenario riskest3 [(1%Z, 1 # 10)] (1 # 4) = Raise KeyError.
Proof.
  apply (compute_CIDP_raises_without_a_budget scenario riskest3 [(1%Z, 1 # 10)] (1 # 4) 2%Z).
  - repeat constructor; simpl; intuition discriminate.
  - simpl. tauto.
  - reflexivity.
Defined.

Lemma uid2idx_absent (itds : Population) (v : UID) :
  ~ In v (dict_keys itds) -> dict_getitem (uid2idx itds) v = Raise KeyError.
Proof.
  intros Hn. unfold dict_getitem.
  destruct (dict_get (uid2idx itds) v) as [j |] eqn:E; [| reflexivity].
  exfalso. apply Hn. unfold uid2idx, enumerate in E.
  apply swapped_get_sound in E as [_ E]. apply nth_error_In in E.
  now apply sorted_keys_In.
Qed.

Section SolverErrors.
Variable itds : Population.
Variable riskest : dict UID Trajectory.
Variable epsl : dict UID Q.
Variable theta : Q.
Hypothesis Hwf : dict_wf itds.
Hypothesis Hcov : epsl_covers itds epsl.

Local Abbreviation n := (length itds).

Lemma strong_step_outcome (i : nat) (uid_j : UID) (LR : matrix * matrix) :
  (i < n)%nat -> represented n LR ->
  (exists LR', strong_step itds epsl i uid_j LR = Ok LR' /\ represented n LR')
  \/ strong_step itds epsl i uid_j LR = Raise KeyError.
Proof.
  intros Hi (Lf & Rf & HL & HR). destruct LR as [mL mR]. simpl in HL, HR.
  destruct (in_dec Z.eq_dec uid_j (dict_keys itds)) as [Hj | Hn].
  - left.
    destruct (strong_step_refines itds epsl theta Hwf Hcov i uid_j mL mR Lf Rf Hi Hj HL HR)
      as (mL' & mR' & E & HL' & HR').
    exists (mL', mR'). split; [exact E |]. eexists. eexists. split; eassumption.
  - right. unfold strong_step. now rewrite (uid2idx_absent itds uid_j Hn).
Qed.

Lemma strong_loop_raises (i : nat) (uids : list UID) (v : UID) (LR : matrix * matrix) :
  (i < n)%nat -> represented n LR -> In v uids -> ~ In v (dict_keys itds) ->
  for_each uids (strong_step itds epsl i) LR = Raise KeyError.
Proof.
  intros Hi HLR Hv Hn.
  apply (for_each_raise (represented n) KeyError); [| assumption |].
  - intros x s Hs. now apply strong_step_outcome.
  - exists v. split; [assumption |]. intros [mL mR] _.
    unfold strong_step. now rewrite (uid2idx_absent itds v Hn).
Qed.

Lemma relation_body_outcome (i : nat) (LR : matrix * matrix) :
  (i < n)%nat -> represented n LR ->
  let body :=
    uid_i <- dict_getitem (idx2uid itds) i ;;
    LR <- for_each (dd_get (_find_strong_relations riskest) uid_i)
                   (strong_step itds epsl i) LR ;;
    for_each (dd_get (_find_weak_relations riskest itds (_find_strong_relations riskest))
                     uid_i)
             (weak_step itds epsl theta i) LR in
  (exists LR', body = Ok LR' /\ represented n LR') \/ body = Raise KeyError.
Proof.
  intros Hi HLR body. subst body. rewrite (idx2uid_getitem itds i Hi). simpl.
  destruct (for_each_ok_or_raise (represented n) KeyError (strong_step itds epsl i)
              (fun x s Hs => strong_step_outcome i x s Hi Hs)
              (dd_get (_find_strong_relations riskest) (uid_at itds i)) LR HLR)
    as [[[mL1 mR1] [E1 (Lf & Rf & HL & HR)]] | E1]; rewrite E1; simpl; [| now right].
  left. simpl in HL, HR.
  destruct (inner_loop_refines itds epsl theta Hwf Hcov false i
              (weak_of riskest itds (uid_at itds i)) Hi
              (fun u Hu => proj2 (weak_in_population riskest itds _ u Hu))
              mL1 mR1 Lf Rf HL HR) as (mL2 & mR2 & E2 & HL2 & HR2).
  exists (mL2, mR2). split; [exact E2 |]. eexists. eexists. split; eassumption.
Qed.

Lemma relation_loop_raises (u v : UID) :
  In u (dict_keys itds) -> In v (strong_of riskest u) -> ~ In v (dict_keys itds) ->
  compute_CIDP itds riskest epsl theta = Raise KeyError.
Proof.
  intros Hu Hv Hn.
  assert (Hseq : forall i, In i (seq 0 n) -> (i < n)%nat)
    by (intros i Hi; apply in_seq in Hi; lia).
  destruct (uid2idx_In itds Hwf u Hu) as (_ & Hlt & Hat).
  unfold compute_CIDP. cbv zeta.
  rewrite (map_result_Ok _ (fun i => repeat (- eps_at itds epsl i) n)).
  2:{ intros i Hi. now rewrite (epsl_at_eps_at itds epsl i Hcov (Hseq i Hi)). }
  simpl.
  assert (Hloop : forall idxs LR,
             (forall i, In i idxs -> (i < n)%nat) -> In (idx_of itds u) idxs ->
             represented n LR ->
             for_each idxs
               (fun i LR =>
                  uid_i <- dict_getitem (idx2uid itds) i ;;
                  LR <- for_each (dd_get (_find_strong_relations riskest) uid_i)
                                 (strong_step itds epsl i) LR ;;
                  for_each (dd_get (_find_weak_relations riskest itds
                                      (_find_strong_relations riskest)) uid_i)
                           (weak_step itds epsl theta i) LR)
               LR = Raise KeyError).
  { induction idxs as [| i idxs IH]; intros LR Hlt' Hin HLR; [destruct Hin |].
    simpl. destruct (Nat.eq_dec i (idx_of itds u)) as [-> | Ni].
    - rewrite (idx2uid_getitem itds _ Hlt), Hat. simpl. unfold strong_of in Hv.
      now rewrite (strong_loop_raises (idx_of itds u) _ v LR Hlt HLR Hv Hn).
    - assert (Hi : (i < n)%nat) by (apply Hlt'; now left).
      destruct (relation_body_outcome i LR Hi HLR) as [[LR' [E HLR']] | E];
        cbv zeta in E; rewrite E; simpl; [| reflexivity].
      apply IH; [intros k Hk; apply Hlt'; now right | | assumption].
      destruct Hin as [E0 | Hin]; [congruence | assumption]. }
  unfold matrix in *. rewrite Hloop; [reflexivity | exact Hseq | apply in_seq; lia |].
  eexists. eexists. split; simpl.
  - apply (mat_repr_rows n (fun _ => 0)).
  - apply (mat_repr_rows n (fun a => - eps_at itds epsl a)).
Qed.
End SolverErrors.

(** X12. When the assignment gives the riskiest trajectory of a user of
    the population also to a user outside the population, the solver
    raises [KeyError]: the strong relation names a user that has no
    index. *)
Theorem compute_CIDP_raises_for_a_partner_outside
    (itds : Population) (riskest : dict UID Trajectory) (epsl : dict UID Q) (theta : Q)
    (u v : UID) :
  dict_wf itds -> epsl_covers itds epsl ->
  In u (dict_keys itds) -> In v (strong_of riskest u) -> ~ In v (dict_keys itds) ->
  compute_CIDP itds riskest epsl theta = Raise KeyError.
Proof.
  intros Hwf Hcov Hu Hv Hn.
  now apply (relation_loop_raises itds riskest epsl theta Hwf Hcov u v).
Qed.

Lemma compute_CIDP_raises_for_a_partner_outside_witness :
  compute_CIDP scenario [(1%Z, t123); (5%Z, t123)] epsl3 (1 # 4) = Raise KeyError.
Proof.
  apply (compute_CIDP_raises_for_a_partner_outside
           scenario [(1%Z, t123); (5%Z, t123)] epsl3 (1 # 4) 1%Z 5%Z).
  - repeat constructor; simpl; intuition discriminate.
  - intros u [<- | [<- | []]]; eexists; reflexivity.
  - simpl. tauto.
  - vm_compute. tauto.
  - simpl. intuition discriminate.
Defined.



(* ================================================================== *)
(** * algo.py: what the optimiser returns                              *)
(* ================================================================== *)

Lemma increase_loop_S (fuel : nat) (itds : Population) (riskest : dict UID Trajectory)
    (affected : dict UID (list UID)) (u : UID) (beta : Q) (epsl : dict UID Q) :
  increase_loop (S fuel) itds riskest affected u beta epsl
  = match search_step itds riskest affected u beta epsl with
    | Raise e => Some (Raise e)
    | Ok (epsl1, cidp1, c) =>
        if Qltb 1 c then Some (Ok (epsl1, cidp1))
        else increase_loop fuel itds riskest affected u beta epsl1
    end.
Proof. reflexivity. Qed.

Lemma decrease_loop_S (fuel : nat) (itds : Population) (riskest : dict UID Trajectory)
    (affected : dict UID (list UID)) (u : UID) (beta : Q) (epsl : dict UID Q) :
  decrease_loop (S fuel) itds riskest affected u beta epsl
  = match search_step itds riskest affected u (- beta) epsl with
    | Raise e => Some (Raise e)
    | Ok (epsl1, cidp1, c) =>
        if Qle_bool c 1 then Some (Ok (epsl1, cidp1))
        else decrease_loop fuel itds riskest affected u beta epsl1
    end.
Proof. reflexivity. Qed.

Lemma search_step_inv (itds : Population) (riskest : dict UID Trajectory)
    (affected : dict UID (list UID)) (u : UID) (delta : Q) (epsl epsl1 cidp1 : dict UID Q)
    (c : Q) :
  search_step itds riskest affected u delta epsl = Ok (epsl1, cidp1, c) ->
  shift_budgets affected u delta epsl = Ok epsl1
  /\ compute_CIDP itds riskest epsl1 theta_default = Ok cidp1
  /\ dict_get cidp1 u = Some c.
Proof.
  unfold search_step.
  destruct (shift_budgets affected u delta epsl) as [e1 |] eqn:Es; simpl; [| discriminate].
  destruct (compute_CIDP itds riskest e1 theta_default) as [c1 |] eqn:Ec; simpl;
    [| discriminate].
  unfold dict_getitem. destruct (dict_get c1 u) as [c0 |] eqn:E; simpl; [| discriminate].
  intros [= <- <- <-]. repeat split; assumption || reflexivity.
Qed.

(** The exit test of the two search loops. *)
Lemma search_loops_exit
    (fuel : nat) (itds : Population) (riskest : dict UID Trajectory)
    (affected : dict UID (list UID)) (u : UID) (beta : Q) (epsl : dict UID Q) :
  match increase_loop fuel itds riskest affected u beta epsl with
  | Some (Ok (epsl', cidp')) =>
      compute_CIDP itds riskest epsl' theta_default = Ok cidp'
      /\ exists c, dict_get cidp' u = Some c /\ 1 < c
  | _ => True
  end
  /\ match decrease_loop fuel itds riskest affected u beta epsl with
     | Some (Ok (epsl', cidp')) =>
         compute_CIDP itds riskest epsl' theta_default = Ok cidp'
         /\ exists c, dict_get cidp' u = Some c /\ c <= 1
     | _ => True
     end.
Proof.
  split; revert epsl; induction fuel as [| fuel IH]; intros epsl; try exact I.
  - rewrite increase_loop_S.
    destruct (search_step itds riskest affected u beta epsl) as [[[e1 c1] c] |] eqn:E;
      [| exact I].
    apply search_step_inv in E as (_ & Ec & Eg).
    destruct (Qltb 1 c) eqn:Eq; [| apply IH].
    apply Qltb_true in Eq. split; [exact Ec | now exists c].
  - rewrite decrease_loop_S.
    destruct (search_step itds riskest affected u (- beta) epsl) as [[[e1 c1] c] |] eqn:E;
      [| exact I].
    apply search_step_inv in E as (_ & Ec & Eg).
    destruct (Qle_bool c 1) eqn:Eq; [| apply IH].
    apply Qle_bool_iff in Eq. split; [exact Ec | now exists c].
Qed.

(** X14. When a search loop of [compute_IDFA] returns, the table it
    returns is the solver's output for the budgets it returns, and the
    value of the user in it has crossed the bound: above 1 after the
    increasing loop, at most 1 after the decreasing loop. *)
Theorem search_loops_return_across_the_bound
    (fuel : nat) (itds : Population) (riskest : dict UID Trajectory)
    (affected : dict UID (list UID)) (u : UID) (beta : Q) (epsl : dict UID Q) :
  match increase_loop fuel itds riskest affected u beta epsl with
  | Some (Ok (epsl', cidp')) =>
      compute_CIDP itds riskest epsl' theta_default = Ok cidp'
      /\ exists c, dict_get cidp' u = Some c /\ 1 < c
  | _ => True
  end
  /\ match decrease_loop fuel itds riskest affected u beta epsl with
     | Some (Ok (epsl', cidp')) =>
         compute_CIDP itds riskest epsl' theta_default = Ok cidp'
         /\ exists c, dict_get cidp' u = Some c /\ c <= 1
     | _ => True
     end.
Proof. apply search_loops_exit. Qed.

(** The loop rule for a loop with effects that runs to its end. *)
Lemma for_each_M_inv {A S} (I : list A -> S -> world -> Prop) (body : A -> S -> M S) :
  forall xs pre s w s' w',
    I pre s w ->
    (forall done x s w s' w',
        (exists rest, pre ++ xs = done ++ x :: rest) ->
        I done s w -> body x s w = Done s' w' -> I (done ++ [x]) s' w') ->
    for_each_M xs body s w = Done s' w' ->
    I (pre ++ xs) s' w'.
Proof.
  induction xs as [| x xs IH]; intros pre s w s' w' HI Hstep E.
  - simpl in E. injection E as <- <-. now rewrite app_nil_r.
  - rewrite for_each_M_cons in E.
    destruct (body x s w) as [s1 w1 | |] eqn:E1; try discriminate.
    replace (pre ++ x :: xs) with ((pre ++ [x]) ++ xs) by now rewrite <- app_assoc.
    apply (IH (pre ++ [x]) s1 w1 s' w'); [| | exact E].
    + apply (Hstep pre x s w s1 w1); [now exists xs | assumption | assumption].
    + intros done y s0 w0 s0' w0' [rest Hr] HI0. apply Hstep.
      exists rest. now rewrite <- Hr, <- app_assoc.
      assumption.
Qed.

Lemma initial_affected_keys (itds : Population) (epsl_init : Q) :
  dict_keys (map (fun '(uid, _) => (uid, epsl_init)) itds) = dict_keys itds.
Proof.
  unfold dict_keys. rewrite map_map. apply map_ext. now intros [uid itd].
Qed.

Section OptimiserResult.
Variable itds : Population.
Variable riskest : dict UID Trajectory.
Variable epsl_init beta : Q.
Variable affected : dict UID (list UID).
Hypothesis Hwf : dict_wf itds.
Hypothesis Hrisk : riskest_wf itds riskest.
Hypothesis Haff : _affected_by riskest itds = Ok affected.

Local Abbreviation touched i := (existsb (touchesb i) (all_edges itds riskest)).
Local Abbreviation keep := (untouched_keep itds riskest epsl_init).

Lemma keys_cover (epsl : dict UID Q) :
  dict_keys epsl = dict_keys itds -> epsl_covers itds epsl.
Proof. intros Hk u Hu. apply dict_keys_In. now rewrite Hk. Qed.

Lemma shift_keeps (u : UID) (delta : Q) (epsl epsl1 : dict UID Q) :
  In u (dict_keys itds) -> touched (idx_of itds u) = true ->
  keep epsl -> shift_budgets affected u delta epsl = Ok epsl1 -> keep epsl1.
Proof.
  intros Hu Ht [Hk Hun] E.
  destruct (shift_budgets_spec itds riskest Hwf Hrisk affected u delta epsl Haff Hu
              (keys_cover epsl Hk)) as (e1 & k & Es & Hk1 & Hfix & _).
  assert (e1 = epsl1) by congruence. subst e1. split; [congruence |].
  intros i Hi Hn. rewrite Hfix; [now apply Hun |].
  now apply (untouched_not_affected itds riskest affected Hwf Hrisk Haff u i).
Qed.

Lemma loops_keep (u : UID) :
  In u (dict_keys itds) -> touched (idx_of itds u) = true ->
  forall fuel epsl epsl' cidp',
    keep epsl ->
    (increase_loop fuel itds riskest affected u beta epsl = Some (Ok (epsl', cidp')) ->
     keep epsl')
    /\ (decrease_loop fuel itds riskest affected u beta epsl = Some (Ok (epsl', cidp')) ->
        keep epsl').
Proof.
  intros Hu Ht. induction fuel as [| fuel IH]; intros epsl epsl' cidp' Hkeep.
  - split; discriminate.
  - split.
    + rewrite increase_loop_S.
      destruct (search_step itds riskest affected u beta epsl) as [[[e1 c1] c] |] eqn:E;
        [| discriminate].
      apply search_step_inv in E as (Es & _ & _).
      assert (Hk1 := shift_keeps u beta epsl e1 Hu Ht Hkeep Es).
      destruct (Qltb 1 c); [intros [= <- <-]; exact Hk1 |].
      now apply (proj1 (IH e1 epsl' cidp' Hk1)).
    + rewrite decrease_loop_S.
      destruct (search_step itds riskest affected u (- beta) epsl) as [[[e1 c1] c] |] eqn:E;
        [| discriminate].
      apply search_step_inv in E as (Es & _ & _).
      assert (Hk1 := shift_keeps u (- beta) epsl e1 Hu Ht Hkeep Es).
      destruct (Qle_bool c 1); [intros [= <- <-]; exact Hk1 |].
      now apply (proj2 (IH e1 epsl' cidp' Hk1)).
Qed.

Lemma untouched_value (u : UID) (epsl cidp : dict UID Q) (c : Q) :
  In u (dict_keys itds) -> touched (idx_of itds u) = false ->
  dict_keys epsl = dict_keys itds ->
  compute_CIDP itds riskest epsl theta_default = Ok cidp ->
  dict_get cidp u = Some c -> c == 0.
Proof.
  intros Hu Hn Hk Ec Eg.
  destruct (compute_CIDP_value itds riskest epsl theta_default Hwf Hrisk (keys_cover epsl Hk))
    as [cidp0 (E0 & _ & Hg)].
  assert (cidp0 = cidp) by congruence. subst cidp0.
  rewrite (Hg u Hu) in Eg. injection Eg as <-.
  now apply cidp_at_untouched.
Qed.

(** The increasing loop never returns for a user that no relation
    touches: the value of such a user stays 0. *)
Lemma untouched_increase_never_returns (u : UID) :
  In u (dict_keys itds) -> touched (idx_of itds u) = false ->
  forall fuel epsl r,
    dict_keys epsl = dict_keys itds ->
    increase_loop fuel itds riskest affected u beta epsl <> Some (Ok r).
Proof.
  intros Hu Hn. induction fuel as [| fuel IH]; intros epsl r Hk; [discriminate |].
  rewrite increase_loop_S.
  destruct (search_step itds riskest affected u beta epsl) as [[[e1 c1] c] |] eqn:E;
    [| discriminate].
  apply search_step_inv in E as (Es & Ec & Eg).
  destruct (shift_budgets_spec itds riskest Hwf Hrisk affected u beta epsl Haff Hu
              (keys_cover epsl Hk)) as (e1' & k & Es' & Hk1 & _).
  assert (e1' = e1) by congruence. subst e1'.
  assert (Hk1' : dict_keys e1 = dict_keys itds) by congruence.
  assert (Hc := untouched_value u e1 c1 c Hu Hn Hk1' Ec Eg).
  assert (Eq : Qltb 1 c = false) by (apply Qltb_false; lra).
  rewrite Eq. now apply IH.
Qed.

Lemma optimize_user_keeps (fuel : nat) (u : UID) (epsl cidp epsl' cidp' : dict UID Q)
    (w w' : world) :
  In u (dict_keys itds) ->
  keep epsl -> compute_CIDP itds riskest epsl theta_default = Ok cidp ->
  optimize_user fuel itds riskest affected beta u (epsl, cidp) w = Done (epsl', cidp') w' ->
  keep epsl' /\ compute_CIDP itds riskest epsl' theta_default = Ok cidp'
  /\ w' = mkWorld (log_info w ++ [LogOptimizing u]) (draws w).
Proof.
  intros Hu Hkeep Ec. unfold optimize_user, mbind, emit, lift, run_loop, ret.
  destruct (negb (dict_contains riskest u)); [intros [= <- <- <-]; auto |].
  unfold dict_getitem.
  destruct (dict_get epsl u) as [e |]; [| discriminate].
  destruct (dict_get cidp u) as [c |] eqn:Eg; [| discriminate].
  pose proof (search_loops_exit fuel) as Hret.
  destruct (Qltb e c && Qle_bool c 1) eqn:E1.
  - destruct (increase_loop fuel itds riskest affected u beta epsl) as [[[e1 c1] | ex] |] eqn:El;
      try discriminate.
    intros [= <- <- <-].
    destruct (touched (idx_of itds u)) eqn:Et.
    + split; [| split; [| reflexivity]].
      * now apply (proj1 (loops_keep u Hu Et fuel epsl e1 c1 Hkeep)).
      * specialize (Hret itds riskest affected u beta epsl). rewrite El in Hret.
        apply Hret.
    + exfalso. now apply (untouched_increase_never_returns u Hu Et fuel epsl (e1, c1)
                            (proj1 Hkeep)).
  - destruct (Qltb 1 c) eqn:E2; [| intros [= <- <- <-]; auto].
    destruct (decrease_loop fuel itds riskest affected u beta epsl) as [[[e1 c1] | ex] |] eqn:El;
      try discriminate.
    intros [= <- <- <-].
    destruct (touched (idx_of itds u)) eqn:Et.
    + split; [| split; [| reflexivity]].
      * now apply (proj2 (loops_keep u Hu Et fuel epsl e1 c1 Hkeep)).
      * specialize (Hret itds riskest affected u beta epsl). rewrite El in Hret.
        apply Hret.
    + exfalso. apply Qltb_true in E2.
      assert (Hc := untouched_value u epsl cidp c Hu Et (proj1 Hkeep) Ec Eg). lra.
Qed.
End OptimiserResult.

(** X15. For a population and an assignment over its users: when
    [compute_IDFA] returns, the budget vector it returns has exactly the
    users of the population as keys, every user without a relation still
    has the initial budget, and the log has the opening line followed by
    one "Optimizing user" line per user, in the order of the population;
    no sample is drawn. *)
Theorem IDFA_result_keeps_users_and_unrelated_budgets
    (itds : Population) (riskest : dict UID Trajectory) (epsl_init beta : Q)
    (fuel : nat) (w w' : world) (epsl : dict UID Q) :
  dict_wf itds -> riskest_wf itds riskest ->
  compute_IDFA fuel itds riskest epsl_init beta w = Done epsl w' ->
  dict_keys epsl = dict_keys itds
  /\ (forall u, In u (dict_keys itds) -> has_relation itds riskest u = false ->
                dict_get epsl u = Some epsl_init)
  /\ log_info w' = log_info w ++ LogIDFA epsl_init beta
                              :: map LogOptimizing (dict_keys itds)
  /\ draws w' = draws w.
Proof.
  intros Hwf Hrisk. unfold compute_IDFA, mbind at 1 2 3, emit, lift.
  set (epsl0 := map (fun '(uid, _) => (uid, epsl_init)) itds).
  destruct (compute_CIDP itds riskest epsl0 theta_default) as [cidp0 |] eqn:Ec;
    [| discriminate].
  destruct (_affected_by riskest itds) as [affected |] eqn:Ea; [| discriminate].
  set (w0 := mkWorld (log_info w ++ [LogIDFA epsl_init beta]) (draws w)).
  unfold mbind, ret.
  destruct (for_each_M (dict_keys itds) (optimize_user fuel itds riskest affected beta)
              (epsl0, cidp0) w0) as [[e1 c1] w1 | |] eqn:El; try discriminate.
  intros [= <- <-]. simpl.
  assert (Hinv := for_each_M_inv
            (fun done (st : dict UID Q * dict UID Q) w1 =>
               untouched_keep itds riskest epsl_init (fst st)
               /\ compute_CIDP itds riskest (fst st) theta_default = Ok (snd st)
               /\ w1 = mkWorld (log_info w0 ++ map LogOptimizing done) (draws w0))
            (optimize_user fuel itds riskest affected beta)
            (dict_keys itds) [] (epsl0, cidp0) w0 (e1, c1) w1).
  destruct Hinv as (Hkeep & _ & Hw); [| | exact El |].
  - simpl. split; [| split; [exact Ec |]].
    + split; [unfold epsl0; apply (initial_affected_keys itds epsl_init) |].
      intros i Hi _. unfold epsl0. apply initial_budgets_get. now apply uid_at_In.
    + unfold w0. simpl. now rewrite app_nil_r.
  - intros done x [e c] wa [e' c'] wb [rest Hr] (Hk & Hc & Hwa) Eb. simpl in *.
    assert (Hx : In x (dict_keys itds)).
    { rewrite Hr. apply in_or_app. right. now left. }
    destruct (optimize_user_keeps itds riskest epsl_init beta affected Hwf Hrisk Ea
                fuel x e c e' c' wa wb Hx Hk Hc Eb) as (Hk' & Hc' & Hwb).
    split; [exact Hk' | split; [exact Hc' |]].
    rewrite Hwb, Hwa. simpl. now rewrite map_app, app_assoc.
  - simpl in Hkeep, Hw. destruct Hkeep as [Hk Hun]. split; [exact Hk |].
    split; [| split].
    + intros u Hu Hrel. destruct (uid2idx_In itds Hwf u Hu) as (_ & Hlt & Hat).
      rewrite <- Hat. apply Hun; [assumption |].
      now rewrite (touched_exact itds riskest Hwf Hrisk u Hu).
    + rewrite Hw. unfold w0. simpl. now rewrite <- app_assoc.
    + rewrite Hw. reflexivity.
Qed.

Lemma IDFA_result_keeps_users_and_unrelated_budgets_witness :
  exists epsl w',
    compute_IDFA 40 scenario3 riskest3 (1 # 10) (1 # 20) (mkWorld [] 0) = Done epsl w'
    /\ dict_keys epsl = dict_keys scenario3
    /\ (forall u, In u (dict_keys scenario3) -> has_relation scenario3 riskest3 u = false ->
                  dict_get epsl u = Some (1 # 10))
    /\ log_info w' = log_info (mkWorld [] 0) ++ LogIDFA (1 # 10) (1 # 20)
                                :: map LogOptimizing (dict_keys scenario3)
    /\ draws w' = draws (mkWorld [] 0).
Proof.
  eexists. eexists. split; [vm_compute; reflexivity |].
  apply (IDFA_result_keeps_users_and_unrelated_budgets
           scenario3 riskest3 (1 # 10) (1 # 20) 40 (mkWorld [] 0)).
  - exact scenario3_keys.
  - exact riskest3_wf.
  - vm_compute. reflexivity.
Defined.

(* ================================================================== *)
(** * algo.py: the loop that lowers the count                          *)
(* ================================================================== *)

Lemma reduce_count_S (fuel : nat) (cnt : Z) (t : Trajectory) (itds : Population) (p : Q) :
  reduce_count (S fuel) cnt t itds p
  = match _risk cnt t itds with
    | Raise e => Some (Raise e)
    | Ok v => if Qltb v p then Some (Ok cnt) else reduce_count fuel (cnt - 1)%Z t itds p
    end.
Proof. reflexivity. Qed.

Lemma reduce_count_steps (itds : Population) (t : Trajectory) (p : Q) :
  (0 < total_count t itds)%Z ->
  forall (m : nat) (cnt : Z),
    inject_Z (cnt - Z.of_nat m) / inject_Z (total_count t itds) < p ->
    exists cnt',
      (forall fuel, (S m <= fuel)%nat -> reduce_count fuel cnt t itds p = Some (Ok cnt'))
      /\ (cnt' <= cnt)%Z
      /\ inject_Z cnt' / inject_Z (total_count t itds) < p
      /\ forall k, (cnt' < k <= cnt)%Z -> p <= inject_Z k / inject_Z (total_count t itds).
Proof.
  intros Hpos. induction m as [| m IH]; intros cnt Hm.
  - replace (cnt - Z.of_nat 0)%Z with cnt in Hm by lia.
    exists cnt. repeat split; [| lia | assumption | intros k Hk; lia].
    intros fuel Hf. destruct fuel as [| fuel]; [lia |].
    rewrite reduce_count_S, risk_value by assumption.
    apply Qltb_true in Hm. now rewrite Hm.
  - destruct (Qltb (inject_Z cnt / inject_Z (total_count t itds)) p) eqn:E.
    + exists cnt. repeat split; [| lia | now apply Qltb_true | intros k Hk; lia].
      intros fuel Hf. destruct fuel as [| fuel]; [lia |].
      rewrite reduce_count_S, risk_value by assumption. now rewrite E.
    + destruct (IH (cnt - 1)%Z) as (cnt' & Hrun & Hle & Hlt & Hmin).
      { replace (cnt - 1 - Z.of_nat m)%Z with (cnt - Z.of_nat (S m))%Z by lia. exact Hm. }
      exists cnt'. repeat split; [| lia | assumption |].
      * intros fuel Hf. destruct fuel as [| fuel]; [lia |].
        rewrite reduce_count_S, risk_value by assumption. rewrite E.
        apply Hrun. lia.
      * intros k Hk. destruct (Z.eq_dec k cnt) as [-> | N].
        -- now apply Qltb_false.
        -- apply Hmin. lia.
Qed.

(** X16. For a trajectory that some user holds, the loop that lowers the
    count always ends: it returns the largest count, not above the
    starting one, whose risk is below [p]; every count it passed over has
    a risk of at least [p]. *)
Theorem reduce_count_stops_at_the_largest_safe_count
    (itds : Population) (t : Trajectory) (p : Q) (cnt : Z) :
  (0 < total_count t itds)%Z ->
  exists fuel0 cnt',
    (forall fuel, (fuel0 <= fuel)%nat -> reduce_count fuel cnt t itds p = Some (Ok cnt'))
    /\ (cnt' <= cnt)%Z
    /\ inject_Z cnt' / inject_Z (total_count t itds) < p
    /\ forall k, (cnt' < k <= cnt)%Z -> p <= inject_Z k / inject_Z (total_count t itds).
Proof.
  intros Hpos.
  destruct (Q_archimedean (inject_Z cnt - p * inject_Z (total_count t itds))) as [m Hm].
  destruct (reduce_count_steps itds t p Hpos m cnt) as (cnt' & H).
  - apply Qlt_shift_div_r; [now apply inject_Z_pos |].
    unfold Z.sub. rewrite inject_Z_plus, inject_Z_opp. unfold Qn in Hm. lra.
  - exists (S m), cnt'. exact H.
Qed.

Lemma reduce_count_stops_at_the_largest_safe_count_witness :
  exists fuel0 cnt',
    (forall fuel, (fuel0 <= fuel)%nat ->
                  reduce_count fuel 5 t123 scenario (1 # 2) = Some (Ok cnt'))
    /\ (cnt' <= 5)%Z
    /\ inject_Z cnt' / inject_Z (total_count t123 scenario) < 1 # 2
    /\ forall k, (cnt' < k <= 5)%Z ->
                 1 # 2 <= inject_Z k / inject_Z (total_count t123 scenario).
Proof.
  apply (reduce_count_stops_at_the_largest_safe_count scenario t123 (1 # 2) 5%Z).
  vm_compute. reflexivity.
Defined.

(* ================================================================== *)
(** * algo.py: the assignment of the first round                       *)
(* ================================================================== *)

Lemma insert_by_risk_nonempty {A} (x : A * Q) (l : list (A * Q)) :
  insert_by_risk x l <> [].
Proof. destruct l as [| y l]; simpl; [| destruct (Qle_bool _ _)]; discriminate. Qed.

Lemma In_insert_by_risk {A} (x y : A * Q) (l : list (A * Q)) :
  y = x \/ In y l -> In y (insert_by_risk x l).
Proof.
  induction l as [| z l IH]; simpl.
  - intros [-> | []]. now left.
  - destruct (Qle_bool (snd x) (snd z)); simpl.
    + intros [-> | H]; auto.
    + intros [-> | [-> | H]]; auto.
Qed.

Lemma In_sorted_by_risk {A} (y : A * Q) (l : list (A * Q)) :
  In y l -> In y (sorted_by_risk l).
Proof.
  unfold sorted_by_risk. induction l as [| x l IH]; simpl; [tauto |].
  intros [-> | H]; apply In_insert_by_risk; auto.
Qed.

(** Where the new element goes: to the end only if it is larger than all
    the others. *)
Lemma last_insert {A} (x d : A * Q) (l : list (A * Q)) :
  last (insert_by_risk x l) d
  = if forallb (fun y => Qltb (snd y) (snd x)) l then x else last l d.
Proof.
  induction l as [| y l IH]; [reflexivity |].
  cbn [insert_by_risk forallb]. unfold Qltb at 1.
  destruct (Qle_bool (snd x) (snd y)) eqn:E; cbn [negb andb].
  - reflexivity.
  - assert (Hl : last (y :: insert_by_risk x l) d = last (insert_by_risk x l) d).
    { destruct (insert_by_risk x l) eqn:Ei; [| reflexivity].
      now apply insert_by_risk_nonempty in Ei. }
    rewrite Hl, IH.
    destruct (forallb (fun y0 => Qltb (snd y0) (snd x)) l) eqn:Ef; [reflexivity |].
    destruct l; [discriminate | reflexivity].
Qed.

(** The last element of the sorted list is the last of the largest
    elements of the list. *)
Lemma last_sorted_by_risk {A} (d : A * Q) (l : list (A * Q)) :
  l <> [] ->
  exists pre post,
    l = pre ++ last (sorted_by_risk l) d :: post
    /\ (forall y, In y pre -> snd y <= snd (last (sorted_by_risk l) d))
    /\ (forall y, In y post -> snd y < snd (last (sorted_by_risk l) d)).
Proof.
  induction l as [| x l IH]; intros Hne; [congruence |].
  change (sorted_by_risk (x :: l)) with (insert_by_risk x (sorted_by_risk l)).
  rewrite last_insert.
  destruct (forallb (fun y => Qltb (snd y) (snd x)) (sorted_by_risk l)) eqn:Ef.
  - exists [], l. split; [reflexivity |]. split; [intros y [] |].
    intros y Hy. rewrite forallb_forall in Ef.
    apply Qltb_true. apply Ef. now apply In_sorted_by_risk.
  - destruct l as [| x' l']; [discriminate |].
    destruct IH as (pre & post & E & Hpre & Hpost); [discriminate |].
    set (m := last (sorted_by_risk (x' :: l')) d) in *.
    assert (Hmax : forall y, In y (x' :: l') -> snd y <= snd m).
    { intros y Hy. rewrite E in Hy. apply in_app_or in Hy as [Hy | [<- | Hy]].
      - now apply Hpre.
      - lra.
      - apply Qlt_le_weak. now apply Hpost. }
    exists (x :: pre), post. split; [simpl; now rewrite <- E |]. split; [| exact Hpost].
    intros y [<- | Hy]; [| now apply Hpre].
    assert (Hex : exists y, In y (sorted_by_risk (x' :: l')) /\ Qltb (snd y) (snd x) = false).
    { clear - Ef. induction (sorted_by_risk (x' :: l')) as [| z s IHs]; [discriminate |].
      simpl in Ef. apply andb_false_iff in Ef as [Ef | Ef].
      - exists z. split; [now left | assumption].
      - destruct (IHs Ef) as [y [Hy Ey]]. exists y. split; [now right | assumption]. }
    destruct Hex as [y [Hy Ey]]. apply sorted_by_risk_In in Hy.
    apply Qltb_false in Ey. specialize (Hmax y Hy). lra.
Qed.

Lemma sorted_by_risk_nonempty {A} (l : list (A * Q)) : l <> [] -> sorted_by_risk l <> [].
Proof.
  destruct l as [| x l]; [congruence |]. intros _.
  change (sorted_by_risk (x :: l)) with (insert_by_risk x (sorted_by_risk l)).
  apply insert_by_risk_nonempty.
Qed.

(** The queue of a user: empty when no trajectory reaches [p]; otherwise
    it ends with the last of the user's trajectories of largest risk. *)
Lemma queue_last (itds : Population) (p : Q) (itd : ITD) :
  (queue_of itds p itd = []
   /\ forall t, In t (trajectories itd) -> risk_of itds itd t < p)
  \/ exists q t pre post,
       queue_of itds p itd = q ++ [t]
       /\ trajectories itd = pre ++ t :: post
       /\ p <= risk_of itds itd t
       /\ (forall t', In t' pre -> risk_of itds itd t' <= risk_of itds itd t)
       /\ (forall t', In t' post -> risk_of itds itd t' < risk_of itds itd t).
Proof.
  unfold queue_of. set (f := fun t => (t, risk_of itds itd t)).
  destruct (trajectories itd) as [| t0 ts] eqn:Ets.
  - left. split; [reflexivity | intros t []].
  - set (tv := map f (t0 :: ts)).
    assert (Hne : tv <> []) by discriminate.
    set (d := f t0).
    destruct (last_sorted_by_risk d tv Hne) as (pre & post & E & Hpre & Hpost).
    set (m := last (sorted_by_risk tv) d) in *.
    assert (Hall : forall y, In y tv -> y = f (fst y)).
    { intros y Hy. apply in_map_iff in Hy as [t' [<- _]]. reflexivity. }
    assert (Hm : m = f (fst m)).
    { apply Hall. rewrite E. apply in_or_app. right. now left. }
    assert (Hsplit : sorted_by_risk tv = removelast (sorted_by_risk tv) ++ [m]).
    { apply app_removelast_last. now apply sorted_by_risk_nonempty. }
    assert (Hts : t0 :: ts = map fst pre ++ fst m :: map fst post).
    { assert (Hm0 : t0 :: ts = map fst tv).
      { unfold tv. rewrite map_map. simpl. now rewrite map_id. }
      rewrite Hm0, E, map_app. reflexivity. }
    assert (Hsnd : forall y, In y tv -> snd y = risk_of itds itd (fst y)).
    { intros y Hy. now rewrite (Hall y Hy) at 1. }
    assert (Hsm : snd m = risk_of itds itd (fst m)) by (now rewrite Hm at 1).
    destruct (Qle_bool p (snd m)) eqn:Ep.
    + right. exists (map fst (filter (fun tv0 => Qle_bool p (snd tv0))
                                      (removelast (sorted_by_risk tv)))).
      exists (fst m), (map fst pre), (map fst post).
      split; [| split; [exact Hts | split; [| split]]].
      * rewrite Hsplit at 1. rewrite filter_app, map_app. simpl. now rewrite Ep.
      * apply Qle_bool_iff in Ep. now rewrite <- Hsm.
      * intros t' Ht'. apply in_map_iff in Ht' as [y [<- Hy]].
        rewrite <- Hsm, <- Hsnd; [now apply Hpre |].
        rewrite E. apply in_or_app. now left.
      * intros t' Ht'. apply in_map_iff in Ht' as [y [<- Hy]].
        rewrite <- Hsm, <- Hsnd; [now apply Hpost |].
        rewrite E. apply in_or_app. right. now right.
    + left. apply Qle_bool_false in Ep.
      assert (Hmax : forall y, In y tv -> snd y <= snd m).
      { intros y Hy. rewrite E in Hy. apply in_app_or in Hy as [Hy | [<- | Hy]].
        - now apply Hpre.
        - lra.
        - apply Qlt_le_weak. now apply Hpost. }
      split.
      * rewrite filter_none; [reflexivity |].
        intros y Hy. apply sorted_by_risk_In in Hy. apply Qle_bool_false.
        specialize (Hmax y Hy). lra.
      * intros t Ht.
        assert (Hin : In (f t) tv) by (unfold tv; now apply in_map).
        specialize (Hmax _ Hin). simpl in Hmax. lra.
Qed.

Lemma find_risky_queues (itds : Population) (p : Q) :
  population_wf itds ->
  find_risky itds p = Ok (map (fun '(uid, itd) => (uid, queue_of itds p itd)) itds).
Proof.
  intros Hwf. unfold find_risky.
  destruct (for_each_inv
              (fun done risky =>
                 risky = map (fun '(uid, itd) => (uid, queue_of itds p itd)) done)
              (fun '(uid, itd) risky =>
                 tv <- map_result
                         (fun t => v <- _risk (ITD_count itd t) t itds ;; Ok (t, v))
                         (trajectories itd) ;;
                 Ok (dict_set risky uid
                       (map fst (filter (fun tv => Qle_bool p (snd tv))
                                        (sorted_by_risk tv)))))
              itds [] []) as [risky [E HI]].
  - reflexivity.
  - intros done [uid itd] risky [rest Hrest] ->. simpl in Hrest.
    assert (Hi : In (uid, itd) itds) by (rewrite Hrest; apply in_or_app; right; now left).
    rewrite (risk_pairs itds uid itd Hwf Hi). simpl.
    eexists. split; [reflexivity |].
    rewrite dict_set_fresh, map_app; [reflexivity |].
    destruct Hwf as [Hnd _]. unfold dict_wf in Hnd. rewrite Hrest in Hnd.
    unfold dict_keys in *. rewrite map_app in Hnd. simpl in Hnd.
    apply NoDup_remove_2 in Hnd. intros Hin. apply Hnd. apply in_or_app. left.
    rewrite map_map in Hin.
    replace (map (fun x => fst (let '(uid0, itd0) := x in (uid0, queue_of itds p itd0))) done)
      with (map fst done) in Hin; [assumption |].
    apply map_ext. now intros [u i].
  - simpl in HI. subst risky. exact E.
Qed.

Lemma pop_riskest_spec (itds : Population) (risky : dict UID (list Trajectory)) :
  dict_wf itds ->
  (forall u, In u (dict_keys itds) -> exists q, dict_get risky u = Some q) ->
  exists riskest risky',
    pop_riskest itds risky = Ok (riskest, risky')
    /\ riskest_wf itds riskest
    /\ forall u q, In u (dict_keys itds) -> dict_get risky u = Some q ->
                   dict_get riskest u = last_opt q.
Proof.
  intros Hwf Hq. unfold pop_riskest.
  destruct (for_each_inv
              (fun done (st : dict UID Trajectory * dict UID (list Trajectory)) =>
                 dict_wf (fst st)
                 /\ (forall u, In u (dict_keys (fst st)) -> In u done)
                 /\ (forall u q, In u done -> dict_get risky u = Some q ->
                                 dict_get (fst st) u = last_opt q)
                 /\ (forall u, ~ In u done -> dict_get (snd st) u = dict_get risky u))
              (fun uid '(riskest, risky) =>
                 queue <- dict_getitem risky uid ;;
                 match rev queue with
                 | [] => Ok (riskest, risky)
                 | t :: rest => Ok (dict_set riskest uid t, dict_set risky uid (rev rest))
                 end)
              (dict_keys itds) [] ([], risky)) as [[riskest risky'] [E HI]].
  - simpl. repeat split; [apply NoDup_nil | intros u [] | intros u q [] ].
  - intros done uid [riskest risky1] [rest Hrest] (Hr & Hk & Hpop & Hsame).
    simpl in Hrest, Hr, Hk, Hpop, Hsame.
    assert (Hfresh : ~ In uid done).
    { unfold dict_wf in Hwf. rewrite Hrest in Hwf. apply NoDup_remove_2 in Hwf.
      intros Hi. apply Hwf. apply in_or_app. now left. }
    assert (Hu : In uid (dict_keys itds)).
    { rewrite Hrest. apply in_or_app. right. now left. }
    destruct (Hq uid Hu) as [q Eq].
    unfold dict_getitem. rewrite (Hsame uid Hfresh), Eq. simpl.
    destruct (rev q) as [| t r] eqn:Er.
    + eexists. split; [reflexivity |]. simpl. repeat split.
      * exact Hr.
      * intros u Hin. apply in_or_app. left. now apply Hk.
      * intros u q' Hin Eq'. apply in_app_or in Hin as [Hin | [<- | []]].
        -- now apply Hpop.
        -- assert (q' = q) by congruence. subst q'. unfold last_opt. rewrite Er.
           apply dict_get_None. intros Hin. now apply Hfresh, Hk.
      * intros u Hn. apply Hsame. intros Hin. apply Hn. apply in_or_app. now left.
    + eexists. split; [reflexivity |]. simpl. repeat split.
      * now apply dict_set_wf.
      * intros u Hin. rewrite dict_keys_set in Hin.
        destruct (dict_contains riskest uid).
        -- apply in_or_app. left. now apply Hk.
        -- apply in_app_or in Hin as [Hin | [<- | []]]; apply in_or_app.
           ++ left. now apply Hk.
           ++ right. now left.
      * intros u q' Hin Eq'. rewrite dict_get_set.
        destruct (key_eq_dec uid u) as [<- | N].
        -- assert (q' = q) by congruence. subst q'. unfold last_opt. now rewrite Er.
        -- apply in_app_or in Hin as [Hin | [<- | []]]; [now apply Hpop | congruence].
      * intros u Hn. rewrite dict_get_set_neq.
        -- apply Hsame. intros Hin. apply Hn. apply in_or_app. now left.
        -- intros <-. apply Hn. apply in_or_app. right. now left.
  - simpl in HI. destruct HI as (Hr & Hk & Hpop & _).
    exists riskest, risky'. split; [exact E |]. split; [split; assumption |].
    intros u q Hu. now apply Hpop.
Qed.

Lemma dict_get_map_items {A B} (g : A -> B) (d : dict UID A) (uid : UID) :
  dict_get (map (fun '(k, a) => (k, g a)) d) uid = option_map g (dict_get d uid).
Proof.
  induction d as [| [k a] d IH]; simpl; [reflexivity |].
  destruct (key_eq_dec uid k); [reflexivity | exact IH].
Qed.

(** The assignment of the first round. *)
Lemma first_round_spec (itds : Population) (p : Q) :
  population_wf itds ->
  exists risky riskest risky',
    find_risky itds p = Ok risky
    /\ pop_riskest itds risky = Ok (riskest, risky')
    /\ riskest_wf itds riskest
    /\ forall uid itd, In (uid, itd) itds ->
         match dict_get riskest uid with
         | Some t =>
             exists pre post,
               trajectories itd = pre ++ t :: post
               /\ p <= risk_of itds itd t
               /\ (forall t', In t' pre -> risk_of itds itd t' <= risk_of itds itd t)
               /\ (forall t', In t' post -> risk_of itds itd t' < risk_of itds itd t)
         | None => forall t, In t (trajectories itd) -> risk_of itds itd t < p
         end.
Proof.
  intros Hwf. assert (Hnd := proj1 Hwf).
  set (risky := map (fun '(uid, itd) => (uid, queue_of itds p itd)) itds).
  assert (Hget : forall uid itd, In (uid, itd) itds ->
                   dict_get risky uid = Some (queue_of itds p itd)).
  { intros uid itd Hi. unfold risky. rewrite dict_get_map_items.
    now rewrite (dict_In_get _ _ _ Hnd Hi). }
  destruct (pop_riskest_spec itds risky Hnd) as (riskest & risky' & E & Hr & Hpop).
  { intros u Hu. apply dict_keys_In in Hu as [itd Hu]. apply dict_get_Some_In in Hu.
    eexists. now apply (Hget u itd). }
  exists risky, riskest, risky'.
  split; [now apply find_risky_queues |]. split; [exact E |]. split; [exact Hr |].
  intros uid itd Hi.
  rewrite (Hpop uid _ (In_dict_keys _ _ _ Hi) (Hget uid itd Hi)).
  destruct (queue_last itds p itd) as [[Eq Hlow] | (q & t & pre & post & Eq & Hrest)].
  - rewrite Eq. exact Hlow.
  - rewrite Eq. unfold last_opt. rewrite rev_app_distr. simpl.
    exists pre, post. exact Hrest.
Qed.

(** X17. In the first round of [sanitize] on a well-formed population,
    the assignment popped from the queues is an assignment over users of
    the population; it gives a user the last, in the order of
    [trajectories], of the user's trajectories of largest risk when that
    risk is at least [p], and leaves out a user all of whose trajectories
    have a risk below [p]. *)
Theorem first_round_assignment_takes_the_riskiest (itds : Population) (p : Q) :
  population_wf itds ->
  exists risky riskest risky',
    find_risky itds p = Ok risky
    /\ pop_riskest itds risky = Ok (riskest, risky')
    /\ riskest_wf itds riskest
    /\ forall uid itd, In (uid, itd) itds ->
         match dict_get riskest uid with
         | Some t =>
             exists pre post,
               trajectories itd = pre ++ t :: post
               /\ p <= risk_of itds itd t
               /\ (forall t', In t' pre -> risk_of itds itd t' <= risk_of itds itd t)
               /\ (forall t', In t' post -> risk_of itds itd t' < risk_of itds itd t)
         | None => forall t, In t (trajectories itd) -> risk_of itds itd t < p
         end.
Proof. apply first_round_spec. Qed.

Lemma first_round_assignment_takes_the_riskiest_witness :
  exists risky riskest risky',
    find_risky scenario (1 # 2) = Ok risky
    /\ pop_riskest scenario risky = Ok (riskest, risky')
    /\ riskest_wf scenario riskest
    /\ forall uid itd, In (uid, itd) scenario ->
         match dict_get riskest uid with
         | Some t =>
             exists pre post,
               trajectories itd = pre ++ t :: post
               /\ 1 # 2 <= risk_of scenario itd t
               /\ (forall t', In t' pre -> risk_of scenario itd t' <= risk_of scenario itd t)
               /\ (forall t', In t' post -> risk_of scenario itd t' < risk_of scenario itd t)
         | None => forall t, In t (trajectories itd) -> risk_of scenario itd t < 1 # 2
         end.
Proof.
  apply (first_round_assignment_takes_the_riskiest scenario (1 # 2)).
  exact scenario_wf.
Defined.

(* ================================================================== *)
(** * algo.py: the table that sanitize returns                         *)
(* ================================================================== *)

Lemma dict_append_set {V} (d d' : dict UID (list V)) (v : UID) (k : V) :
  dict_append d v k = Ok d' ->
  exists l, dict_get d v = Some l /\ d' = dict_set d v (l ++ [k]).
Proof.
  unfold dict_append, dict_getitem.
  destruct (dict_get d v) as [l |]; simpl; [| discriminate].
  intros [= <-]. now exists l.
Qed.

Lemma dict_keys_set_present {V} (d : dict UID V) (k : UID) (v v' : V) :
  dict_get d k = Some v -> dict_keys (dict_set d k v') = dict_keys d.
Proof.
  intros E. rewrite dict_keys_set. unfold dict_contains. now rewrite E.
Qed.

Lemma dict_keys_set_present_t {V} (d : dict Trajectory V) (k : Trajectory) (v v' : V) :
  dict_get d k = Some v -> dict_keys (dict_set d k v') = dict_keys d.
Proof.
  intros E. rewrite dict_keys_set. unfold dict_contains. now rewrite E.
Qed.

Section Sanitized.
Variable laplace : nat -> Q -> Q.
Variable itds : Population.
Hypothesis Hwf : population_wf itds.

(** The scales after the loop that extends [noise_scale]: still one
    entry per user, and nothing for a user outside the assignment. *)
Lemma update_noise_scale_keeps (fuel : nat) (p : Q) (riskest : dict UID Trajectory)
    (epsl_opt : dict UID Q) (w w' : world) (ns : dict UID (list Q)) :
  update_noise_scale fuel itds p riskest epsl_opt (map (fun '(uid, _) => (uid, [])) itds) w
  = Done ns w' ->
  dict_keys ns = dict_keys itds
  /\ (forall uid, In uid (dict_keys itds) -> dict_get riskest uid = None ->
                  dict_get ns uid = Some [])
  /\ (forall uid t, In uid (dict_keys itds) -> dict_get riskest uid = Some t ->
                    exists scale, dict_get ns uid = Some [scale]).
Proof.
  intros E. destruct Hwf as [Hnd _]. unfold update_noise_scale in E.
  set (ns0 := map (fun '(uid, _) => (uid, @nil Q)) itds) in *.
  assert (H0 : dict_keys ns0 = dict_keys itds
               /\ forall uid, In uid (dict_keys itds) -> dict_get ns0 uid = Some []).
  { split.
    - unfold ns0, dict_keys. rewrite map_map. apply map_ext. now intros [u i].
    - intros uid Hu. unfold ns0.
      rewrite (dict_get_map_items (fun _ : ITD => @nil Q) itds uid).
      apply dict_keys_In in Hu as [itd ->]. reflexivity. }
  apply (for_each_M_inv
           (fun done (ns : dict UID (list Q)) (_ : world) =>
              dict_keys ns = dict_keys itds
              /\ (forall uid, In uid (dict_keys itds) ->
                              dict_get riskest uid = None \/ ~ In uid (dict_keys done) ->
                              dict_get ns uid = Some [])
              /\ (forall uid t, In uid (dict_keys done) -> dict_get riskest uid = Some t ->
                                exists scale, dict_get ns uid = Some [scale]))
           _ itds [] ns0 w ns w') in E.
  - simpl in E. destruct E as (Hk & Hg & Hs). split; [exact Hk |]. split.
    + intros uid Hu Hn. apply Hg; [assumption | now left].
    + intros uid t Hu Ht. now apply (Hs uid t).
  - split; [apply H0 |]. split; [intros uid Hu _; now apply H0 | intros uid t []].
  - intros done [uid itd] ns1 wa ns2 wb [rest Hrest] (Hk & Hg & Hs) Eb. simpl in Hrest.
    assert (Hkeys : dict_keys (done ++ [(uid, itd)]) = dict_keys done ++ [uid])
      by (unfold dict_keys; now rewrite map_app).
    assert (Hnew : ~ In uid (dict_keys done)).
    { unfold dict_wf in Hnd. rewrite Hrest in Hnd. unfold dict_keys in Hnd.
      rewrite map_app in Hnd. simpl in Hnd. apply NoDup_remove_2 in Hnd.
      intros Hin. apply Hnd. apply in_or_app. now left. }
    assert (Hu0 : In uid (dict_keys itds)).
    { rewrite Hrest. unfold dict_keys. rewrite map_app. apply in_or_app. right. now left. }
    destruct (dict_contains riskest uid) eqn:Ec.
    + unfold mbind, lift, run_loop, dict_getitem in Eb.
      destruct (dict_get riskest uid) as [t |] eqn:Er; [| discriminate].
      destruct (reduce_count fuel (ITD_count itd t) t itds p) as [[cnt | ex] |];
        try discriminate.
      destruct (dict_get epsl_opt uid) as [e |]; [| discriminate].
      destruct (py_div (inject_Z (ITD_count itd t - cnt)) e) as [scale | ex];
        [| discriminate].
      destruct (dict_append ns1 uid scale) as [ns3 | ex] eqn:Ea; [| discriminate].
      injection Eb as <- <-.
      apply dict_append_set in Ea as (l & El & ->).
      assert (l = []).
      { rewrite (Hg uid Hu0 (or_intror Hnew)) in El. congruence. }
      subst l.
      split; [now rewrite (dict_keys_set_present ns1 uid []) |]. split.
      * intros u Hu Hn. rewrite dict_get_set_neq.
        -- apply Hg; [assumption |]. destruct Hn as [Hn | Hn]; [now left | right].
           intros Hi. apply Hn. rewrite Hkeys. apply in_or_app. now left.
        -- intros <-. destruct Hn as [Hn | Hn]; [congruence |].
           apply Hn. rewrite Hkeys. apply in_or_app. right. now left.
      * intros u t' Hu Ht'. rewrite dict_get_set.
        destruct (key_eq_dec uid u) as [<- | N]; [now exists scale |].
        rewrite Hkeys in Hu. apply in_app_or in Hu as [Hu | [<- | []]]; [| congruence].
        now apply (Hs u t').
    + unfold ret in Eb. injection Eb as <- <-. split; [exact Hk |]. split.
      * intros u Hu Hn. apply Hg; [assumption |].
        destruct Hn as [Hn | Hn]; [now left |].
        destruct (key_eq_dec u uid) as [-> | N].
        -- left. unfold dict_contains in Ec. now destruct (dict_get riskest uid).
        -- right. intros Hi. apply Hn. rewrite Hkeys. apply in_or_app. now left.
      * intros u t' Hu Ht'. rewrite Hkeys in Hu.
        apply in_app_or in Hu as [Hu | [<- | []]]; [now apply (Hs u t') |].
        unfold dict_contains in Ec. rewrite Ht' in Ec. discriminate.
Qed.

(** The rows of the table that [add_noise] fills. *)
Lemma add_noise_rows (ns : dict UID (list Q)) (w w' : world)
    (nc : dict UID (dict Trajectory Q)) :
  add_noise laplace itds ns w = Done nc w' ->
  dict_keys nc = dict_keys itds
  /\ forall uid itd, In (uid, itd) itds ->
       exists row,
         dict_get nc uid = Some row
         /\ dict_keys row = trajectories itd
         /\ row_released laplace (dict_get ns uid) itd row (trajectories itd).
Proof.
  intros E. unfold add_noise in E. destruct Hwf as [Hnd Hitd].
  set (nc0 := map (fun '(uid, _) => (uid, @nil (Trajectory * Q))) itds) in *.
  assert (H0 : dict_keys nc0 = dict_keys itds
               /\ forall uid, In uid (dict_keys itds) -> dict_get nc0 uid = Some []).
  { split.
    - unfold nc0, dict_keys. rewrite map_map. apply map_ext. now intros [u i].
    - intros uid Hu. unfold nc0.
      rewrite (dict_get_map_items (fun _ : ITD => @nil (Trajectory * Q)) itds uid).
      apply dict_keys_In in Hu as [itd ->]. reflexivity. }
  apply (for_each_M_inv
           (fun done (nc : dict UID (dict Trajectory Q)) (_ : world) =>
              dict_keys nc = dict_keys itds
              /\ (forall uid itd, In (uid, itd) done ->
                    exists row,
                      dict_get nc uid = Some row
                      /\ dict_keys row = trajectories itd
                      /\ row_released laplace (dict_get ns uid) itd row (trajectories itd))
              /\ (forall uid, In uid (dict_keys itds) -> ~ In uid (dict_keys done) ->
                              dict_get nc uid = Some []))
           _ itds [] nc0 w nc w') in E.
  - simpl in E. destruct E as (Hk & Hrows & _). split; assumption.
  - split; [apply H0 |]. split; [intros uid itd [] | intros uid Hu _; now apply H0].
  - intros done [uid itd] nc1 wa nc2 wb [rest Hrest] (Hk & Hrows & Hfresh) Eb.
    simpl in Hrest.
    assert (Hkeys : dict_keys (done ++ [(uid, itd)]) = dict_keys done ++ [uid])
      by (unfold dict_keys; now rewrite map_app).
    assert (Hi : In (uid, itd) itds) by (rewrite Hrest; apply in_or_app; right; now left).
    assert (Hnew : ~ In uid (dict_keys done)).
    { unfold dict_wf in Hnd. rewrite Hrest in Hnd. unfold dict_keys in Hnd.
      rewrite map_app in Hnd. simpl in Hnd. apply NoDup_remove_2 in Hnd.
      intros Hin. apply Hnd. apply in_or_app. now left. }
    assert (Hts : NoDup (trajectories itd)) by (apply (Hitd uid itd Hi)).
    apply (for_each_M_inv
             (fun done_t (nc : dict UID (dict Trajectory Q)) (_ : world) =>
                dict_keys nc = dict_keys itds
                /\ (forall u, u <> uid -> dict_get nc u = dict_get nc1 u)
                /\ exists row,
                     dict_get nc uid = Some row
                     /\ dict_keys row = done_t
                     /\ row_released laplace (dict_get ns uid) itd row done_t)
             _ (trajectories itd) [] nc1 wa nc2 wb) in Eb.
    + simpl in Eb. destruct Eb as (Hk2 & Hother & row & Er & Hkr & Hexact).
      split; [exact Hk2 |]. split.
      * intros u i Hin. apply in_app_or in Hin as [Hin | [[= <- <-] | []]].
        -- rewrite Hother; [now apply Hrows |].
           intros ->. apply Hnew. eapply In_dict_keys; eauto.
        -- exists row. auto.
      * intros u Hu Hn. rewrite Hother.
        -- apply Hfresh; [assumption |]. intros Hin. apply Hn. rewrite Hkeys.
           apply in_or_app. now left.
        -- intros ->. apply Hn. rewrite Hkeys. apply in_or_app. right. now left.
    + split; [exact Hk |]. split; [reflexivity |].
      exists []. split; [apply Hfresh; [eapply In_dict_keys; eauto | exact Hnew] |].
      split; [reflexivity |].
      unfold row_released. destruct (dict_get ns uid) as [[| s [| s' l]] |]; try exact I;
        intros t [].
    + intros done_t t nca wa' ncb wb' [rest_t Hrt] (Hka & Hoa & row & Era & Hkra & Hexa) Et.
      simpl in Hrt.
      assert (Htnew : ~ In t done_t).
      { rewrite Hrt in Hts. apply NoDup_remove_2 in Hts.
        intros Hin. apply Hts. apply in_or_app. now left. }
      unfold mbind at 1 2, lift, dict_getitem in Et. rewrite Era in Et.
      set (row1 := dict_set row t (inject_Z (ITD_count itd t))) in *.
      set (nc_1 := dict_set nca uid row1) in *.
      assert (Hrow1 : dict_keys row1 = done_t ++ [t]).
      { unfold row1. rewrite dict_keys_set. unfold dict_contains.
        assert (En : dict_get row t = None) by (apply dict_get_None; now rewrite Hkra).
        now rewrite En, Hkra. }
      assert (Hold : forall t', In t' done_t -> dict_get row1 t' = dict_get row t').
      { intros t' Ht'. unfold row1. apply dict_get_set_neq. congruence. }
      assert (HL1 : dict_keys nc_1 = dict_keys itds
                    /\ (forall u, u <> uid -> dict_get nc_1 u = dict_get nc1 u)
                    /\ exists row', dict_get nc_1 uid = Some row'
                                    /\ dict_keys row' = done_t ++ [t]).
      { split; [unfold nc_1; now rewrite (dict_keys_set_present nca uid row) |].
        split.
        - intros u Hu. unfold nc_1. rewrite dict_get_set_neq by congruence. now apply Hoa.
        - exists row1. split; [apply dict_get_set_eq | exact Hrow1]. }
      destruct (dict_get ns uid) as [scales |] eqn:Ens; [| discriminate].
      destruct scales as [| s [| s' scales]].
      * simpl in Et. unfold ret in Et. injection Et as <- <-.
        destruct HL1 as (H1 & H2 & _). split; [exact H1 |]. split; [exact H2 |].
        exists row1. split; [apply dict_get_set_eq |]. split; [exact Hrow1 |].
        simpl in Hexa |- *. intros t' Ht'.
        apply in_app_or in Ht' as [Ht' | [<- | []]].
        -- rewrite Hold by assumption. now apply Hexa.
        -- apply dict_get_set_eq.
      * simpl in Et. unfold mbind, lift, ret, dict_getitem, draw_laplace in Et.
        destruct (Qltb s 0) eqn:Es; [discriminate |].
        assert (Eg : dict_get nc_1 uid = Some row1) by apply dict_get_set_eq.
        rewrite Eg in Et.
        assert (Eo : dict_get row1 t = Some (inject_Z (ITD_count itd t)))
          by apply dict_get_set_eq.
        rewrite Eo in Et. injection Et as <- <-.
        apply Qltb_false in Es.
        split; [now rewrite (dict_keys_set_present nc_1 uid row1) |]. split.
        -- intros u Hu. rewrite dict_get_set_neq by congruence.
           destruct HL1 as (_ & H2 & _). now apply H2.
        -- eexists. split; [apply dict_get_set_eq |].
           split; [now rewrite (dict_keys_set_present_t row1 t (inject_Z (ITD_count itd t))) |].
           simpl in Hexa |- *. intros t' Ht'. split; [exact Es |].
           apply in_app_or in Ht' as [Ht' | [<- | []]].
           ++ destruct (Hexa t' Ht') as [_ [k Ek]]. exists k.
              rewrite dict_get_set_neq by congruence. now rewrite Hold.
           ++ exists (draws wa'). apply dict_get_set_eq.
      * apply (for_each_M_inv
                 (fun _ (nc : dict UID (dict Trajectory Q)) (_ : world) =>
                    dict_keys nc = dict_keys itds
                    /\ (forall u, u <> uid -> dict_get nc u = dict_get nc1 u)
                    /\ exists row', dict_get nc uid = Some row'
                                    /\ dict_keys row' = done_t ++ [t])
                 _ (s :: s' :: scales) [] nc_1 wa' ncb wb') in Et.
        -- destruct Et as (H1 & H2 & row' & H3 & H4).
           split; [exact H1 |]. split; [exact H2 |].
           exists row'. split; [exact H3 |]. split; [exact H4 | exact I].
        -- exact HL1.
        -- intros _ scale ncx wx ncy wy _ (Hkx & Hox & rowx & Erx & Hkrx) Ex.
           unfold mbind, lift, ret, dict_getitem in Ex.
           destruct (draw_laplace laplace scale wx) as [x wz | |]; try discriminate.
           rewrite Erx in Ex.
           destruct (dict_get rowx t) as [old |] eqn:Eo; [| discriminate].
           injection Ex as <- <-.
           split; [now rewrite (dict_keys_set_present ncx uid rowx) |]. split.
           ++ intros u Hu. rewrite dict_get_set_neq by congruence. now apply Hox.
           ++ eexists. split; [apply dict_get_set_eq |].
              now rewrite (dict_keys_set_present_t rowx t old).
Qed.

(** What a returned table looks like. *)
Lemma sanitize_table (fuel : nat) (p : Q) (max_round : Z) (w w' : world)
    (nc : dict UID (dict Trajectory Q)) :
  sanitize laplace fuel itds p max_round w = Done (Some nc) w' ->
  dict_keys nc = dict_keys itds
  /\ forall uid itd, In (uid, itd) itds ->
       exists row,
         dict_get nc uid = Some row
         /\ dict_keys row = trajectories itd
         /\ ((forall t, In t (trajectories itd) -> risk_of itds itd t < p) ->
             forall t, In t (trajectories itd) ->
                       dict_get row t = Some (inject_Z (ITD_count itd t)))
         /\ ((exists t, In t (trajectories itd) /\ p <= risk_of itds itd t) ->
             exists scale,
               0 <= scale
               /\ forall t, In t (trajectories itd) ->
                    exists k, dict_get row t
                              = Some (inject_Z (ITD_count itd t) + laplace k scale)).
Proof.
  destruct (first_round_spec itds p Hwf) as (risky & riskest & risky' & Ef & Ep & Hr & Hsel).
  unfold sanitize, mbind, lift, ret, emit. rewrite Ef.
  destruct (py_range 1 max_round) as [| round_ rr]; [discriminate |].
  rewrite Ep. cbn [fst].
  destruct riskest as [| r0 rs] eqn:Er; [discriminate |]. rewrite <- Er in *. cbv beta.
  destruct (compute_IDFA fuel itds riskest (1 # 10) (1 # 20) _) as [epsl_opt w3 | |];
    try discriminate.
  destruct (update_noise_scale fuel itds p riskest epsl_opt _ w3) as [ns w4 | |] eqn:Eu;
    try discriminate.
  destruct (add_noise laplace itds ns _) as [nc' w5 | |] eqn:Ea; try discriminate.
  intros [= <- <-].
  apply update_noise_scale_keeps in Eu as (Hkns & Hns0 & Hns1).
  apply add_noise_rows in Ea as [Hk Hrows]. split; [exact Hk |].
  intros uid itd Hi. destruct (Hrows uid itd Hi) as (row & Erow & Hkr & Hrel).
  assert (Hu : In uid (dict_keys itds)) by (eapply In_dict_keys; eauto).
  exists row. split; [exact Erow |]. split; [exact Hkr |].
  specialize (Hsel uid itd Hi). split.
  - intros Hlow.
    assert (En : dict_get riskest uid = None).
    { destruct (dict_get riskest uid) as [t |]; [| reflexivity].
      destruct Hsel as (pre & post & Ets & Hp & _).
      assert (Ht : In t (trajectories itd))
        by (rewrite Ets; apply in_or_app; right; now left).
      specialize (Hlow t Ht). lra. }
    rewrite (Hns0 uid Hu En) in Hrel. exact Hrel.
  - intros (t & Ht & Hp).
    destruct (dict_get riskest uid) as [t0 |] eqn:Et0.
    + destruct (Hns1 uid t0 Hu Et0) as [scale Es]. rewrite Es in Hrel. simpl in Hrel.
      exists scale. split; [now apply (Hrel t Ht) |].
      intros t' Ht'. now apply (Hrel t' Ht').
    + specialize (Hsel t Ht). lra.
Qed.
End Sanitized.

Lemma scenario3_population_wf : population_wf scenario3.
Proof.
  split; [exact scenario3_keys |].
  intros uid itd [[= <- <-] | [[= <- <-] | [[= <- <-] | []]]]; apply ITD_init_wf.
  - apply ITDBuilder_add_wf, add_times_wf, ITDBuilder_init_wf.
  - apply add_times_wf, ITDBuilder_init_wf.
  - apply ITDBuilder_add_wf, ITDBuilder_init_wf.
Qed.

(** X18. When [sanitize] returns a table for a well-formed population,
    the table has one row per user of the population, in the order of
    the population, and the row of a user has one entry per trajectory
    of the user, in the order of [trajectories]. *)
Theorem sanitize_table_covers_users_and_trajectories
    (laplace : nat -> Q -> Q) (itds : Population) (fuel : nat) (p : Q) (max_round : Z)
    (w w' : world) (nc : dict UID (dict Trajectory Q)) :
  population_wf itds ->
  sanitize laplace fuel itds p max_round w = Done (Some nc) w' ->
  dict_keys nc = dict_keys itds
  /\ forall uid itd, In (uid, itd) itds ->
       exists row, dict_get nc uid = Some row /\ dict_keys row = trajectories itd.
Proof.
  intros Hwf E.
  destruct (sanitize_table laplace itds Hwf fuel p max_round w w' nc E) as [Hk Hrows].
  split; [exact Hk |]. intros uid itd Hi.
  destruct (Hrows uid itd Hi) as (row & Er & Hkr & _). now exists row.
Qed.

Lemma sanitize_table_covers_users_and_trajectories_witness :
  exists nc w',
    sanitize (fun _ _ => 0) 40 scenario3 (1 # 2) 1000 (mkWorld [] 0) = Done (Some nc) w'
    /\ dict_keys nc = dict_keys scenario3
    /\ forall uid itd, In (uid, itd) scenario3 ->
         exists row, dict_get nc uid = Some row /\ dict_keys row = trajectories itd.
Proof.
  eexists. eexists. split; [vm_compute; reflexivity |].
  eapply (sanitize_table_covers_users_and_trajectories
            (fun _ _ => 0) scenario3 40 (1 # 2) 1000 (mkWorld [] 0)).
  - exact scenario3_population_wf.
  - vm_compute. reflexivity.
Defined.

(** X19. In the table that [sanitize] returns for a well-formed
    population, a user none of whose trajectories has a risk of at least
    [p] gets no noise at all: every entry of the user's row is the exact
    count. *)
Theorem sanitize_leaves_counts_without_risk_exact
    (laplace : nat -> Q -> Q) (itds : Population) (fuel : nat) (p : Q) (max_round : Z)
    (w w' : world) (nc : dict UID (dict Trajectory Q)) (uid : UID) (itd : ITD) :
  population_wf itds ->
  sanitize laplace fuel itds p max_round w = Done (Some nc) w' ->
  In (uid, itd) itds ->
  (forall t, In t (trajectories itd) -> risk_of itds itd t < p) ->
  exists row,
    dict_get nc uid = Some row
    /\ forall t, In t (trajectories itd) ->
                 dict_get row t = Some (inject_Z (ITD_count itd t)).
Proof.
  intros Hwf E Hi Hlow.
  destruct (sanitize_table laplace itds Hwf fuel p max_round w w' nc E) as [_ Hrows].
  destruct (Hrows uid itd Hi) as (row & Er & _ & Hexact & _).
  exists row. split; [exact Er | now apply Hexact].
Qed.

Lemma sanitize_leaves_counts_without_risk_exact_witness :
  exists nc w',
    sanitize (fun _ _ => 0) 40 scenario3 (3 # 5) 1000 (mkWorld [] 0) = Done (Some nc) w'
    /\ exists row,
         dict_get nc 2%Z = Some row
         /\ forall t, In t (trajectories (ITD_init builder_B)) ->
                      dict_get row t = Some (inject_Z (ITD_count (ITD_init builder_B) t)).
Proof.
  eexists. eexists. split; [vm_compute; reflexivity |].
  eapply (sanitize_leaves_counts_without_risk_exact
            (fun _ _ => 0) scenario3 40 (3 # 5) 1000 (mkWorld [] 0)).
  - exact scenario3_population_wf.
  - vm_compute. reflexivity.
  - simpl. tauto.
  - intros t [<- | []]. vm_compute. reflexivity.
Defined.

(** X22. In the table that [sanitize] returns for a well-formed
    population, a user that has a trajectory of risk at least [p] gets
    every count released as the count plus one Laplace sample, and all
    the samples of the user are drawn with the same scale, which is not
    negative. *)
Theorem sanitize_adds_one_sample_to_each_count_at_risk
    (laplace : nat -> Q -> Q) (itds : Population) (fuel : nat) (p : Q) (max_round : Z)
    (w w' : world) (nc : dict UID (dict Trajectory Q)) (uid : UID) (itd : ITD) :
  population_wf itds ->
  sanitize laplace fuel itds p max_round w = Done (Some nc) w' ->
  In (uid, itd) itds ->
  (exists t, In t (trajectories itd) /\ p <= risk_of itds itd t) ->
  exists row scale,
    dict_get nc uid = Some row
    /\ 0 <= scale
    /\ forall t, In t (trajectories itd) ->
         exists k, dict_get row t = Some (inject_Z (ITD_count itd t) + laplace k scale).
Proof.
  intros Hwf E Hi Hrisky.
  destruct (sanitize_table laplace itds Hwf fuel p max_round w w' nc E) as [_ Hrows].
  destruct (Hrows uid itd Hi) as (row & Er & _ & _ & Hone).
  destruct (Hone Hrisky) as (scale & Hs & Hall).
  exists row, scale. auto.
Qed.

Lemma sanitize_adds_one_sample_to_each_count_at_risk_witness :
  exists nc w',
    sanitize (fun k _ => inject_Z (Z.of_nat k)) 40 scenario3 (3 # 5) 1000 (mkWorld [] 0)
    = Done (Some nc) w'
    /\ exists row scale,
         dict_get nc 1%Z = Some row
         /\ 0 <= scale
         /\ forall t, In t (trajectories (ITD_init builder_A)) ->
              exists k, dict_get row t
                        = Some (inject_Z (ITD_count (ITD_init builder_A) t)
                                + (fun k _ => inject_Z (Z.of_nat k)) k scale).
Proof.
  eexists. eexists. split; [vm_compute; reflexivity |].
  eapply (sanitize_adds_one_sample_to_each_count_at_risk
            (fun k _ => inject_Z (Z.of_nat k)) scenario3 40 (3 # 5) 1000 (mkWorld [] 0)).
  - exact scenario3_population_wf.
  - vm_compute. reflexivity.
  - simpl. tauto.
  - exists t456. split; [simpl; tauto | vm_compute; discriminate].
Defined.

(* ================================================================== *)
(** * main.py                                                          *)
(* ================================================================== *)

Lemma sanitize_None_without_risk
    (laplace : nat -> Q -> Q) (fuel : nat) (itds : Population) (p : Q) (max_round : Z)
    (w : world) :
  (forall uid itd t, In (uid, itd) itds -> In t (trajectories itd) ->
                     exists v, _risk (ITD_count itd t) t itds = Ok v /\ v < p) ->
  sanitize laplace fuel itds p max_round w
  = Done None
      (mkWorld (log_info w ++ (if (1 <? max_round)%Z then [LogIteration 1] else []))
               (draws w)).
Proof.
  intros Hlow.
  destruct (find_risky_empty itds p Hlow) as [risky (E & Hq & Hk)].
  unfold sanitize, mbind, lift, ret, emit. rewrite E, py_range_from_1.
  destruct (1 <? max_round)%Z.
  - rewrite (pop_riskest_empty itds risky Hq Hk). reflexivity.
  - destruct w. simpl. now rewrite app_nil_r.
Qed.

Lemma print_counts_None (uid : UID) (itd : ITD) (ts : list Trajectory) (out : list printed) :
  ts <> [] -> print_counts None uid itd ts out = (out, Some TypeError).
Proof. destruct ts; [congruence | reflexivity]. Qed.

Lemma print_users_None (users : Population) :
  forall out,
    (exists uid itd, In (uid, itd) users /\ trajectories itd <> []) ->
    exists pre uid itd post,
      users = pre ++ (uid, itd) :: post
      /\ (forall u i, In (u, i) pre -> trajectories i = [])
      /\ trajectories itd <> []
      /\ print_users None users out
         = (out ++ map PrintUser (dict_keys pre ++ [uid]), Some TypeError).
Proof.
  induction users as [| [u i] users IH]; intros out (uid & itd & Hin & Hne).
  - destruct Hin.
  - simpl. destruct (trajectories i) as [| t ts] eqn:Ets.
    + simpl. destruct Hin as [[= -> ->] | Hin]; [congruence |].
      destruct (IH (out ++ [PrintUser u])) as (pre & uid' & itd' & post & E & Hpre & Hne' & Ep).
      { exists uid, itd. auto. }
      exists ((u, i) :: pre), uid', itd', post. split; [simpl; now rewrite E |].
      split; [| split; [exact Hne' |]].
      * intros u0 i0 [[= <- <-] | H0]; [exact Ets | now apply (Hpre u0 i0)].
      * rewrite Ep. simpl. now rewrite <- app_assoc.
    + exists [], u, i, users. split; [reflexivity |].
      split; [intros u0 i0 [] |]. split; [rewrite Ets; discriminate |].
      reflexivity.
Qed.

(** X20. When no trajectory of any user has a risk of at least 0.5 while
    some user has a trajectory, [main] ends in a [TypeError]: [sanitize]
    returned [None], and [main] subscripts it at the first trajectory it
    meets, after printing the line of each user up to that one. *)
Theorem main_raises_TypeError_without_risky_trajectory
    (laplace : nat -> Q -> Q) (fuel : nat) (itds : Population) (w : world) :
  (forall uid itd t, In (uid, itd) itds -> In t (trajectories itd) ->
                     exists v, _risk (ITD_count itd t) t itds = Ok v /\ v < p_default) ->
  (exists uid itd, In (uid, itd) itds /\ trajectories itd <> []) ->
  exists pre uid itd post,
    itds = pre ++ (uid, itd) :: post
    /\ (forall u i, In (u, i) pre -> trajectories i = [])
    /\ trajectories itd <> []
    /\ main laplace fuel itds w
       = MainRaised TypeError (map PrintUser (dict_keys pre ++ [uid]))
           (mkWorld (log_info w ++ [LogIteration 1]) (draws w)).
Proof.
  intros Hlow Hsome. unfold main.
  rewrite (sanitize_None_without_risk laplace fuel itds p_default max_round_default w Hlow).
  destruct (print_users_None itds [] Hsome) as (pre & uid & itd & post & E & Hpre & Hne & Ep).
  exists pre, uid, itd, post. split; [exact E |]. split; [exact Hpre |].
  split; [exact Hne |]. rewrite Ep. reflexivity.
Qed.

Lemma main_raises_TypeError_without_risky_trajectory_witness :
  exists pre uid itd post,
    trio = pre ++ (uid, itd) :: post
    /\ (forall u i, In (u, i) pre -> trajectories i = [])
    /\ trajectories itd <> []
    /\ main (fun _ _ => 0) 40 trio (mkWorld [] 0)
       = MainRaised TypeError (map PrintUser (dict_keys pre ++ [uid]))
           (mkWorld (log_info (mkWorld [] 0) ++ [LogIteration 1]) (draws (mkWorld [] 0))).
Proof.
  apply (main_raises_TypeError_without_risky_trajectory (fun _ _ => 0) 40 trio (mkWorld [] 0)).
  - intros uid itd t [[= <- <-] | [[= <- <-] | [[= <- <-] | []]]] [<- | []];
      eexists; (split; [vm_compute; reflexivity | vm_compute; reflexivity]).
  - exists 1%Z. eexists. split; [left; reflexivity | discriminate].
Defined.

Lemma print_counts_Some (table : dict UID (dict Trajectory Q)) (uid : UID) (itd : ITD)
    (row : dict Trajectory Q) (ts : list Trajectory) :
  dict_get table uid = Some row ->
  (forall t, In t ts -> In t (dict_keys row)) ->
  forall out,
    print_counts (Some table) uid itd ts out
    = (out ++ map (fun t => PrintCounts t (ITD_count itd t) (noise_at table uid t)) ts, None).
Proof.
  intros Er. induction ts as [| t ts IH]; intros Hin out; simpl.
  - now rewrite app_nil_r.
  - destruct (dict_keys_In row t (Hin t (or_introl eq_refl))) as [nc Enc].
    unfold noise_getitem, noise_at. rewrite Er, Enc.
    rewrite IH by (intros t' Ht'; apply Hin; now right).
    unfold noise_at. rewrite Er. now rewrite <- app_assoc.
Qed.

Lemma print_users_Some (table : dict UID (dict Trajectory Q)) (users : Population) :
  (forall uid itd, In (uid, itd) users ->
     exists row, dict_get table uid = Some row /\ dict_keys row = trajectories itd) ->
  forall out,
    print_users (Some table) users out
    = (out ++ flat_map (fun '(uid, itd) => lines_of table uid itd) users, None).
Proof.
  induction users as [| [u i] users IH]; intros Hrows out; simpl.
  - now rewrite app_nil_r.
  - destruct (Hrows u i (or_introl eq_refl)) as (row & Er & Hk).
    rewrite (print_counts_Some table u i row (trajectories i) Er)
      by (intros t Ht; now rewrite Hk).
    rewrite IH by (intros uid itd Hin; apply Hrows; now right).
    unfold lines_of. now rewrite <- !app_assoc.
Qed.

(** The output of [main] for a returned table. *)
Lemma main_prints_every_count_aux
    (laplace : nat -> Q -> Q) (fuel : nat) (itds : Population) (w w' : world)
    (table : dict UID (dict Trajectory Q)) :
  population_wf itds ->
  sanitize laplace fuel itds p_default max_round_default w = Done (Some table) w' ->
  main laplace fuel itds w
  = MainDone (flat_map (fun '(uid, itd) => lines_of table uid itd) itds) w'.
Proof.
  intros Hwf E. unfold main. rewrite E.
  destruct (sanitize_table laplace itds Hwf fuel p_default max_round_default w w' table E)
    as [_ Hrows].
  rewrite (print_users_Some table itds); [reflexivity |].
  intros uid itd Hi. destruct (Hrows uid itd Hi) as (row & Er & Hk & _). now exists row.
Qed.

(** X21. When [sanitize] returns a table for a well-formed population,
    [main] runs to its end without an exception: every read
    [noise[uid][t]] finds its entry, and the output has, for each user in
    the order of the population, the line of the user followed by one
    line per trajectory with the true count and the entry of the
    table. *)
Theorem main_prints_every_count_of_a_returned_table
    (laplace : nat -> Q -> Q) (fuel : nat) (itds : Population) (w w' : world)
    (table : dict UID (dict Trajectory Q)) :
  population_wf itds ->
  sanitize laplace fuel itds p_default max_round_default w = Done (Some table) w' ->
  main laplace fuel itds w
  = MainDone (flat_map (fun '(uid, itd) => lines_of table uid itd) itds) w'.
Proof. apply main_prints_every_count_aux. Qed.

Lemma main_prints_every_count_of_a_returned_table_witness :
  exists table w',
    sanitize (fun _ _ => 0) 40 scenario3 p_default max_round_default (mkWorld [] 0)
    = Done (Some table) w'
    /\ main (fun _ _ => 0) 40 scenario3 (mkWorld [] 0)
       = MainDone (flat_map (fun '(uid, itd) => lines_of table uid itd) scenario3) w'.
Proof.
  eexists. eexists. split; [vm_compute; reflexivity |].
  apply (main_prints_every_count_of_a_returned_table
           (fun _ _ => 0) 40 scenario3 (mkWorld [] 0)).
  - exact scenario3_population_wf.
  - vm_compute. reflexivity.
Defined.

(** The first user of a loaded table is the user of the first row, and
    has a trajectory. *)
Lemma load_rows_head (uid0 : UID) (areas0 : list Z) (rows : list (UID * list Z)) :
  exists itd0 rest,
    load_rows ((uid0, areas0) :: rows) = (uid0, itd0) :: rest
    /\ trajectories itd0 <> [].
Proof.
  set (all := (uid0, areas0) :: rows).
  destruct (load_rows_spec all) as (Hwf & _ & Hget & Hk).
  assert (Hkeys : exists l, dict_keys (load_rows all) = uid0 :: l).
  { rewrite Hk. unfold all. cbn [fold_left].
    destruct (add_rows_keys rows (add_row [] (uid0, areas0))) as [l El].
    exists l. rewrite El. unfold add_row. simpl.
    destruct (key_eq_dec uid0 uid0); [reflexivity | congruence]. }
  destruct Hkeys as [l El].
  destruct (load_rows all) as [| [u itd0] rest] eqn:E; [discriminate |].
  simpl in El. injection El as -> _.
  exists itd0, rest. split; [reflexivity |].
  specialize (Hget uid0 (or_introl eq_refl)). simpl in Hget.
  destruct (key_eq_dec uid0 uid0); [| congruence].
  injection Hget as ->.
  destruct (ITD_init_shape (builder_of uid0 (records_of all uid0))
              (proj1 (builder_of_wf uid0 (records_of all uid0)))) as [Hts _].
  rewrite Hts. intros Hnil.
  assert (Hin : In (mkTrajectory areas0) (dict_keys (trajs (builder_of uid0 (records_of all uid0))))).
  { apply builder_of_keys. unfold records_of, all. simpl. rewrite keyb_refl. now left. }
  rewrite Hnil in Hin. destruct Hin.
Qed.

(** X23. [main] on the population loaded from any table of rows: with no
    row it prints nothing and ends normally; otherwise, if [sanitize]
    returns a table, [main] prints the lines of every user and ends
    normally, and if [sanitize] returns [None] (no trajectory at risk),
    [main] raises [TypeError] right after the line of the first user; an
    exception of [sanitize] is passed on. *)
Theorem main_on_loaded_rows
    (laplace : nat -> Q -> Q) (fuel : nat) (rows : list (UID * list Z)) (w : world) :
  match rows with
  | [] =>
      main laplace fuel (load_rows rows) w
      = MainDone [] (mkWorld (log_info w ++ [LogIteration 1]) (draws w))
  | (uid0, _) :: _ =>
      match sanitize laplace fuel (load_rows rows) p_default max_round_default w with
      | Done (Some table) w' =>
          main laplace fuel (load_rows rows) w
          = MainDone (flat_map (fun '(uid, itd) => lines_of table uid itd) (load_rows rows)) w'
      | Done None w' =>
          main laplace fuel (load_rows rows) w = MainRaised TypeError [PrintUser uid0] w'
      | Raised e w' =>
          main laplace fuel (load_rows rows) w = MainRaised (Other e) [] w'
      | OutOfFuel => main laplace fuel (load_rows rows) w = MainOutOfFuel
      end
  end.
Proof.
  destruct rows as [| [uid0 areas0] rows].
  - unfold main.
    rewrite (sanitize_None_without_risk laplace fuel (load_rows []) p_default
               max_round_default w); [reflexivity |].
    intros uid itd t [].
  - set (all := (uid0, areas0) :: rows).
    destruct (sanitize laplace fuel (load_rows all) p_default max_round_default w)
      as [[table |] w' | e w' |] eqn:E.
    + apply main_prints_every_count_aux; [| exact E].
      apply (load_rows_spec all).
    + unfold main. rewrite E.
      destruct (load_rows_head uid0 areas0 rows) as (itd0 & rest & El & Hne).
      fold all in El. rewrite El. simpl.
      now rewrite (print_counts_None uid0 itd0 (trajectories itd0) _ Hne).
    + unfold main. now rewrite E.
    + unfold main. now rewrite E.
Qed.

(* ================================================================== *)
(** * log.py: the layout of a log record                               *)
(* ================================================================== *)

Lemma split_lines_nonempty (s : list Ascii.ascii) : split_lines s <> [].
Proof.
  induction s as [| c s IH]; simpl; [discriminate |].
  destruct (Ascii.eqb c newline); [discriminate |].
  destruct (split_lines s); discriminate.
Qed.

Lemma split_lines_no_newline (s l : list Ascii.ascii) :
  In l (split_lines s) -> ~ In newline l.
Proof.
  revert l. induction s as [| c s IH]; simpl; intros l.
  - intros [<- | []] [].
  - destruct (Ascii.eqb c newline) eqn:E.
    + intros [<- | Hl]; [intros [] | now apply IH].
    + destruct (split_lines s) as [| l0 ls] eqn:Es; [now apply split_lines_nonempty in Es |].
      simpl. intros [<- | Hl].
      * intros [Ec | Hin].
        -- rewrite Ec, Ascii.eqb_refl in E. discriminate.
        -- apply (IH l0); [now left | assumption].
      * apply IH. now right.
Qed.

Lemma split_lines_prefix (ind s : list Ascii.ascii) :
  ~ In newline ind ->
  split_lines (ind ++ s)
  = match split_lines s with
    | l :: ls => (ind ++ l) :: ls
    | [] => []
    end.
Proof.
  induction ind as [| c ind IH]; intros Hn; simpl.
  - now destruct (split_lines s).
  - destruct (Ascii.eqb c newline) eqn:E.
    + apply Ascii.eqb_eq in E. exfalso. apply Hn. now left.
    + rewrite IH by (intros Hin; apply Hn; now right).
      destruct (split_lines s) as [| l ls] eqn:Es; [| reflexivity].
      now apply split_lines_nonempty in Es.
Qed.

Lemma split_lines_line (l : list Ascii.ascii) : ~ In newline l -> split_lines l = [l].
Proof.
  intros Hn. rewrite <- (app_nil_r l) at 1. rewrite split_lines_prefix by assumption.
  simpl. now rewrite app_nil_r.
Qed.

Lemma split_lines_break (l s : list Ascii.ascii) :
  ~ In newline l -> split_lines (l ++ newline :: s) = l :: split_lines s.
Proof.
  intros Hn. rewrite split_lines_prefix by assumption.
  change (split_lines (newline :: s)) with ([] :: split_lines s).
  cbv iota. now rewrite app_nil_r.
Qed.

Lemma split_join (ind : list Ascii.ascii) (ls : list (list Ascii.ascii)) :
  ~ In newline ind -> (forall l, In l ls -> ~ In newline l) ->
  split_lines (join (newline :: ind) ls)
  = match ls with
    | [] => [[]]
    | l0 :: rest => l0 :: map (app ind) rest
    end.
Proof.
  intros Hind. induction ls as [| p ls IH]; intros Hls; [reflexivity |].
  destruct ls as [| q r].
  - simpl. apply split_lines_line. apply Hls. now left.
  - change (join (newline :: ind) (p :: q :: r))
      with (p ++ newline :: (ind ++ join (newline :: ind) (q :: r))).
    rewrite split_lines_break by (apply Hls; now left).
    rewrite (split_lines_prefix ind (join (newline :: ind) (q :: r)) Hind).
    rewrite IH by (intros l Hl; apply Hls; now right). reflexivity.
Qed.

Lemma spaces_no_newline (n : nat) : ~ In newline (repeat space n).
Proof. intros Hin. apply repeat_spec in Hin. discriminate. Qed.

(** X24. The message of a log record after [LogFormatter.format]: its
    first line is the first line of the message, and every further line
    is the corresponding line of the message behind exactly
    [len(module) + 8] spaces; no line is added or lost, so a message of
    one line is left as it is. *)
Theorem format_indents_the_continuation_lines (module_name message : list Ascii.ascii) :
  (exists l0 rest,
      split_lines message = l0 :: rest
      /\ split_lines (indent_message module_name message)
         = l0 :: map (app (repeat space (length module_name + 8))) rest)
  /\ (~ In newline message -> indent_message module_name message = message).
Proof.
  split.
  - destruct (split_lines message) as [| l0 rest] eqn:E;
      [now apply split_lines_nonempty in E |].
    exists l0, rest. split; [reflexivity |].
    unfold indent_message. cbv zeta. rewrite E, split_join; [reflexivity | |].
    + apply spaces_no_newline.
    + intros l Hl. apply (split_lines_no_newline message). now rewrite E.
  - intros Hn. unfold indent_message. cbv zeta. now rewrite split_lines_line.
Qed.

Lemma str_nat_short (n : N) : (n < 10000)%N -> (length (str_nat n) <= 4)%nat.
Proof.
  intros Hn.
  assert (Hall : forallb (fun k => (length (str_nat k) <=? 4)%nat)
                         (map N.of_nat (seq 0 (N.to_nat 10000))) = true)
    by (vm_compute; reflexivity).
  rewrite forallb_forall in Hall. apply Nat.leb_le. apply Hall.
  apply in_map_iff. exists (N.to_nat n). split; [lia |].
  apply in_seq. lia.
Qed.

(** X25. Without colour and for a line number below 10000, the text that
    [LogFormatter.format] puts before the message, "[module:line] " with
    the line number right-justified in four characters, is exactly
    [len(module) + 8] characters long: the first line of the message
    starts in the column to which the further lines are indented. *)
Theorem format_aligns_the_message_below_line_10000
    (module_name message : list Ascii.ascii) (lineno : N) :
  (lineno < 10000)%N ->
  exists prefix,
    format_record [] [] module_name lineno message
    = prefix ++ indent_message module_name message
    /\ length prefix = (length module_name + 8)%nat
    /\ prefix = [lbracket] ++ module_name ++ [colon] ++ pad4 (str_nat lineno)
                ++ [rbracket] ++ [space].
Proof.
  intros Hn.
  exists ([lbracket] ++ module_name ++ [colon] ++ pad4 (str_nat lineno)
          ++ [rbracket] ++ [space]).
  split; [| split; [| reflexivity]].
  - unfold format_record. rewrite <- !app_assoc. reflexivity.
  - assert (Hs := str_nat_short lineno Hn).
    unfold pad4. rewrite !length_app, repeat_length. cbn [length]. lia.
Qed.

Lemma format_aligns_the_message_below_line_10000_witness :
  exists prefix,
    format_record [] [] [colon; colon] 214 [space; newline; space]
    = prefix ++ indent_message [colon; colon] [space; newline; space]
    /\ length prefix = (length [colon; colon] + 8)%nat
    /\ prefix = [lbracket] ++ [colon; colon] ++ [colon] ++ pad4 (str_nat 214)
                ++ [rbracket] ++ [space].
Proof.
  apply (format_aligns_the_message_below_line_10000
           [colon; colon] [space; newline; space] 214%N).
  reflexivity.
Defined.
